(** * aicommit: the diff chunker, the batch runner, the rate limiter and the
    message post-processing of [src/services/aiService.ts]

    JavaScript strings are sequences of UTF-16 code units; [length] counts
    code units, and only regular expressions carrying the [u] flag read
    surrogate pairs as one character.  The embedding keeps that
    representation: a string is a list of code units. *)

From Stdlib Require Import Ascii String.
From Stdlib Require Import List NArith ZArith Bool Arith Lia.
From Equations Require Import Equations.
Import ListNotations.

(** ** JavaScript strings *)

Module JS.

Definition jsstring := list N.

(** An ASCII literal of the source, as code units. *)
Definition lit (s : string) : jsstring :=
  map N_of_ascii (list_ascii_of_string s).

(** Truthiness of a string: only the empty string is falsy. *)
Definition truthy (s : jsstring) : bool :=
  match s with [] => false | _ :: _ => true end.

Fixpoint startsWith (p s : jsstring) : bool :=
  match p, s with
  | [], _ => true
  | _ :: _, [] => false
  | a :: p', b :: s' => N.eqb a b && startsWith p' s'
  end.

(** [String.prototype.includes] *)
Fixpoint includes (s needle : jsstring) : bool :=
  startsWith needle s ||
  match s with
  | [] => false
  | _ :: s' => includes s' needle
  end.

(** [String.prototype.split] with a non-empty string separator: the
    separator's occurrences are found from the left, without overlap;
    [skip] counts the code units of an occurrence still to be passed, and
    [piece] holds the current piece in reverse. *)
Fixpoint splitFrom (sep s : jsstring) (skip : nat) (piece : jsstring)
  : list jsstring :=
  match s with
  | [] => [rev piece]
  | c :: s' =>
      match skip with
      | S k => splitFrom sep s' k piece
      | O =>
          if startsWith sep s
          then rev piece :: splitFrom sep s' (length sep - 1) []
          else splitFrom sep s' 0 (c :: piece)
      end
  end.

Definition split (s sep : jsstring) : list jsstring :=
  splitFrom sep s 0 [].

(** [String.prototype.replace] with a string pattern and a replacement
    that holds no [$]: the first occurrence is replaced, later ones stay. *)
Fixpoint replaceFirst (s pat rep : jsstring) : jsstring :=
  if startsWith pat s then rep ++ skipn (length pat) s
  else match s with
       | [] => []
       | c :: s' => c :: replaceFirst s' pat rep
       end.

(** [Array.prototype.join] *)
Fixpoint join (sep : jsstring) (l : list jsstring) : jsstring :=
  match l with
  | [] => []
  | [x] => x
  | x :: rest => x ++ sep ++ join sep rest
  end.

(** [s.length]: the number of code units. *)
Definition len (s : jsstring) : Z := Z.of_nat (length s).

(** [Array.prototype.slice (from, to)] on indices inside [0, length]. *)
Definition slice {A} (l : list A) (from to : nat) : list A :=
  firstn (to - from) (skipn from l).

End JS.

Import JS.

(** ** Regular expressions

    A backtracking matcher in continuation-passing style, as ECMAScript
    specifies it: quantifiers are greedy, the first successful path wins,
    and a search tries the start positions from the left.  In every pattern
    of [aiService.ts] the atom under [*] and [+] is a single character
    class, so the syntax offers the quantifiers on classes only.  With the
    [u] flag a high surrogate followed by a low surrogate is read as one
    character; without it every code unit is a character. *)

Module Regex.

Definition isHigh (c : N) : bool := (55296 <=? c)%N && (c <=? 56319)%N.
Definition isLow (c : N) : bool := (56320 <=? c)%N && (c <=? 57343)%N.

(** The code point of a surrogate pair. *)
Definition decode (h l : N) : N :=
  (65536 + (h - 55296) * 1024 + (l - 56320))%N.

Definition cls := N -> bool.

Inductive regex : Type :=
| Eps
| Bos                          (* ^ without the m flag *)
| Cls (p : cls)                (* one character of the class *)
| Seq (r1 r2 : regex)
| Opt (r : regex)              (* r? *)
| Star (p : cls)               (* [p]* *)
| Plus (p : cls)               (* [p]+ *)
| Cap (n : nat) (r : regex).   (* capture group number n *)

Definition captures := list (nat * jsstring).

Definition orElse {A} (a b : option A) : option A :=
  match a with Some _ => a | None => b end.

Section Matcher.

Variable R : Type.
Variable u : bool.

(** The continuation receives the position reached and the input left. *)
Definition cont := nat -> jsstring -> option R.

(** Greedy repetition of a class: the longest run first, then shorter. *)
Fixpoint loop (p : cls) (pos : nat) (s : jsstring) (k : cont) {struct s}
  : option R :=
  match s with
  | [] => k pos s
  | h :: t =>
      let single :=
        if p h then orElse (loop p (pos + 1) t k) (k pos s) else k pos s in
      if u && isHigh h then
        match t with
        | l :: rest =>
            if isLow l then
              if p (decode h l)
              then orElse (loop p (pos + 2) rest k) (k pos s)
              else k pos s
            else single
        | [] => single
        end
      else single
  end.

(** One character of a class. *)
Definition one (p : cls) (pos : nat) (s : jsstring) (k : cont) : option R :=
  match s with
  | [] => None
  | h :: t =>
      let single := if p h then k (pos + 1) t else None in
      if u && isHigh h then
        match t with
        | l :: rest =>
            if isLow l then
              if p (decode h l) then k (pos + 2) rest else None
            else single
        | [] => single
        end
      else single
  end.

Fixpoint run (r : regex) (pos : nat) (s : jsstring) (caps : captures)
    (k : nat -> jsstring -> captures -> option R) {struct r} : option R :=
  match r with
  | Eps => k pos s caps
  | Bos => if pos =? 0 then k pos s caps else None
  | Cls p => one p pos s (fun pos' s' => k pos' s' caps)
  | Seq r1 r2 =>
      run r1 pos s caps (fun pos' s' caps' => run r2 pos' s' caps' k)
  | Opt r1 => orElse (run r1 pos s caps k) (k pos s caps)
  | Star p => loop p pos s (fun pos' s' => k pos' s' caps)
  | Plus p =>
      one p pos s
        (fun pos' s' => loop p pos' s' (fun pos'' s'' => k pos'' s'' caps))
  | Cap n r1 =>
      run r1 pos s caps
        (fun pos' s' caps' => k pos' s' ((n, firstn (pos' - pos) s) :: caps'))
  end.

End Matcher.

Arguments loop {R} u p pos s k.
Arguments one {R} u p pos s k.
Arguments run {R} u r pos s caps k.

(** What [exec] returns on success: [index], the matched text [m[0]], the
    groups, and the input after the match. *)
Record matchResult : Type := {
  index : nat;
  matched : jsstring;
  groups : captures;
  after : jsstring
}.

(** [m[n]] for a group that took part in the match. *)
Fixpoint group (n : nat) (caps : captures) : option jsstring :=
  match caps with
  | [] => None
  | (i, v) :: rest => if i =? n then Some v else group n rest
  end.

Definition matchAt (u : bool) (r : regex) (pos : nat) (s : jsstring)
  : option matchResult :=
  run u r pos s []
    (fun pos' s' caps =>
       Some {| index := pos; matched := firstn (pos' - pos) s;
               groups := caps; after := s' |}).

(** [RegExp.prototype.exec] without the g and y flags: the first start
    position, from the left, at which the pattern matches. *)
Fixpoint search (u : bool) (r : regex) (pos : nat) (s : jsstring) {struct s}
  : option matchResult :=
  match matchAt u r pos s with
  | Some m => Some m
  | None =>
      match s with
      | [] => None
      | h :: t =>
          if u && isHigh h then
            match t with
            | l :: rest =>
                if isLow l then search u r (pos + 2) rest
                else search u r (pos + 1) t
            | [] => search u r (pos + 1) t
            end
          else search u r (pos + 1) t
      end
  end.

Definition exec (u : bool) (r : regex) (s : jsstring) : option matchResult :=
  search u r 0 s.

(** *** Character classes *)

Definition chr (a : ascii) : cls := fun c => N.eqb c (N_of_ascii a).
Definition notChr (a : ascii) : cls := fun c => negb (N.eqb c (N_of_ascii a)).
Definition range (lo hi : N) : cls := fun c => (lo <=? c)%N && (c <=? hi)%N.

(** LineTerminator: LF, CR, LS, PS. *)
Definition isLineTerminator (c : N) : bool :=
  N.eqb c 10 || N.eqb c 13 || N.eqb c 8232 || N.eqb c 8233.

(** [\s]: WhiteSpace and LineTerminator. *)
Definition isWhiteSpace (c : N) : bool :=
  N.eqb c 9 || N.eqb c 11 || N.eqb c 12 || N.eqb c 32 || N.eqb c 160
  || N.eqb c 5760 || range 8192 8202 c || N.eqb c 8239 || N.eqb c 8287
  || N.eqb c 12288 || N.eqb c 65279 || isLineTerminator c.

(** [.] without the s flag. *)
Definition dot : cls := fun c => negb (isLineTerminator c).

(** [[a-z]] *)
Definition lower : cls := range 97 122.

(** [\w] *)
Definition word : cls :=
  fun c => range 97 122 c || range 65 90 c || range 48 57 c || N.eqb c 95.

(** [[\u{1F300}-\u{1F9FF}]] *)
Definition pictograph : cls := range 127744 129535.

End Regex.

(** ** config/constants.ts *)

Definition MAX_DIFF_LENGTH : Z := 15000.
Definition CHUNK_THRESHOLD : Z := 50000.
Definition FREE_ACCOUNT_COOLDOWN : Z := 60000.

(** ** splitDiffIntoChunks *)

Module Chunker.

Definition delimiter : jsstring := lit "diff --git".
Definition newline : jsstring := lit (String (ascii_of_nat 10) EmptyString).

(** [diff.split('diff --git').filter(Boolean)] *)
Definition rawSections (diff : jsstring) : list jsstring :=
  filter truthy (split diff delimiter).

(** The sections the loop works on: each with the delimiter put back
    ([fullSection]). *)
Definition fileSections (diff : jsstring) : list jsstring :=
  map (fun section => delimiter ++ section) (rawSections diff).

(** The [for] loop of [splitDiffIntoChunks]: [chunks] is the array built so
    far, [currentChunk] the chunk being filled. *)
Fixpoint packLoop (sections : list jsstring) (chunks : list jsstring)
    (currentChunk : jsstring) : list jsstring * jsstring :=
  match sections with
  | [] => (chunks, currentChunk)
  | section :: rest =>
      let fullSection := delimiter ++ section in
      if (len currentChunk + len fullSection >? MAX_DIFF_LENGTH)%Z
      then
        packLoop rest
          (if truthy currentChunk then chunks ++ [currentChunk] else chunks)
          fullSection
      else
        packLoop rest chunks
          (currentChunk ++ (if truthy currentChunk then newline else [])
                        ++ fullSection)
  end.

Definition splitDiffIntoChunks (diff : jsstring) : list jsstring :=
  let fileSections := rawSections diff in
  let '(chunks, currentChunk) := packLoop fileSections [] [] in
  if truthy currentChunk then chunks ++ [currentChunk] else chunks.

End Chunker.

(** ** types/index.ts: the persisted configuration

    [defaults] is left out: nothing below reads it. *)

Inductive AIProvider : Type := gemini | openai.

Record Config : Type := {
  AI_PROVIDER : AIProvider;
  GEMINI_API_KEY : option jsstring;
  OPENAI_API_KEY : option jsstring;
  IS_FREE_ACCOUNT : bool;
  LAST_REQUEST_TIME : option Z;
  MODEL : option jsstring
}.

Definition set_LAST_REQUEST_TIME (t : Z) (config : Config) : Config :=
  {| AI_PROVIDER := AI_PROVIDER config;
     GEMINI_API_KEY := GEMINI_API_KEY config;
     OPENAI_API_KEY := OPENAI_API_KEY config;
     IS_FREE_ACCOUNT := IS_FREE_ACCOUNT config;
     LAST_REQUEST_TIME := Some t;
     MODEL := MODEL config |}.

(** [config.LAST_REQUEST_TIME || 0] *)
Definition orZero (t : option Z) : Z :=
  match t with Some v => v | None => 0%Z end.

(** ** The clock

    [Date.now()] reads [now], in milliseconds.  Time passes only while the
    program is suspended on a timer or on a request: a suspension asked to
    last [ms] lasts [ms] plus the next entry of [lateness] (nothing more
    once the list is used up). *)

Record Clock : Type := {
  now : Z;
  lateness : list N
}.

Definition suspend (ms : Z) (clock : Clock) : Clock :=
  {| now := now clock + ms + Z.of_N (hd 0%N (lateness clock));
     lateness := tl (lateness clock) |}.

(** Node's [setTimeout] with an integer delay: a delay above 2^31 - 1 or
    below 1 is set to 1. *)
Definition TIMEOUT_MAX : Z := 2147483647.

Definition setTimeout (delay : Z) (clock : Clock) : Clock :=
  suspend (if (TIMEOUT_MAX <? delay)%Z || (delay <? 1)%Z then 1%Z else delay)
    clock.

(** ** rateLimiter and batchProcess *)

Module Rate.

(** The [config] object is shared with the caller and updated in place:
    the function returns its new contents with the clock. *)
Definition rateLimiter (config : Config) (clock : Clock) : Config * Clock :=
  if IS_FREE_ACCOUNT config then
    let now_ := now clock in
    let lastRequest := orZero (LAST_REQUEST_TIME config) in
    let timeSinceLastRequest := (now_ - lastRequest)%Z in
    let clock' :=
      if (timeSinceLastRequest <? FREE_ACCOUNT_COOLDOWN)%Z then
        let waitTime := (FREE_ACCOUNT_COOLDOWN - timeSinceLastRequest)%Z in
        setTimeout waitTime clock
      else clock in
    (set_LAST_REQUEST_TIME now_ config, clock')
  else (config, clock).

(** What a call of the processor does for an item: it resolves to a string
    or it rejects. *)
Inductive outcome : Type :=
| Resolved (value : jsstring)
| Rejected (error : jsstring).

Section Batch.

Variable T : Type.
Variable processor : T -> outcome.

(** The [try]/[catch] around the processor: a rejection becomes the empty
    string. *)
Definition guarded (item : T) : jsstring :=
  match processor item with
  | Resolved value => value
  | Rejected _ => []
  end.

(** The [for] loop, from index [i] on.  [Promise.all] keeps the positions
    of the batch; awaiting it lets time pass. *)
Equations? batchLoop (MAX_CONCURRENT_REQUESTS : nat)
    (positive : 0 < MAX_CONCURRENT_REQUESTS) (items : list T) (i : nat)
    (results : list jsstring) (config : Config) (clock : Clock)
  : list jsstring * Config * Clock by wf (length items - i) lt :=
  batchLoop MAX_CONCURRENT_REQUESTS positive items i results config clock
    with lt_dec i (length items) => {
    | left _ =>
        let batch := slice items i (i + MAX_CONCURRENT_REQUESTS) in
        let limited := rateLimiter config clock in
        let batchResults := map guarded batch in
        batchLoop MAX_CONCURRENT_REQUESTS positive items
          (i + MAX_CONCURRENT_REQUESTS) (results ++ batchResults)
          (fst limited) (suspend 0 (snd limited));
    | right _ => (results, config, clock) }.
Proof. lia. Qed.

Definition concurrency (config : Config) : nat :=
  if IS_FREE_ACCOUNT config then 2 else 5.

Lemma concurrency_positive (config : Config) : 0 < concurrency config.
Proof. unfold concurrency. destruct (IS_FREE_ACCOUNT config); lia. Qed.

Definition batchProcess (items : list T) (config : Config) (clock : Clock)
  : list jsstring * Config * Clock :=
  let MAX_CONCURRENT_REQUESTS := concurrency config in
  let '(results, config', clock') :=
    batchLoop MAX_CONCURRENT_REQUESTS (concurrency_positive config) items 0 []
      config clock in
  (filter truthy results, config', clock').

End Batch.

Arguments guarded {T} processor item.
Arguments batchLoop {T} processor MAX_CONCURRENT_REQUESTS positive items i
  results config clock.
Arguments batchProcess {T} processor items config clock.

End Rate.

(** ** types/index.ts: the commit types *)

Inductive CommitType : Type :=
| ct_feat | ct_fix | ct_docs | ct_style | ct_refactor | ct_perf | ct_test
| ct_build | ct_ci | ct_chore | ct_revert.

Definition commitTypeText (t : CommitType) : jsstring :=
  match t with
  | ct_feat => lit "feat" | ct_fix => lit "fix" | ct_docs => lit "docs"
  | ct_style => lit "style" | ct_refactor => lit "refactor"
  | ct_perf => lit "perf" | ct_test => lit "test" | ct_build => lit "build"
  | ct_ci => lit "ci" | ct_chore => lit "chore" | ct_revert => lit "revert"
  end.

(** ** enforceCommitType *)

Module Rewrite.
Import Regex.

(** Line 164, no flag, token by token:
    ^  [a-z]+  (?: \(  [^)]+  \) )?  :  *)
Definition typeAndScope : regex :=
  Seq Bos
    (Seq (Plus lower)
       (Seq (Opt (Seq (Cls (chr "("%char))
                    (Seq (Plus (notChr ")"%char)) (Cls (chr ")"%char)))))
          (Cls (chr ":"%char)))).

(** Line 165, no flag:   \(  [^)]+  \)  *)
Definition parenthetical : regex :=
  Seq (Cls (chr "("%char)) (Seq (Plus (notChr ")"%char)) (Cls (chr ")"%char))).

(** Line 170, flag u:   :  \s*  ( [\u{1F300}-\u{1F9FF}] )  *)
Definition colonEmoji : regex :=
  Seq (Cls (chr ":"%char)) (Seq (Star isWhiteSpace) (Cap 1 (Cls pictograph))).

(** Line 177, flag u:
    ^  [^:]+  :  \s*  (?: [\u{1F300}-\u{1F9FF}]  \s* )?  ( .+ )  *)
Definition descriptionPattern : regex :=
  Seq Bos
    (Seq (Plus (notChr ":"%char))
       (Seq (Cls (chr ":"%char))
          (Seq (Star isWhiteSpace)
             (Seq (Opt (Seq (Cls pictograph) (Star isWhiteSpace)))
                (Cap 1 (Plus dot)))))).

(** [scope]: the match of the parenthetical inside the matched type
    prefix, or [null]. *)
Definition scopeOf (message : jsstring) : option matchResult :=
  match exec false typeAndScope message with
  | Some scopeMatch => exec false parenthetical (matched scopeMatch)
  | None => None
  end.

(** [emojiToKeep] *)
Definition emojiOf (message : jsstring) (emoji : bool) : jsstring :=
  if emoji then
    match exec true colonEmoji message with
    | Some emojiMatch =>
        match group 1 (groups emojiMatch) with Some e => e | None => [] end
    | None => []
    end
  else [].

(** [description] *)
Definition descriptionOf (message : jsstring) : jsstring :=
  match exec true descriptionPattern message with
  | Some descriptionMatch =>
      match group 1 (groups descriptionMatch) with
      | Some d => d
      | None => []
      end
  | None => message
  end.

Definition enforceCommitType (message : jsstring) (type : CommitType)
    (emoji : bool) : jsstring :=
  let scope := scopeOf message in
  let emojiToKeep := emojiOf message emoji in
  let description := descriptionOf message in
  let newMessage :=
    commitTypeText type
      ++ (match scope with Some m => matched m | None => [] end)
      ++ lit ": " in
  let newMessage :=
    if emoji && truthy emojiToKeep
    then newMessage ++ emojiToKeep ++ lit " "
    else newMessage in
  newMessage ++ description.

End Rewrite.

(** ** The formatting rules of AIService.generateCommitMessage *)

Module Format.
Import Regex.

Fixpoint dropWhile (p : cls) (s : jsstring) : jsstring :=
  match s with
  | [] => []
  | c :: s' => if p c then dropWhile p s' else s
  end.

(** [String.prototype.trim] *)
Definition trim (s : jsstring) : jsstring :=
  rev (dropWhile isWhiteSpace (rev (dropWhile isWhiteSpace s))).

Definition isDigit (c : N) : bool := range 48 57 c.
Definition digit (c : N) : nat := N.to_nat (c - 48).

Definition capture (m : matchResult) (n : nat) : jsstring :=
  match group n (groups m) with Some v => v | None => [] end.

(** GetSubstitution: the replacement text of [String.prototype.replace]
    for a match [m] of a pattern with [ncaps] groups and no named group;
    [before] is the input up to the match. *)
Fixpoint getSubstitution (m : matchResult) (before : jsstring) (ncaps : nat)
    (template : jsstring) : jsstring :=
  match template with
  | [] => []
  | c :: t1 =>
      if N.eqb c 36 then
        match t1 with
        | [] => [c]
        | d :: t2 =>
            if N.eqb d 36 then 36%N :: getSubstitution m before ncaps t2
            else if N.eqb d 38 then
              matched m ++ getSubstitution m before ncaps t2
            else if N.eqb d 96 then
              before ++ getSubstitution m before ncaps t2
            else if N.eqb d 39 then
              after m ++ getSubstitution m before ncaps t2
            else if isDigit d then
              let single :=
                if (1 <=? digit d) && (digit d <=? ncaps)
                then capture m (digit d) ++ getSubstitution m before ncaps t2
                else c :: d :: getSubstitution m before ncaps t2 in
              match t2 with
              | e :: t3 =>
                  if isDigit e then
                    let index := 10 * digit d + digit e in
                    if ncaps <? index then single
                    else if 1 <=? index
                    then capture m index ++ getSubstitution m before ncaps t3
                    else c :: d :: e :: getSubstitution m before ncaps t3
                  else single
              | [] => single
              end
            else c :: getSubstitution m before ncaps t1
        end
      else c :: getSubstitution m before ncaps t1
  end.

(** [s.replace(pattern, template)] for a pattern without the g flag. *)
Definition replaceRegex (u : bool) (r : regex) (ncaps : nat)
    (s template : jsstring) : jsstring :=
  match exec u r s with
  | Some m =>
      let before := firstn (index m) s in
      before ++ getSubstitution m before ncaps template ++ after m
  | None => s
  end.

(** Line 359, no flag:   ^  ( \w+  : )  *)
Definition typeColon : regex :=
  Seq Bos (Cap 1 (Seq (Plus word) (Cls (chr ":"%char)))).

Definition LF : jsstring := [10%N].
Definition blankLine : jsstring := LF ++ LF.
Definition BREAKING_CHANGE : jsstring := lit "BREAKING CHANGE".

(** Lines 358-360 *)
Definition addScope (scope : option jsstring) (formattedMessage : jsstring)
  : jsstring :=
  match scope with
  | Some sc =>
      if truthy sc
      then replaceRegex false typeColon 1 formattedMessage
             (lit "$1(" ++ sc ++ lit ")")
      else formattedMessage
  | None => formattedMessage
  end.

(** Lines 363-365 *)
Definition addBreakingChange (breaking : bool) (formattedMessage : jsstring)
  : jsstring :=
  if breaking && negb (includes formattedMessage BREAKING_CHANGE)
  then replaceFirst formattedMessage blankLine
         (blankLine ++ lit "BREAKING CHANGE: ")
  else formattedMessage.

Section WithLowerCase.

(** [String.prototype.toLowerCase], the Unicode case mapping of the
    engine. *)
Variable toLowerCase : jsstring -> jsstring.

(** Lines 368-370 *)
Definition addRef (ref : option jsstring) (formattedMessage : jsstring)
  : jsstring :=
  match ref with
  | Some r =>
      if truthy r
         && negb (includes (toLowerCase formattedMessage) (toLowerCase r))
      then formattedMessage ++ blankLine ++ lit "Refs: " ++ r
      else formattedMessage
  | None => formattedMessage
  end.

(** Lines 355-370 *)
Definition formatMessage (scope : option jsstring) (breaking : bool)
    (ref : option jsstring) (message : jsstring) : jsstring :=
  addRef ref (addBreakingChange breaking (addScope scope (trim message))).

End WithLowerCase.

End Format.

(** ** AIService *)

Module Service.
Import Format.

(** [process.env] *)
Record Env : Type := {
  env_GEMINI_API_KEY : option jsstring;
  env_OPENAI_API_KEY : option jsstring
}.

(** baseAIService.ts *)
Record AIModelConfig : Type := {
  apiKey : jsstring;
  isFreeAccount : bool;
  model : jsstring
}.

(** A GeminiService or an OpenAIService; [client] is [null] until
    [initialize] has run. *)
Record BaseAIService : Type := {
  provider : AIProvider;
  client : option AIModelConfig
}.

(** What the provider's SDK does with a request. *)
Inductive reply : Type :=
| Answered (text : jsstring)
| Failed (message : jsstring).

Record request : Type := {
  req_provider : AIProvider;
  req_model : jsstring;
  req_prompt : jsstring
}.

(** What the user answers to the questions of the interactive setup; the
    questions about [defaults] are left out with that field. *)
Record SetupAnswers : Type := {
  answer_provider : AIProvider;
  answer_model : jsstring;
  answer_API_KEY : jsstring;
  answer_IS_FREE_ACCOUNT : bool
}.

(** The AIService object ([service]) and the world around it: the clock,
    the environment, the configuration file ([None] when it is missing or
    unreadable), what the user would answer to the interactive setup, the
    providers, the requests sent so far, and the error a write of the
    configuration file meets, if any. *)
Record State : Type := {
  service : option BaseAIService;
  clock : Clock;
  env : Env;
  configFile : option Config;
  setupAnswers : SetupAnswers;
  complete : request -> reply;
  requests : list request;
  writeError : option jsstring
}.

Definition with_service (v : option BaseAIService) (st : State) : State :=
  {| service := v; clock := clock st; env := env st;
     configFile := configFile st; setupAnswers := setupAnswers st;
     complete := complete st; requests := requests st;
     writeError := writeError st |}.

Definition with_clock (v : Clock) (st : State) : State :=
  {| service := service st; clock := v; env := env st;
     configFile := configFile st; setupAnswers := setupAnswers st;
     complete := complete st; requests := requests st;
     writeError := writeError st |}.

Definition with_configFile (v : option Config) (st : State) : State :=
  {| service := service st; clock := clock st; env := env st;
     configFile := v; setupAnswers := setupAnswers st;
     complete := complete st; requests := requests st;
     writeError := writeError st |}.

Definition with_requests (v : list request) (st : State) : State :=
  {| service := service st; clock := clock st; env := env st;
     configFile := configFile st; setupAnswers := setupAnswers st;
     complete := complete st; requests := v;
     writeError := writeError st |}.

(** *** Computations that may throw *)

Inductive result (A : Type) : Type :=
| Return (value : A)
| Throw (message : jsstring).

Arguments Return {A} value.
Arguments Throw {A} message.

Definition M (A : Type) : Type := State -> result A * State.

Definition ret {A} (a : A) : M A := fun st => (Return a, st).

Definition throw {A} (message : jsstring) : M A :=
  fun st => (Throw message, st).

Definition bind {A B} (c : M A) (k : A -> M B) : M B :=
  fun st =>
    match c st with
    | (Return a, st') => k a st'
    | (Throw message, st') => (Throw message, st')
    end.

(** [try { c } catch (error) { handler(error.message) }]: what [c] did to
    the state before it threw stays done. *)
Definition tryCatch {A} (c : M A) (handler : jsstring -> M A) : M A :=
  fun st =>
    match c st with
    | (Return a, st') => (Return a, st')
    | (Throw message, st') => handler message st'
    end.

Definition gets {A} (f : State -> A) : M A := fun st => (Return (f st), st).

Definition modify (f : State -> State) : M unit :=
  fun st => (Return tt, f st).

Definition when (b : bool) (c : M unit) : M unit :=
  if b then c else ret tt.

Notation "x <- c ;; k" := (bind c (fun x => k))
  (at level 61, c at next level, right associativity).
Notation "c ;;; k" := (bind c (fun _ => k))
  (at level 61, right associativity).

(** *** configCommand.ts *)

Definition truthyKey (key : option jsstring) : bool :=
  match key with Some k => truthy k | None => false end.

(** Waiting for the user, as for any other suspension. *)
Definition prompt : M unit :=
  modify (fun st => with_clock (suspend 0 (clock st)) st).

(** [setupInitialConfig]: three rounds of questions, then the new
    configuration, which has no last-request time, is written and
    returned. *)
Definition setupInitialConfig : M Config :=
  prompt ;;; prompt ;;; prompt ;;;
  answers <- gets setupAnswers ;;
  let config :=
    {| AI_PROVIDER := answer_provider answers;
       GEMINI_API_KEY :=
         match answer_provider answers with
         | gemini => Some (answer_API_KEY answers)
         | openai => None
         end;
       OPENAI_API_KEY :=
         match answer_provider answers with
         | gemini => None
         | openai => Some (answer_API_KEY answers)
         end;
       IS_FREE_ACCOUNT := answer_IS_FREE_ACCOUNT answers;
       LAST_REQUEST_TIME := None;
       MODEL := Some (answer_model answers) |} in
  failure <- gets writeError ;;
  match failure with
  | Some message => throw message
  | None => modify (with_configFile (Some config)) ;;; ret config
  end.

(** [ensureConfig]: the configuration file when it is there and names a
    key, the interactive setup otherwise.  A file without [AI_PROVIDER]
    counts as unreadable here, the field being mandatory in [Config]. *)
Definition ensureConfig : M Config :=
  file <- gets configFile ;;
  match file with
  | None => setupInitialConfig
  | Some config =>
      if negb (truthyKey (GEMINI_API_KEY config))
         && negb (truthyKey (OPENAI_API_KEY config))
      then setupInitialConfig
      else ret config
  end.

(** utils/error.ts, for an [Error] *)
Definition formatError (message error : jsstring) : jsstring :=
  message ++ lit ": " ++ error.

Definition saveConfig (config : Config) : M unit :=
  failure <- gets writeError ;;
  match failure with
  | Some message =>
      throw (formatError (lit "Failed to write config file") message)
  | None => modify (with_configFile (Some config))
  end.

(** *** The provider services *)

Definition orDefault (s : option jsstring) (default : jsstring) : jsstring :=
  match s with
  | Some v => if truthy v then v else default
  | None => default
  end.

(** [a || b] on optional strings *)
Definition orKey (a b : option jsstring) : option jsstring :=
  if truthyKey a then a else b.

Definition providerName (p : AIProvider) : jsstring :=
  match p with gemini => lit "gemini" | openai => lit "openai" end.

Definition dateNow : M Z := gets (fun st => now (clock st)).

(** Sending a request: it is recorded, and time passes until the reply. *)
Definition send (r : request) : M reply :=
  modify (fun st => with_requests (requests st ++ [r]) st) ;;;
  modify (fun st => with_clock (suspend 0 (clock st)) st) ;;;
  gets (fun st => complete st r).

(** [generateContent] of GeminiService and of OpenAIService *)
Definition generateContent (svc : BaseAIService) (prompt : jsstring)
  : M jsstring :=
  match provider svc, client svc with
  | gemini, None => throw (lit "Gemini model not initialized")
  | gemini, Some config =>
      answer <- send {| req_provider := gemini;
                        req_model := orDefault (Some (model config))
                                       (lit "gemini-2.0-flash");
                        req_prompt := prompt |} ;;
      match answer with
      | Answered text => ret text
      | Failed message => throw (lit "Gemini API error: " ++ message)
      end
  | openai, None => throw (lit "OpenAI client not initialized")
  | openai, Some config =>
      answer <- send {| req_provider := openai;
                        req_model := orDefault (Some (model config))
                                       (lit "gpt-4o-min");
                        req_prompt := prompt |} ;;
      match answer with
      | Answered text =>
          if truthy text then ret text
          else throw (lit "OpenAI API error: " ++ lit "No response from OpenAI")
      | Failed message => throw (lit "OpenAI API error: " ++ message)
      end
  end.

(** *** AIService *)

Record GenerateMessageOptions : Type := {
  diff : jsstring;
  multiline : bool;
  useType : bool;
  emoji : bool;
  scope : option jsstring;
  breaking : bool;
  ref : option jsstring;
  customPrompt : option jsstring;
  opt_model : option jsstring
}.

Definition noKeyMessage (p : AIProvider) : jsstring :=
  lit "No API key found for " ++ providerName p
    ++ lit ". Please set it in the config or as an environment variable.".

(** Lines 281 and 282 *)
Definition envKey (config : Config) (e : Env) : option jsstring :=
  match AI_PROVIDER config with
  | gemini => env_GEMINI_API_KEY e
  | openai => env_OPENAI_API_KEY e
  end.

Definition configKey (config : Config) : option jsstring :=
  match AI_PROVIDER config with
  | gemini => GEMINI_API_KEY config
  | openai => OPENAI_API_KEY config
  end.

Definition initializeService : M unit :=
  config <- ensureConfig ;;
  modify (with_service
            (Some {| provider := AI_PROVIDER config; client := None |})) ;;;
  e <- gets env ;;
  match orKey (configKey config) (envKey config e) with
  | Some key =>
      if truthy key then
        let model :=
          orDefault (MODEL config)
            (match AI_PROVIDER config with
             | gemini => lit "gemini-2.0-flash"
             | openai => lit "gpt-4.1-nano"
             end) in
        modify (with_service
                  (Some {| provider := AI_PROVIDER config;
                           client :=
                             Some {| apiKey := key;
                                     isFreeAccount := IS_FREE_ACCOUNT config;
                                     model := model |} |}))
      else throw (noKeyMessage (AI_PROVIDER config))
  | None => throw (noKeyMessage (AI_PROVIDER config))
  end.

Definition quote : jsstring := [34%N].

Definition orEmpty (s : option jsstring) : jsstring :=
  match s with Some v => v | None => [] end.

Definition buildPrompt (options : GenerateMessageOptions) : jsstring :=
  if truthyKey (customPrompt options) then
    orEmpty (customPrompt options)
      ++ LF ++ LF ++ lit "Git diff:" ++ LF ++ diff options
  else
    let prompt :=
      lit "Generate a concise git commit message for the following changes. Output only the commit message, with no extra text or formatting." in
    let prompt :=
      if useType options then
        prompt ++ LF ++
        lit "Use conventional commit format with an appropriate commit type (feat, fix, docs, style, refactor, perf, test, build, ci, chore, revert)."
      else prompt in
    let prompt :=
      if truthyKey (scope options) then
        prompt ++ LF ++ lit "Include the scope: ("
          ++ orEmpty (scope options) ++ lit ")"
      else prompt in
    let prompt :=
      if breaking options then
        prompt ++ LF ++ lit "This is a BREAKING CHANGE. Include a "
          ++ quote ++ lit "BREAKING CHANGE:" ++ quote
          ++ lit " footer with details."
      else prompt in
    let prompt :=
      if truthyKey (ref options) then
        prompt ++ LF ++ lit " Include a reference to "
          ++ orEmpty (ref options) ++ lit " in the footer."
      else prompt in
    let prompt :=
      if emoji options then
        prompt ++ LF ++ lit "Include a relevant emoji at the start."
      else prompt in
    let prompt :=
      if multiline options then
        prompt ++ LF
          ++ lit "Provide a detailed description in the commit body."
      else prompt in
    prompt ++ LF ++ LF ++ lit "Git diff:" ++ LF ++ diff options.

Definition rateLimitMessage : jsstring :=
  lit "Rate limit exceeded. Please wait 1 minute between requests on free accounts.".

Definition failurePrefix : jsstring :=
  lit "Failed to generate commit message: ".

Section WithLowerCase.

Variable toLowerCase : jsstring -> jsstring.

(** The body of the [try] block.  The timer and the console only report;
    they are left out. *)
Definition generateCommitMessage_try (options : GenerateMessageOptions)
  : M jsstring :=
  current <- gets service ;;
  match current with
  | None => initializeService
  | Some _ => ret tt
  end ;;;
  config <- ensureConfig ;;
  when (IS_FREE_ACCOUNT config)
    (now_ <- dateNow ;;
     let lastRequest := orZero (LAST_REQUEST_TIME config) in
     if (now_ - lastRequest <? 60000)%Z
     then throw rateLimitMessage
     else ret tt) ;;;
  let prompt := buildPrompt options in
  current <- gets service ;;
  match current with
  | None => throw (lit "AI service not initialized")
  | Some svc =>
      message <- generateContent svc prompt ;;
      let formattedMessage :=
        formatMessage toLowerCase (scope options) (breaking options)
          (ref options) message in
      when (IS_FREE_ACCOUNT config)
        (now_ <- dateNow ;;
         saveConfig (set_LAST_REQUEST_TIME now_ config)) ;;;
      ret formattedMessage
  end.

Definition generateCommitMessage (options : GenerateMessageOptions)
  : M jsstring :=
  tryCatch (generateCommitMessage_try options)
    (fun message => throw (failurePrefix ++ message)).

End WithLowerCase.

End Service.

(** ** configCommand.ts: setApiKey and setModel *)

Module ConfigCmd.
Import Service.

(** types/index.ts *)
Definition OPENAI_MODELS : list jsstring :=
  [lit "gpt-4"; lit "gpt-4-turbo-preview"; lit "gpt-3.5-turbo";
   lit "gpt-3.5-turbo-16k"].

Definition GEMINI_MODELS : list jsstring :=
  [lit "gemini-2.0-flash"; lit "gemini-2.0-flash-vision"].

(** [a === b] on strings *)
Definition sameString (a b : jsstring) : bool :=
  if list_eq_dec N.eq_dec a b then true else false.

(** [readConfig]: [null] when the file is missing or unreadable. *)
Definition readConfig : M (option Config) := gets configFile.

Definition getDefaultConfig : Config :=
  {| AI_PROVIDER := gemini; GEMINI_API_KEY := None; OPENAI_API_KEY := None;
     IS_FREE_ACCOUNT := true; LAST_REQUEST_TIME := None;
     MODEL := Some (lit "gemini-2.0-flash") |}.

(** [this.readConfig() || this.getDefaultConfig()] *)
Definition currentConfig : M Config :=
  file <- readConfig ;;
  ret (match file with Some config => config | None => getDefaultConfig end).

Definition setApiKey (key : jsstring) (provider : option AIProvider)
  : M unit :=
  config <- currentConfig ;;
  let config :=
    match provider with
    | Some gemini =>
        {| AI_PROVIDER := gemini; GEMINI_API_KEY := Some key;
           OPENAI_API_KEY := None;
           IS_FREE_ACCOUNT := IS_FREE_ACCOUNT config;
           LAST_REQUEST_TIME := LAST_REQUEST_TIME config;
           MODEL := MODEL config |}
    | Some openai =>
        {| AI_PROVIDER := openai; GEMINI_API_KEY := None;
           OPENAI_API_KEY := Some key;
           IS_FREE_ACCOUNT := IS_FREE_ACCOUNT config;
           LAST_REQUEST_TIME := LAST_REQUEST_TIME config;
           MODEL := MODEL config |}
    | None =>
        match AI_PROVIDER config with
        | gemini =>
            {| AI_PROVIDER := AI_PROVIDER config;
               GEMINI_API_KEY := Some key;
               OPENAI_API_KEY := OPENAI_API_KEY config;
               IS_FREE_ACCOUNT := IS_FREE_ACCOUNT config;
               LAST_REQUEST_TIME := LAST_REQUEST_TIME config;
               MODEL := MODEL config |}
        | openai =>
            {| AI_PROVIDER := AI_PROVIDER config;
               GEMINI_API_KEY := GEMINI_API_KEY config;
               OPENAI_API_KEY := Some key;
               IS_FREE_ACCOUNT := IS_FREE_ACCOUNT config;
               LAST_REQUEST_TIME := LAST_REQUEST_TIME config;
               MODEL := MODEL config |}
        end
    end in
  saveConfig config.

Definition validModels (config : Config) : list jsstring :=
  match AI_PROVIDER config with
  | gemini => GEMINI_MODELS
  | openai => OPENAI_MODELS
  end.

Definition invalidModelMessage (config : Config) : jsstring :=
  lit "Invalid model for " ++ providerName (AI_PROVIDER config)
    ++ lit ". Available models: " ++ join (lit ", ") (validModels config).

Definition setModel (model : jsstring) : M unit :=
  config <- currentConfig ;;
  let isValidModel :=
    existsb (fun validModel => sameString validModel model)
      (validModels config) in
  if negb isValidModel then throw (invalidModelMessage config)
  else
    saveConfig
      {| AI_PROVIDER := AI_PROVIDER config;
         GEMINI_API_KEY := GEMINI_API_KEY config;
         OPENAI_API_KEY := OPENAI_API_KEY config;
         IS_FREE_ACCOUNT := IS_FREE_ACCOUNT config;
         LAST_REQUEST_TIME := LAST_REQUEST_TIME config;
         MODEL := Some model |}.

End ConfigCmd.

(** ** aiService.ts: processDiff *)

Module Compress.
Import Regex Chunker Format.

(** Line 231, no flag, token by token:   a  \/  ( .+ )  space  b  \/   *)
Definition filePattern : regex :=
  Seq (Cls (chr "a"%char))
    (Seq (Cls (chr "/"%char))
       (Seq (Cap 1 (Plus dot))
          (Seq (Cls (chr " "%char))
             (Seq (Cls (chr "b"%char)) (Cls (chr "/"%char)))))).

(** A count in a template literal: its decimal digits. *)
Fixpoint digits (u : Decimal.uint) : jsstring :=
  match u with
  | Decimal.Nil => []
  | Decimal.D0 u => 48%N :: digits u
  | Decimal.D1 u => 49%N :: digits u
  | Decimal.D2 u => 50%N :: digits u
  | Decimal.D3 u => 51%N :: digits u
  | Decimal.D4 u => 52%N :: digits u
  | Decimal.D5 u => 53%N :: digits u
  | Decimal.D6 u => 54%N :: digits u
  | Decimal.D7 u => 55%N :: digits u
  | Decimal.D8 u => 56%N :: digits u
  | Decimal.D9 u => 57%N :: digits u
  end.

Definition numberToString (n : nat) : jsstring := digits (Nat.to_uint n).

Definition fileNameOf (fileHeader : jsstring) : jsstring :=
  match exec false filePattern fileHeader with
  | Some fileMatch => capture fileMatch 1
  | None => lit "unknown file"
  end.

(** [lines[0]] and [lines.slice(1)] of [section.split('\n')] *)
Definition fileHeaderOf (section : jsstring) : jsstring :=
  hd [] (split section newline).

Definition changesOf (section : jsstring) : list jsstring :=
  tl (split section newline).

Definition isChange (line : jsstring) : bool :=
  startsWith (lit "+") line || startsWith (lit "-") line.

(** Lines 238 to 240 *)
Definition summaryOf (section : jsstring) : jsstring :=
  let fileHeader := fileHeaderOf section in
  let changes := changesOf section in
  let additions := length (filter (startsWith (lit "+")) changes) in
  let deletions := length (filter (startsWith (lit "-")) changes) in
  newline ++ lit "diff --git " ++ fileHeader ++ newline
    ++ lit "--- Summary of changes in " ++ fileNameOf fileHeader
    ++ lit " ---" ++ newline
    ++ lit "+++ " ++ numberToString additions ++ lit " additions, "
    ++ numberToString deletions ++ lit " deletions" ++ newline.

(** Lines 242 to 245 *)
Definition representativeChangesOf (section : jsstring) : jsstring :=
  join newline (firstn 5 (filter isChange (changesOf section))).

Definition truncatedMark : jsstring :=
  newline ++ lit "...(truncated)" ++ newline.

Definition remainingMark : jsstring :=
  newline ++ lit "...(remaining diffs summarized)".

(** The [for] loop of [processDiff] *)
Fixpoint processLoop (maxLength : Z) (fileSections : list jsstring)
    (processedDiff : jsstring) (currentLength : Z) : jsstring :=
  match fileSections with
  | [] => processedDiff
  | section :: rest =>
      if negb (truthy (trim section))
      then processLoop maxLength rest processedDiff currentLength
      else
        let summary := summaryOf section in
        let representativeChanges := representativeChangesOf section in
        let '(processedDiff, currentLength) :=
          if (currentLength + len section >? maxLength)%Z
          then
            (processedDiff ++ summary ++ representativeChanges
               ++ truncatedMark,
             (currentLength + len summary + len representativeChanges
              + 15)%Z)
          else
            (processedDiff ++ newline ++ delimiter ++ section,
             (currentLength + len section + 10)%Z) in
        if (currentLength >=? maxLength)%Z
        then processedDiff ++ remainingMark
        else processLoop maxLength rest processedDiff currentLength
  end.

(** [maxLength] is [MAX_DIFF_LENGTH] when the caller gives none. *)
Definition processDiff (diff : jsstring) (maxLength : Z) : jsstring :=
  if (len diff <=? maxLength)%Z then diff
  else processLoop maxLength (split diff delimiter) [] 0.

End Compress.


(** * Properties *)

Module ChunkerFacts.
Import Chunker.

(** *** Which sections went into which chunk *)

Lemma join_snoc (sep : jsstring) (g : list jsstring) (x : jsstring) :
  g <> [] -> join sep (g ++ [x]) = join sep g ++ sep ++ x.
Proof.
  induction g as [|a g IH]; intros Hg; [congruence|].
  destruct g as [|b g].
  - reflexivity.
  - specialize (IH ltac:(discriminate)).
    change (join sep ((a :: b :: g) ++ [x]))
      with (a ++ sep ++ join sep ((b :: g) ++ [x])).
    rewrite IH.
    change (join sep (a :: b :: g)) with (a ++ sep ++ join sep (b :: g)).
    now rewrite <- !app_assoc.
Qed.

Lemma len_app (a b : jsstring) : len (a ++ b) = (len a + len b)%Z.
Proof. unfold len. rewrite length_app. lia. Qed.

Lemma truthy_false (s : jsstring) : truthy s = false <-> s = [].
Proof. destruct s; simpl; split; congruence. Qed.

Lemma truthy_true (s : jsstring) : truthy s = true <-> s <> [].
Proof. destruct s; simpl; split; congruence. Qed.

(** A sealed chunk holds at least one section; with two or more it stays
    within one code unit of the maximum (the separator is not counted by
    the loop's test). *)
Definition sealed (g : list jsstring) : Prop :=
  g <> [] /\
  (length g = 1 \/ (len (join newline g) <= MAX_DIFF_LENGTH + 1)%Z).

Definition filling (g : list jsstring) : Prop :=
  length g <= 1 \/ (len (join newline g) <= MAX_DIFF_LENGTH + 1)%Z.

Lemma packLoop_groups (sections : list jsstring) :
  forall (G : list (list jsstring)) (g : list jsstring),
    Forall sealed G -> filling g -> (g = [] <-> join newline g = []) ->
    exists G' g',
      packLoop sections (map (join newline) G) (join newline g)
        = (map (join newline) G', join newline g') /\
      concat G' ++ g'
        = concat G ++ g ++ map (fun s => delimiter ++ s) sections /\
      Forall sealed G' /\ filling g' /\
      (g' = [] <-> join newline g' = []).
Proof.
  induction sections as [|section rest IH]; intros G g HG Hg Hnil.
  - exists G, g. simpl. rewrite app_nil_r. auto.
  - cbn [packLoop map].
    set (full := delimiter ++ section).
    assert (Hfull : full <> []) by (unfold full; discriminate).
    destruct (Z.gtb_spec (len (join newline g) + len full) MAX_DIFF_LENGTH)
      as [Hgt|Hle].
    + destruct (truthy (join newline g)) eqn:Ht.
      * apply truthy_true in Ht.
        assert (Hg' : g <> []) by (intros E; apply Ht, Hnil, E).
        destruct (IH (G ++ [g]) [full]) as (G' & g' & E & C & S1 & S2 & S3).
        -- apply Forall_app; split; [assumption|].
           constructor; [|constructor]. split; [assumption|].
           destruct Hg as [Hg|Hg]; [left|right; assumption].
           destruct g as [|? [|? ?]]; simpl in *; try congruence; lia.
        -- left; simpl; lia.
        -- simpl; split; intros; congruence.
        -- exists G', g'. rewrite map_app in E. cbn [map join] in E.
           rewrite E. split; [reflexivity|]. split; [|auto].
           rewrite C, concat_app. cbn [concat]. rewrite app_nil_r.
           now rewrite <- !app_assoc.
      * apply truthy_false in Ht. apply Hnil in Ht. subst g.
        destruct (IH G [full]) as (G' & g' & E & C & S1 & S2 & S3).
        -- assumption.
        -- left; simpl; lia.
        -- simpl; split; intros; congruence.
        -- exists G', g'. cbn [join] in E |- *. rewrite E.
           split; [reflexivity|]. split; [|auto]. now rewrite C.
    + destruct (IH G (g ++ [full])) as (G' & g' & E & C & S1 & S2 & S3).
      * assumption.
      * destruct g as [|a g]; [left; simpl; lia|right].
        rewrite join_snoc by discriminate.
        rewrite !len_app in *. change (len newline) with 1%Z. lia.
      * split; intros E.
        -- destruct g; discriminate.
        -- destruct g as [|a g]; [simpl in E; congruence|].
           rewrite join_snoc in E by discriminate.
           apply app_eq_nil in E. destruct E as [_ E].
           apply app_eq_nil in E. destruct E; congruence.
      * exists G', g'. split; [|split; [|auto]].
        -- rewrite <- E. f_equal.
           destruct (truthy (join newline g)) eqn:Ht.
           ++ apply truthy_true in Ht.
              rewrite join_snoc; [reflexivity|].
              intros E'; apply Ht, Hnil, E'.
           ++ apply truthy_false in Ht. rewrite Ht.
              apply Hnil in Ht. subst g. reflexivity.
        -- rewrite C. now rewrite <- !app_assoc.
Qed.

Lemma splitDiffIntoChunks_groups (diff : jsstring) :
  exists groups : list (list jsstring),
    splitDiffIntoChunks diff = map (join newline) groups /\
    concat groups = fileSections diff /\
    Forall sealed groups.
Proof.
  unfold splitDiffIntoChunks, fileSections.
  destruct (packLoop_groups (rawSections diff) [] [])
    as (G & g & E & C & S1 & S2 & S3).
  - constructor.
  - left; simpl; lia.
  - simpl; tauto.
  - simpl in E, C. rewrite E.
    destruct (truthy (join newline g)) eqn:Ht.
    + apply truthy_true in Ht.
      assert (Hg : g <> []) by (intros E'; apply Ht, S3, E').
      exists (G ++ [g]). rewrite map_app. split; [reflexivity|].
      split.
      * rewrite concat_app. simpl. now rewrite app_nil_r.
      * apply Forall_app; split; [assumption|].
        constructor; [|constructor]. split; [assumption|].
        destruct S2 as [S2|S2]; [left|right; assumption].
        destruct g as [|? [|? ?]]; simpl in *; try congruence; lia.
    + apply truthy_false in Ht. apply S3 in Ht. subst g.
      exists G. rewrite app_nil_r in C. auto.
Qed.

(** Two short sections share a chunk, a newline between them. *)
Example splitDiffIntoChunks_small :
  fileSections (lit "diff --git a/x b/x" ++ newline
                  ++ lit "diff --git a/y b/y" ++ newline)
    = [lit "diff --git a/x b/x" ++ newline;
       lit "diff --git a/y b/y" ++ newline] /\
  splitDiffIntoChunks (lit "diff --git a/x b/x" ++ newline
                         ++ lit "diff --git a/y b/y" ++ newline)
    = [lit "diff --git a/x b/x" ++ newline ++ newline
         ++ lit "diff --git a/y b/y" ++ newline].
Proof. split; reflexivity. Qed.

(** X1.  Every chunk is a lone file section or stays within one code unit of
    the maximum. *)
Lemma chunk_bound (diff : jsstring) :
  Forall (fun chunk =>
            In chunk (fileSections diff)
            \/ (len chunk <= MAX_DIFF_LENGTH + 1)%Z)
         (splitDiffIntoChunks diff).
Proof.
  destruct (splitDiffIntoChunks_groups diff) as (groups & E & C & S).
  rewrite E, <- C. clear E C.
  induction S as [|g groups [Hg Hs] _ IH]; [constructor|].
  cbn [map concat]. constructor.
  - destruct Hs as [Hs|Hs]; [left|right; assumption].
    destruct g as [|x [|y g]]; simpl in Hs; try congruence; try lia.
    simpl. now left.
  - eapply Forall_impl; [|exact IH].
    intros chunk [Hin|Hlen]; [left|right; assumption].
    apply in_or_app. now right.
Qed.

(** Two file sections of 7000 and 8000 code units. *)
Definition twoSections : jsstring :=
  delimiter ++ repeat 97%N (N.to_nat 6990)
    ++ delimiter ++ repeat 98%N (N.to_nat 7990).

(** C2, at a failing input.  The two sections of [twoSections] pass the
    loop's test (7000 + 8000 is not above 15000), and the newline put
    between them makes one chunk of 15001 code units. *)
Theorem splitDiffIntoChunks_exceeds_maximum :
  map len (fileSections twoSections) = [7000; 8000]%Z /\
  map len (splitDiffIntoChunks twoSections) = [15001]%Z.
Proof. split; vm_compute; reflexivity. Qed.

End ChunkerFacts.

Module RateFacts.
Import Rate.

Section Batch.

Variable T : Type.
Variable processor : T -> outcome.

(** The loop appends, window after window, the guarded result of every
    item from index [i] on. *)
Lemma batchLoop_results (K : nat) (HK : 0 < K) (items : list T) (i : nat)
    (results : list jsstring) (config : Config) (clock : Clock) :
  fst (fst (batchLoop processor K HK items i results config clock))
  = results ++ map (guarded processor) (skipn i items).
Proof.
  funelim (batchLoop processor K HK items i results config clock).
  - rewrite H. unfold slice.
    replace (i + MAX_CONCURRENT_REQUESTS - i) with MAX_CONCURRENT_REQUESTS
      by lia.
    rewrite <- app_assoc, <- map_app. f_equal. f_equal.
    rewrite Nat.add_comm, <- skipn_skipn.
    apply firstn_skipn.
  - rewrite skipn_all2 by lia. cbn. now rewrite app_nil_r.
Qed.

Lemma batchProcess_results (items : list T) (config : Config)
    (clock : Clock) :
  fst (fst (batchProcess processor items config clock))
  = filter truthy (map (guarded processor) items).
Proof.
  unfold batchProcess.
  pose proof (batchLoop_results (concurrency config)
                (concurrency_positive config) items 0 [] config clock) as H.
  destruct (batchLoop processor (concurrency config)
              (concurrency_positive config) items 0 [] config clock)
    as [[results config'] clock'].
  cbn in H |- *. now rewrite H.
Qed.

(** The items on which the processor throws. *)
Definition rejects (item : T) : bool :=
  match processor item with
  | Resolved _ => false
  | Rejected _ => true
  end.

(** The results of the succeeding items, in the order of the items. *)
Definition resolvedValues (items : list T) : list jsstring :=
  flat_map (fun item =>
              match processor item with
              | Resolved value => [value]
              | Rejected _ => []
              end) items.

Lemma filter_guarded (items : list T) :
  (forall item value,
      In item items -> processor item = Resolved value -> value <> []) ->
  filter truthy (map (guarded processor) items) = resolvedValues items.
Proof.
  induction items as [|item items IH]; intros Hne; [reflexivity|].
  assert (IH' : filter truthy (map (guarded processor) items)
                = resolvedValues items).
  { apply IH. intros ? ? ?. apply Hne. now right. }
  cbn [map filter resolvedValues flat_map].
  fold (resolvedValues items).
  replace (guarded processor item)
    with (match processor item with
          | Resolved value => value
          | Rejected _ => []
          end) by reflexivity.
  destruct (processor item) as [value|error] eqn:E.
  - destruct value as [|c value].
    + exfalso. apply (Hne item []); [now left|assumption|reflexivity].
    + cbn [truthy app]. now rewrite IH'.
  - cbn [truthy app]. exact IH'.
Qed.

Lemma length_resolvedValues (items : list T) :
  length (resolvedValues items)
  = length items - length (filter rejects items).
Proof.
  assert (H : length (resolvedValues items)
              + length (filter rejects items) = length items).
  { induction items as [|item items IH]; [reflexivity|].
    cbn [resolvedValues flat_map filter]. unfold rejects at 1.
    rewrite length_app.
    destruct (processor item); cbn [length];
      fold (resolvedValues items); lia. }
  lia.
Qed.

End Batch.

Arguments rejects {T} processor item.
Arguments resolvedValues {T} processor items.

(** C3.  When the processor throws on some items and returns a non-empty
    string on every other item, [batchProcess] returns the results of the
    succeeding items in the order of the items, one for each of them: the
    length is the number of items minus the number of failing ones.  This
    holds for both window sizes, 2 on a free account and 5 otherwise. *)
Theorem batchProcess_keeps_successes (T : Type) (processor : T -> outcome)
    (items : list T) (config : Config) (clock : Clock) :
  (forall item value,
      In item items -> processor item = Resolved value -> value <> []) ->
  fst (fst (batchProcess processor items config clock))
    = resolvedValues processor items /\
  length (fst (fst (batchProcess processor items config clock)))
    = length items - length (filter (rejects processor) items).
Proof.
  intros Hne. rewrite batchProcess_results, filter_guarded by assumption.
  split; [reflexivity|apply length_resolvedValues].
Qed.

(** Six items on a free account (windows of two); the processor throws
    on the item 2 and on the item 5. *)
Definition sampleProcessor (item : nat) : outcome :=
  if (item =? 2) || (item =? 5)
  then Rejected (lit "boom")
  else Resolved (lit "summary " ++ [N.of_nat (48 + item)]).

Definition freeConfig (last : option Z) : Config :=
  {| AI_PROVIDER := gemini; GEMINI_API_KEY := Some (lit "key");
     OPENAI_API_KEY := None; IS_FREE_ACCOUNT := true;
     LAST_REQUEST_TIME := last; MODEL := None |}.

Lemma batchProcess_keeps_successes_witness :
  fst (fst (batchProcess sampleProcessor [1; 2; 3; 4; 5; 6]
              (freeConfig None) {| now := 1000000; lateness := [] |}))
    = resolvedValues sampleProcessor [1; 2; 3; 4; 5; 6] /\
  length (fst (fst (batchProcess sampleProcessor [1; 2; 3; 4; 5; 6]
                      (freeConfig None)
                      {| now := 1000000; lateness := [] |})))
    = length [1; 2; 3; 4; 5; 6]
      - length (filter (rejects sampleProcessor) [1; 2; 3; 4; 5; 6]).
Proof.
  apply (batchProcess_keeps_successes nat sampleProcessor).
  intros item value _. unfold sampleProcessor.
  destruct ((item =? 2) || (item =? 5)); [discriminate|].
  intros E.
  apply (f_equal (fun o => match o with
                           | Resolved v => v
                           | Rejected _ => []
                           end)) in E.
  cbn beta iota in E. subst value. discriminate.
Defined.

Example batchProcess_sample :
  fst (fst (batchProcess sampleProcessor [1; 2; 3; 4; 5; 6]
              (freeConfig None) {| now := 1000000; lateness := [] |}))
  = [lit "summary 1"; lit "summary 3"; lit "summary 4"; lit "summary 6"].
Proof. vm_compute. reflexivity. Qed.

(** *** The rate limiter *)

(** Without a wait the stored timestamp is the time of return. *)
Lemma rateLimiter_no_wait (config : Config) (clock : Clock) :
  IS_FREE_ACCOUNT config = true ->
  (FREE_ACCOUNT_COOLDOWN <= now clock - orZero (LAST_REQUEST_TIME config))%Z ->
  LAST_REQUEST_TIME (fst (rateLimiter config clock))
    = Some (now (snd (rateLimiter config clock))).
Proof.
  intros Hfree Hold. unfold rateLimiter. rewrite Hfree.
  destruct (Z.ltb_spec (now clock - orZero (LAST_REQUEST_TIME config))
              FREE_ACCOUNT_COOLDOWN); [lia|reflexivity].
Qed.

(** After a wait that the timer takes as it is, the stored timestamp is
    the time of entry, which lies before the time of return by the whole
    wait at least. *)
Lemma rateLimiter_after_wait (config : Config) (clock : Clock) :
  IS_FREE_ACCOUNT config = true ->
  (now clock - orZero (LAST_REQUEST_TIME config) < FREE_ACCOUNT_COOLDOWN)%Z ->
  (FREE_ACCOUNT_COOLDOWN - (now clock - orZero (LAST_REQUEST_TIME config))
     <= TIMEOUT_MAX)%Z ->
  LAST_REQUEST_TIME (fst (rateLimiter config clock)) = Some (now clock) /\
  (orZero (LAST_REQUEST_TIME config) + FREE_ACCOUNT_COOLDOWN
     <= now (snd (rateLimiter config clock)))%Z /\
  (now clock < now (snd (rateLimiter config clock)))%Z.
Proof.
  intros Hfree Hrecent Hfits. unfold rateLimiter. rewrite Hfree.
  destruct (Z.ltb_spec (now clock - orZero (LAST_REQUEST_TIME config))
              FREE_ACCOUNT_COOLDOWN); [|lia].
  unfold setTimeout.
  destruct (Z.ltb_spec TIMEOUT_MAX
              (FREE_ACCOUNT_COOLDOWN
               - (now clock - orZero (LAST_REQUEST_TIME config)))); [lia|].
  destruct (Z.ltb_spec
              (FREE_ACCOUNT_COOLDOWN
               - (now clock - orZero (LAST_REQUEST_TIME config))) 1); [lia|].
  cbn [orb fst snd LAST_REQUEST_TIME set_LAST_REQUEST_TIME suspend now].
  split; [reflexivity|]. lia.
Qed.

(** C4, at a failing input.  On a free account whose last request was at
    1000, a call entered at 2000 waits 59000 ms; whatever the timer's
    lateness, it returns at 61000 or later and stores 2000. *)
Theorem rateLimiter_stores_entry_time (late : list N) :
  LAST_REQUEST_TIME
    (fst (rateLimiter (freeConfig (Some 1000%Z))
            {| now := 2000; lateness := late |})) = Some 2000%Z /\
  (61000 <= now (snd (rateLimiter (freeConfig (Some 1000%Z))
                        {| now := 2000; lateness := late |})))%Z.
Proof.
  destruct (rateLimiter_after_wait (freeConfig (Some 1000%Z))
              {| now := 2000; lateness := late |})
    as (Hstored & Hreturn & _).
  - reflexivity.
  - reflexivity.
  - vm_compute. discriminate.
  - split; [exact Hstored|exact Hreturn].
Qed.

End RateFacts.

Module FormatFacts.
Import Format.

(** *** Substrings *)

Lemma startsWith_split (p s : jsstring) :
  startsWith p s = true -> s = p ++ skipn (length p) s.
Proof.
  revert s. induction p as [|a p IH]; intros s H; [reflexivity|].
  destruct s as [|b s]; [discriminate|].
  cbn in H. apply andb_prop in H. destruct H as [Hab Hp].
  apply N.eqb_eq in Hab. subst b. cbn. f_equal. now apply IH.
Qed.

Lemma startsWith_app (p post : jsstring) : startsWith p (p ++ post) = true.
Proof.
  induction p as [|a p IH]; [reflexivity|].
  cbn. now rewrite N.eqb_refl, IH.
Qed.

Lemma startsWith_extend (p s post : jsstring) :
  startsWith p s = true -> startsWith p (s ++ post) = true.
Proof.
  intros H. rewrite (startsWith_split p s H), <- app_assoc.
  apply startsWith_app.
Qed.

Lemma includes_unfold (s needle : jsstring) :
  includes s needle
  = startsWith needle s
    || match s with [] => false | _ :: s' => includes s' needle end.
Proof. destruct s; reflexivity. Qed.

Lemma includes_app_r (pre s needle : jsstring) :
  includes s needle = true -> includes (pre ++ s) needle = true.
Proof.
  intros H. induction pre as [|c pre IH]; [exact H|].
  cbn [app]. rewrite includes_unfold, IH. apply orb_true_r.
Qed.

Lemma includes_app_l (s post needle : jsstring) :
  includes s needle = true -> includes (s ++ post) needle = true.
Proof.
  induction s as [|c s IH]; intros H.
  - rewrite includes_unfold in H. rewrite orb_false_r in H.
    rewrite includes_unfold. apply orb_true_iff. left.
    now apply (startsWith_extend needle [] post).
  - rewrite includes_unfold in H. apply orb_true_iff in H.
    cbn [app]. rewrite includes_unfold. apply orb_true_iff.
    destruct H as [H|H].
    + left. now apply (startsWith_extend needle (c :: s) post).
    + right. now apply IH.
Qed.

Lemma includes_middle (pre s post needle : jsstring) :
  includes s needle = true -> includes (pre ++ s ++ post) needle = true.
Proof. intros H. now apply includes_app_r, includes_app_l. Qed.

(** *** replaceFirst *)

Lemma replaceFirst_absent (s pat rep : jsstring) :
  includes s pat = false -> replaceFirst s pat rep = s.
Proof.
  induction s as [|c s IH]; intros H;
    rewrite includes_unfold in H; apply orb_false_iff in H;
    destruct H as [Hs Hrest]; cbn [replaceFirst]; rewrite Hs.
  - reflexivity.
  - f_equal. now apply IH.
Qed.

Lemma replaceFirst_present (s pat rep : jsstring) :
  includes s pat = true ->
  exists pre post,
    s = pre ++ pat ++ post /\ replaceFirst s pat rep = pre ++ rep ++ post.
Proof.
  induction s as [|c s IH]; intros H; rewrite includes_unfold in H;
    cbn [replaceFirst].
  - rewrite orb_false_r in H. rewrite H.
    exists [], (skipn (length pat) []). split; [|reflexivity].
    now apply startsWith_split.
  - destruct (startsWith pat (c :: s)) eqn:Hs.
    + exists [], (skipn (length pat) (c :: s)). split; [|reflexivity].
      now apply startsWith_split.
    + cbn [orb] in H. destruct (IH H) as (pre & post & E & R).
      exists (c :: pre), post. cbn [app]. now rewrite <- E, R.
Qed.

(** *** The breaking-change rule *)

Lemma addBreakingChange_marked (message : jsstring) :
  includes message BREAKING_CHANGE = true ->
  addBreakingChange true message = message.
Proof. intros H. unfold addBreakingChange. now rewrite H. Qed.

Lemma addBreakingChange_no_blank_line (message : jsstring) :
  includes message blankLine = false ->
  addBreakingChange true message = message.
Proof.
  intros H. unfold addBreakingChange.
  destruct (true && negb (includes message BREAKING_CHANGE));
    [now apply replaceFirst_absent|reflexivity].
Qed.

Lemma addBreakingChange_marks (message : jsstring) :
  includes message blankLine = true ->
  includes (addBreakingChange true message) BREAKING_CHANGE = true.
Proof.
  intros H. unfold addBreakingChange.
  destruct (includes message BREAKING_CHANGE) eqn:Hm; cbn [andb negb].
  - exact Hm.
  - destruct (replaceFirst_present message blankLine
                (blankLine ++ lit "BREAKING CHANGE: ") H)
      as (pre & post & _ & R).
    rewrite R. apply includes_middle. reflexivity.
Qed.

(** C8.  With breaking requested, a message that already holds the text
    BREAKING CHANGE is returned as it is; and applying the rule to its own
    result changes nothing, so the marker is never inserted twice. *)
Theorem addBreakingChange_idempotent (message : jsstring) :
  (includes message BREAKING_CHANGE = true ->
   addBreakingChange true message = message) /\
  addBreakingChange true (addBreakingChange true message)
    = addBreakingChange true message.
Proof.
  split; [apply addBreakingChange_marked|].
  destruct (includes message blankLine) eqn:Hb.
  - apply addBreakingChange_marked. now apply addBreakingChange_marks.
  - now rewrite !(addBreakingChange_no_blank_line message Hb).
Qed.

Definition markedDraft : jsstring :=
  lit "feat!: drop v1 api" ++ blankLine ++ lit "BREAKING CHANGE: v1 is gone".

Lemma addBreakingChange_idempotent_witness :
  addBreakingChange true markedDraft = markedDraft /\
  addBreakingChange true (addBreakingChange true markedDraft)
    = addBreakingChange true markedDraft.
Proof.
  destruct (addBreakingChange_idempotent markedDraft) as [Hsame Hidem].
  split; [apply Hsame; reflexivity|exact Hidem].
Defined.

(** With breaking requested, a message without a blank-line pair
    passes the rule unchanged: one that holds no BREAKING CHANGE marker
    before still holds none after. *)
Theorem addBreakingChange_single_line (message : jsstring) :
  includes message blankLine = false ->
  addBreakingChange true message = message /\
  (includes message BREAKING_CHANGE = false ->
   includes (addBreakingChange true message) BREAKING_CHANGE = false).
Proof.
  intros H. rewrite (addBreakingChange_no_blank_line message H).
  split; [reflexivity|trivial].
Qed.

Definition singleLineDraft : jsstring := lit "feat: drop the v1 api".

Lemma addBreakingChange_single_line_witness :
  addBreakingChange true singleLineDraft = singleLineDraft /\
  includes (addBreakingChange true singleLineDraft) BREAKING_CHANGE = false.
Proof.
  destruct (addBreakingChange_single_line singleLineDraft) as [Hsame Hnone].
  - reflexivity.
  - split; [exact Hsame|apply Hnone; reflexivity].
Defined.

(** *** The whole formatting, for a request without scope and reference *)

Lemma dropWhile_suffix (p : Regex.cls) (s : jsstring) :
  exists pre, s = pre ++ dropWhile p s.
Proof.
  induction s as [|c s [pre IH]]; [now exists []|].
  cbn [dropWhile]. destruct (p c).
  - exists (c :: pre). cbn [app]. now rewrite <- IH.
  - now exists [].
Qed.

Lemma trim_middle (s : jsstring) : exists a b, s = a ++ trim s ++ b.
Proof.
  unfold trim.
  destruct (dropWhile_suffix Regex.isWhiteSpace s) as [a Ha].
  destruct (dropWhile_suffix Regex.isWhiteSpace
              (rev (dropWhile Regex.isWhiteSpace s))) as [b Hb].
  exists a, (rev b).
  rewrite <- rev_app_distr, <- Hb, rev_involutive. exact Ha.
Qed.

Lemma includes_trim (s needle : jsstring) :
  includes s needle = false -> includes (trim s) needle = false.
Proof.
  intros H. destruct (includes (trim s) needle) eqn:Ht; [|reflexivity].
  destruct (trim_middle s) as (a & b & E).
  rewrite E, (includes_middle a (trim s) b needle Ht) in H. discriminate.
Qed.

Lemma formatMessage_single_line (toLowerCase : jsstring -> jsstring)
    (draft : jsstring) :
  includes draft blankLine = false ->
  includes draft BREAKING_CHANGE = false ->
  formatMessage toLowerCase None true None draft = trim draft /\
  includes (formatMessage toLowerCase None true None draft) BREAKING_CHANGE
    = false.
Proof.
  intros Hb Hm. unfold formatMessage. cbn [addScope addRef].
  rewrite addBreakingChange_no_blank_line by now apply includes_trim.
  split; [reflexivity|now apply includes_trim].
Qed.

End FormatFacts.

Module ServiceFacts.
Import Format Service.

(** A configuration file the service accepts: it names a key. *)
Definition complete_file (config : Config) : bool :=
  truthyKey (GEMINI_API_KEY config) || truthyKey (OPENAI_API_KEY config).

Lemma ensureConfig_file (st : State) (config : Config) :
  configFile st = Some config -> complete_file config = true ->
  ensureConfig st = (Return config, st).
Proof.
  intros Hfile Hkeys. unfold ensureConfig, bind, gets. rewrite Hfile.
  unfold complete_file in Hkeys.
  destruct (truthyKey (GEMINI_API_KEY config)),
    (truthyKey (OPENAI_API_KEY config)); try discriminate; reflexivity.
Qed.

(** What [initializeService] does when a key is found, and when none is. *)
Lemma initializeService_key (st : State) (config : Config) :
  configFile st = Some config -> complete_file config = true ->
  truthyKey (orKey (configKey config) (envKey config (env st))) = true ->
  exists svc,
    initializeService st = (Return tt, with_service (Some svc) st).
Proof.
  intros Hfile Hkeys Hkey. unfold initializeService.
  unfold bind at 1. rewrite (ensureConfig_file st config Hfile Hkeys).
  unfold bind, modify, gets. cbn [env with_service].
  destruct (orKey (configKey config) (envKey config (env st)))
    as [key|]; [|discriminate].
  cbn [truthyKey] in Hkey. rewrite Hkey.
  eexists. reflexivity.
Qed.

Lemma initializeService_no_key (st : State) (config : Config) :
  configFile st = Some config -> complete_file config = true ->
  truthyKey (orKey (configKey config) (envKey config (env st))) = false ->
  initializeService st
  = (Throw (noKeyMessage (AI_PROVIDER config)),
     with_service
       (Some {| provider := AI_PROVIDER config; client := None |}) st).
Proof.
  intros Hfile Hkeys Hkey. unfold initializeService.
  unfold bind at 1. rewrite (ensureConfig_file st config Hfile Hkeys).
  unfold bind, modify, gets. cbn [env with_service].
  destruct (orKey (configKey config) (envKey config (env st)))
    as [key|]; [|reflexivity].
  cbn [truthyKey] in Hkey. now rewrite Hkey.
Qed.

(** The rate-limit check, from a state in which the service exists. *)
Lemma rate_limit_check (toLowerCase : jsstring -> jsstring)
    (options : GenerateMessageOptions) (st : State) (config : Config)
    (svc : BaseAIService) :
  service st = Some svc ->
  configFile st = Some config -> complete_file config = true ->
  IS_FREE_ACCOUNT config = true ->
  (now (clock st) - orZero (LAST_REQUEST_TIME config) < 60000)%Z ->
  generateCommitMessage_try toLowerCase options st
  = (Throw rateLimitMessage, st).
Proof.
  intros Hsvc Hfile Hkeys Hfree Hrecent.
  unfold generateCommitMessage_try.
  unfold bind at 1. unfold gets at 1. rewrite Hsvc.
  unfold bind at 1. unfold ret at 1.
  unfold bind at 1. rewrite (ensureConfig_file st config Hfile Hkeys).
  unfold bind at 1. rewrite Hfree. unfold when, bind at 1, dateNow, gets.
  apply Z.ltb_lt in Hrecent. rewrite Hrecent. reflexivity.
Qed.

(** C5, amended.  On a free account whose last request is less than
    60000 ms old, and provided the provider service exists already or a
    key for the selected provider is found, [generateCommitMessage] rejects
    with the rate-limit message behind the prefix of every failure, and no
    request is sent. *)
Theorem generateCommitMessage_rate_limited
    (toLowerCase : jsstring -> jsstring) (options : GenerateMessageOptions)
    (st : State) (config : Config) :
  configFile st = Some config -> complete_file config = true ->
  IS_FREE_ACCOUNT config = true ->
  (now (clock st) - orZero (LAST_REQUEST_TIME config) < 60000)%Z ->
  service st <> None
  \/ truthyKey (orKey (configKey config) (envKey config (env st))) = true ->
  fst (generateCommitMessage toLowerCase options st)
    = Throw (failurePrefix ++ rateLimitMessage) /\
  requests (snd (generateCommitMessage toLowerCase options st))
    = requests st.
Proof.
  intros Hfile Hkeys Hfree Hrecent Hready.
  unfold generateCommitMessage, tryCatch.
  destruct (service st) as [svc|] eqn:Hsvc.
  - rewrite (rate_limit_check toLowerCase options st config svc)
      by assumption.
    split; reflexivity.
  - destruct Hready as [Hready|Hkey]; [congruence|].
    destruct (initializeService_key st config Hfile Hkeys Hkey)
      as [svc Hinit].
    assert (Hstep : generateCommitMessage_try toLowerCase options st
                    = generateCommitMessage_try toLowerCase options
                        (with_service (Some svc) st)).
    { unfold generateCommitMessage_try at 2.
      unfold bind at 1. unfold gets at 1. cbn [service with_service].
      unfold bind at 1. unfold ret at 1.
      unfold generateCommitMessage_try.
      unfold bind at 1. unfold gets at 1. rewrite Hsvc.
      unfold bind at 1. rewrite Hinit. reflexivity. }
    rewrite Hstep.
    rewrite (rate_limit_check toLowerCase options
               (with_service (Some svc) st) config svc)
      by (try assumption; reflexivity).
    split; reflexivity.
Qed.

(** *** Concrete states *)

Definition sampleOptions : GenerateMessageOptions :=
  {| diff := lit "diff --git a/x b/x"; multiline := false;
     useType := true; emoji := false; scope := None; breaking := false;
     ref := None; customPrompt := None; opt_model := None |}.

(** A fresh AIService at time [time], with the configuration file
    [config] and no key in the environment. *)
Definition freshState (config : Config) (time : Z) : State :=
  {| service := None;
     clock := {| now := time; lateness := [] |};
     env := {| env_GEMINI_API_KEY := None; env_OPENAI_API_KEY := None |};
     configFile := Some config;
     setupAnswers := {| answer_provider := gemini;
                        answer_model := lit "gemini-2.0-flash";
                        answer_API_KEY := lit "g-key";
                        answer_IS_FREE_ACCOUNT := true |};
     complete := fun _ => Answered (lit "feat: add x");
     requests := [];
     writeError := None |}.

(** A free account on gemini with its key, last request at [last]. *)
Definition geminiFree (last : Z) : Config :=
  {| AI_PROVIDER := gemini; GEMINI_API_KEY := Some (lit "g-key");
     OPENAI_API_KEY := None; IS_FREE_ACCOUNT := true;
     LAST_REQUEST_TIME := Some last; MODEL := None |}.

(** A configuration that selects gemini and holds a key for openai
    only. *)
Definition geminiWithoutKey (free : bool) (last : option Z) : Config :=
  {| AI_PROVIDER := gemini; GEMINI_API_KEY := None;
     OPENAI_API_KEY := Some (lit "o-key"); IS_FREE_ACCOUNT := free;
     LAST_REQUEST_TIME := last; MODEL := None |}.

(** Stands for [toLowerCase] where a concrete run is evaluated; none of
    these runs reaches the reference rule with a reference. *)
Definition noCaseMapping (s : jsstring) : jsstring := s.

Lemma generateCommitMessage_rate_limited_witness :
  fst (generateCommitMessage noCaseMapping sampleOptions
         (freshState (geminiFree 4999000) 5000000))
    = Throw (failurePrefix ++ rateLimitMessage) /\
  requests (snd (generateCommitMessage noCaseMapping sampleOptions
                   (freshState (geminiFree 4999000) 5000000)))
    = requests (freshState (geminiFree 4999000) 5000000).
Proof.
  apply (generateCommitMessage_rate_limited noCaseMapping sampleOptions
           (freshState (geminiFree 4999000) 5000000) (geminiFree 4999000)).
  - reflexivity.
  - reflexivity.
  - reflexivity.
  - reflexivity.
  - right. reflexivity.
Defined.

(** C5 as stated fails: a free account whose last request is one second
    old, but without a key for the selected provider, is rejected for the
    missing key; the message says nothing of the rate limit. *)
Lemma rate_limit_not_reached_without_key :
  IS_FREE_ACCOUNT (geminiWithoutKey true (Some 4999000%Z)) = true /\
  (5000000 - 4999000 < 60000)%Z /\
  fst (generateCommitMessage noCaseMapping sampleOptions
         (freshState (geminiWithoutKey true (Some 4999000%Z)) 5000000))
    = Throw (failurePrefix ++ noKeyMessage gemini) /\
  includes (failurePrefix ++ noKeyMessage gemini) (lit "Rate limit") = false.
Proof. repeat split. Qed.

(** C6, amended.  When the provider service is not created yet, the
    configuration file holds a key, so that no setup runs, and no key for
    the selected provider is found, neither in the configuration nor in
    the environment (the key of the file is then the other provider's),
    [generateCommitMessage] rejects with the missing-key message behind
    the prefix of every failure; no request is sent. *)
Theorem generateCommitMessage_missing_key
    (toLowerCase : jsstring -> jsstring) (options : GenerateMessageOptions)
    (st : State) (config : Config) :
  service st = None ->
  configFile st = Some config -> complete_file config = true ->
  truthyKey (orKey (configKey config) (envKey config (env st))) = false ->
  fst (generateCommitMessage toLowerCase options st)
    = Throw (failurePrefix ++ noKeyMessage (AI_PROVIDER config)) /\
  requests (snd (generateCommitMessage toLowerCase options st))
    = requests st.
Proof.
  intros Hsvc Hfile Hkeys Hkey.
  assert (Htry : generateCommitMessage_try toLowerCase options st
                 = (Throw (noKeyMessage (AI_PROVIDER config)),
                    with_service
                      (Some {| provider := AI_PROVIDER config;
                               client := None |}) st)).
  { unfold generateCommitMessage_try.
    unfold bind at 1. unfold gets at 1. rewrite Hsvc.
    unfold bind at 1.
    now rewrite (initializeService_no_key st config Hfile Hkeys Hkey). }
  unfold generateCommitMessage, tryCatch. rewrite Htry.
  split; reflexivity.
Qed.

Lemma generateCommitMessage_missing_key_witness :
  fst (generateCommitMessage noCaseMapping sampleOptions
         (freshState (geminiWithoutKey false None) 5000000))
    = Throw (failurePrefix ++ noKeyMessage gemini) /\
  requests (snd (generateCommitMessage noCaseMapping sampleOptions
                   (freshState (geminiWithoutKey false None) 5000000)))
    = requests (freshState (geminiWithoutKey false None) 5000000).
Proof.
  apply (generateCommitMessage_missing_key noCaseMapping sampleOptions
           (freshState (geminiWithoutKey false None) 5000000)
           (geminiWithoutKey false None)); reflexivity.
Defined.

(** C6 as stated fails: the caller does not receive the missing-key error
    as it was thrown, but a new error whose message has the prefix. *)
Lemma missing_key_error_not_verbatim :
  truthyKey (orKey (configKey (geminiWithoutKey false None))
               (envKey (geminiWithoutKey false None)
                  (env (freshState (geminiWithoutKey false None) 5000000))))
    = false /\
  fst (generateCommitMessage noCaseMapping sampleOptions
         (freshState (geminiWithoutKey false None) 5000000))
    <> Throw (noKeyMessage gemini).
Proof. split; [reflexivity|]. vm_compute. discriminate. Qed.

(** With the key in place and the last request old enough, the request
    goes out and the reply is formatted. *)
Example generateCommitMessage_sample :
  fst (generateCommitMessage noCaseMapping sampleOptions
         (freshState (geminiFree 0) 5000000))
    = Return (lit "feat: add x") /\
  length (requests (snd (generateCommitMessage noCaseMapping sampleOptions
                           (freshState (geminiFree 0) 5000000)))) = 1.
Proof. split; reflexivity. Qed.

End ServiceFacts.

Module RegexFacts.
Import Regex.

(** *** What a successful run has read *)

(** One character of the class [p]: a code unit, or with the [u] flag a
    surrogate pair. *)
Inductive charOf (u : bool) (p : cls) : jsstring -> Prop :=
| char_unit (h : N) : p h = true -> charOf u p [h]
| char_pair (h l : N) :
    u = true -> isHigh h = true -> isLow l = true ->
    p (decode h l) = true -> charOf u p [h; l].

Inductive charsOf (u : bool) (p : cls) : jsstring -> Prop :=
| chars_nil : charsOf u p []
| chars_cons (c w : jsstring) :
    charOf u p c -> charsOf u p w -> charsOf u p (c ++ w).

(** [matches u r pos w caps caps']: the pattern [r], entered at position
    [pos] with the groups [caps], can read [w] and leave the groups
    [caps']. *)
Fixpoint matches (u : bool) (r : regex) (pos : nat) (w : jsstring)
    (caps caps' : captures) : Prop :=
  match r with
  | Eps => w = [] /\ caps' = caps
  | Bos => pos = 0 /\ w = [] /\ caps' = caps
  | Cls p => charOf u p w /\ caps' = caps
  | Seq r1 r2 =>
      exists w1 w2 mid,
        w = w1 ++ w2 /\ matches u r1 pos w1 caps mid
        /\ matches u r2 (pos + length w1) w2 mid caps'
  | Opt r1 => matches u r1 pos w caps caps' \/ (w = [] /\ caps' = caps)
  | Star p => charsOf u p w /\ caps' = caps
  | Plus p =>
      exists w1 w2,
        w = w1 ++ w2 /\ charOf u p w1 /\ charsOf u p w2 /\ caps' = caps
  | Cap n r1 =>
      exists caps0, matches u r1 pos w caps caps0 /\ caps' = (n, w) :: caps0
  end.

Lemma orElse_some {A} (a b : option A) (x : A) :
  orElse a b = Some x -> a = Some x \/ b = Some x.
Proof. destruct a; cbn; auto. Qed.

Section Soundness.

Variable R : Type.
Variable u : bool.

Lemma loop_sound (p : cls) (n : nat) :
  forall (s : jsstring) (pos : nat) (k : cont R) (res : R),
    length s <= n ->
    loop u p pos s k = Some res ->
    exists w s',
      s = w ++ s' /\ charsOf u p w /\ k (pos + length w) s' = Some res.
Proof.
  induction n as [|n IH]; intros s pos k res Hn H.
  - destruct s; [|cbn in Hn; lia].
    exists [], []. cbn in H |- *. rewrite Nat.add_0_r.
    repeat split; [constructor|assumption].
  - assert (Hstop : k pos s = Some res ->
                    exists w s', s = w ++ s' /\ charsOf u p w
                                 /\ k (pos + length w) s' = Some res).
    { intros Hk. exists [], s. cbn. rewrite Nat.add_0_r.
      repeat split; [constructor|assumption]. }
    destruct s as [|h t]; [now apply Hstop|].
    assert (Hsingle :
              (if p h then orElse (loop u p (pos + 1) t k) (k pos (h :: t))
               else k pos (h :: t)) = Some res ->
              exists w s', h :: t = w ++ s' /\ charsOf u p w
                           /\ k (pos + length w) s' = Some res).
    { destruct (p h) eqn:Hp; [|apply Hstop].
      intros Hor. apply orElse_some in Hor.
      destruct Hor as [Hrec|Hk]; [|now apply Hstop].
      apply IH in Hrec; [|cbn in Hn; lia].
      destruct Hrec as (w & s' & E & Hw & Hk).
      exists (h :: w), s'. subst t. split; [reflexivity|].
      split; [apply (chars_cons u p [h] w); [now constructor|assumption]|].
      cbn [length]. now replace (pos + S (length w))
                          with (pos + 1 + length w) by lia. }
    cbn [loop] in H.
    destruct (u && isHigh h) eqn:Hu; [|now apply Hsingle].
    destruct t as [|l rest]; [now apply Hsingle|].
    destruct (isLow l) eqn:Hl; [|now apply Hsingle].
    destruct (p (decode h l)) eqn:Hp; [|now apply Hstop].
    apply orElse_some in H. destruct H as [Hrec|Hk]; [|now apply Hstop].
    apply IH in Hrec; [|cbn in Hn; lia].
    destruct Hrec as (w & s' & E & Hw & Hk).
    apply andb_prop in Hu. destruct Hu as [Hu Hh].
    exists (h :: l :: w), s'. subst rest. split; [reflexivity|].
    split; [apply (chars_cons u p [h; l] w); [now constructor|assumption]|].
    cbn [length]. now replace (pos + S (S (length w)))
                        with (pos + 2 + length w) by lia.
Qed.

Lemma one_sound (p : cls) (s : jsstring) (pos : nat) (k : cont R)
    (res : R) :
  one u p pos s k = Some res ->
  exists w s',
    s = w ++ s' /\ charOf u p w /\ k (pos + length w) s' = Some res.
Proof.
  intros H. destruct s as [|h t]; [discriminate|].
  assert (Hsingle :
            (if p h then k (pos + 1) t else None) = Some res ->
            exists w s', h :: t = w ++ s' /\ charOf u p w
                         /\ k (pos + length w) s' = Some res).
  { destruct (p h) eqn:Hp; [|discriminate]. intros Hk.
    exists [h], t. repeat split; [now constructor|assumption]. }
  cbn [one] in H.
  destruct (u && isHigh h) eqn:Hu; [|now apply Hsingle].
  destruct t as [|l rest]; [now apply Hsingle|].
  destruct (isLow l) eqn:Hl; [|now apply Hsingle].
  destruct (p (decode h l)) eqn:Hp; [|discriminate].
  apply andb_prop in Hu. destruct Hu as [Hu Hh].
  exists [h; l], rest. repeat split; [now constructor|assumption].
Qed.

Lemma run_sound (r : regex) :
  forall (pos : nat) (s : jsstring) (caps : captures)
         (k : nat -> jsstring -> captures -> option R) (res : R),
    run u r pos s caps k = Some res ->
    exists w s' caps',
      s = w ++ s' /\ matches u r pos w caps caps'
      /\ k (pos + length w) s' caps' = Some res.
Proof.
  induction r as [| |p|r1 IH1 r2 IH2|r1 IH1|p|p|n r1 IH1];
    intros pos s caps k res H; cbn [run] in H.
  - exists [], s, caps. cbn. rewrite Nat.add_0_r. auto.
  - destruct (Nat.eqb_spec pos 0) as [E|E]; [|discriminate].
    exists [], s, caps. cbn. rewrite Nat.add_0_r. auto.
  - apply one_sound in H. destruct H as (w & s' & E & Hw & Hk).
    exists w, s', caps. cbn. auto.
  - apply IH1 in H. destruct H as (w1 & s1 & mid & E1 & M1 & H).
    apply IH2 in H. destruct H as (w2 & s2 & caps' & E2 & M2 & H).
    exists (w1 ++ w2), s2, caps'. subst s s1.
    rewrite <- app_assoc. split; [reflexivity|].
    split; [cbn; exists w1, w2, mid; auto|].
    now rewrite length_app, Nat.add_assoc.
  - apply orElse_some in H. destruct H as [H|H].
    + apply IH1 in H. destruct H as (w & s' & caps' & E & M & H).
      exists w, s', caps'. cbn. auto.
    + exists [], s, caps. cbn. rewrite Nat.add_0_r. auto.
  - apply (loop_sound p (length s)) in H; [|lia].
    destruct H as (w & s' & E & Hw & Hk).
    exists w, s', caps. cbn. auto.
  - apply one_sound in H. destruct H as (w1 & s1 & E1 & Hw1 & H).
    apply (loop_sound p (length s1)) in H; [|lia].
    destruct H as (w2 & s2 & E2 & Hw2 & Hk).
    exists (w1 ++ w2), s2, caps. subst s s1.
    rewrite <- app_assoc. split; [reflexivity|].
    split; [cbn; exists w1, w2; auto|].
    now rewrite length_app, Nat.add_assoc.
  - apply IH1 in H. destruct H as (w & s' & caps0 & E & M & H).
    exists w, s', ((n, w) :: caps0). split; [assumption|].
    split; [cbn; exists caps0; auto|].
    replace (pos + length w - pos) with (length w) in H by lia.
    subst s. now rewrite firstn_app, Nat.sub_diag, firstn_all, app_nil_r
      in H.
Qed.

End Soundness.



(** *** When a run succeeds *)

Definition succeeds {A} (o : option A) : Prop := exists x, o = Some x.



(** No surrogate pair is read across the end of [pre]. *)
Definition noSplit (pre rest : jsstring) : Prop :=
  (forall h, In h pre -> isHigh h = false)
  \/ (forall l rest', rest = l :: rest' -> isLow l = false).

Lemma noSplit_tail (h : N) (t rest : jsstring) :
  noSplit (h :: t) rest -> noSplit t rest.
Proof. intros [H|H]; [left|right; exact H]. intros c Hc. apply H. now right. Qed.

Section Completeness.

Variable R : Type.
Variable u : bool.
Variable p : cls.

Hypothesis pairs : forall h l,
    p h = true -> isHigh h = true -> isLow l = true ->
    p (decode h l) = true.





End Completeness.

Lemma search_found (u : bool) (r : regex) (pos : nat) (s : jsstring) :
  succeeds (matchAt u r pos s) -> search u r pos s = matchAt u r pos s.
Proof. intros [m H]. destruct s; cbn [search]; now rewrite H. Qed.

(** A pattern that starts with [^] matches at the start or not at all. *)
Lemma search_anchored (u : bool) (r : regex) (s : jsstring) :
  forall pos, 0 < pos -> search u (Seq Bos r) pos s = None.
Proof.
  induction s as [s IH] using (induction_ltof1 _ (@length N)).
  unfold ltof in IH. intros pos Hpos.
  assert (Hat : forall s0, matchAt u (Seq Bos r) pos s0 = None).
  { intros s0. unfold matchAt. cbn [run].
    destruct (Nat.eqb_spec pos 0); [lia|reflexivity]. }
  destruct s as [|h t]; cbn [search]; rewrite Hat; [reflexivity|].
  destruct (u && isHigh h);
    [destruct t as [|l rest]; [|destruct (isLow l)]|];
    apply IH; cbn; lia.
Qed.

End RegexFacts.

Module RewriteFacts.
Import Regex RegexFacts Rewrite.

(** U+1F41B, as its surrogate pair. *)
Definition bug : jsstring := [55357; 56347]%N.

(** C7.  The message [fix(api): B old desc], where B is the character
    U+1F41B, with the enforced type feat becomes [feat(api): B old desc]
    when emoji mode is on and [feat(api): old desc] when it is off. *)
Theorem enforceCommitType_example :
  enforceCommitType (lit "fix(api): " ++ bug ++ lit " old desc") ct_feat true
    = lit "feat(api): " ++ bug ++ lit " old desc" /\
  enforceCommitType (lit "fix(api): " ++ bug ++ lit " old desc") ct_feat false
    = lit "feat(api): old desc".
Proof. split; reflexivity. Qed.

(** *** Characters *)

Definition lineFeed : N := 10.
Definition colon : N := 58.





Lemma decode_large (h l : N) : (65536 <= decode h l)%N.
Proof. unfold decode. lia. Qed.

Lemma notChr_pairs (a : ascii) (h l : N) : notChr a (decode h l) = true.
Proof.
  unfold notChr. apply negb_true_iff, N.eqb_neq.
  pose proof (decode_large h l). pose proof (N_ascii_bounded a). lia.
Qed.

Lemma dot_pairs (h l : N) : dot (decode h l) = true.
Proof.
  unfold dot, isLineTerminator. pose proof (decode_large h l).
  repeat (apply negb_true_iff; apply orb_false_iff; split;
          [|apply N.eqb_neq; lia]; apply negb_true_iff).
  apply negb_true_iff, N.eqb_neq. lia.
Qed.

Lemma whiteSpace_not_high (c : N) :
  isWhiteSpace c = true -> isHigh c = false.
Proof.
  unfold isWhiteSpace, isLineTerminator, range. intros H.
  repeat (apply orb_true_iff in H; destruct H as [H|H]);
    try (apply N.eqb_eq in H; subst c; reflexivity).
  apply andb_prop in H. destruct H as [_ H]. apply N.leb_le in H.
  unfold isHigh. apply andb_false_iff. left. apply N.leb_gt. lia.
Qed.



(** *** What the patterns capture *)







(** *** The first colon of a message *)










(** *** The rewritten message *)




(** A draft with a body and a footer. *)
Definition multilineDraft : jsstring :=
  lit "fix(api): handle empty input" ++ [lineFeed; lineFeed]
    ++ lit "The parser crashed on it." ++ [lineFeed; lineFeed]
    ++ lit "Refs: #12".

Example enforceCommitType_drops_body :
  enforceCommitType multilineDraft ct_feat true
  = lit "feat(api): handle empty input".
Proof. reflexivity. Qed.



End RewriteFacts.

(** * Further properties *)

Module ChunkerMore.
Import Chunker ChunkerFacts FormatFacts.

(** *** The shape of the chunks *)

Lemma join_cons_starts (sep x : jsstring) (rest : list jsstring) :
  exists post, join sep (x :: rest) = x ++ post.
Proof.
  destruct rest as [|y rest].
  - exists []. cbn. now rewrite app_nil_r.
  - exists (sep ++ join sep (y :: rest)). reflexivity.
Qed.

Lemma length_concat_nonempty {A} (groups : list (list A)) :
  Forall (fun g => g <> []) groups ->
  length groups <= length (concat groups).
Proof.
  induction 1 as [|g groups Hg _ IH]; [reflexivity|].
  cbn [concat length]. rewrite length_app.
  destruct g; [congruence|]. cbn [length]. lia.
Qed.

(** X2.  Every chunk begins with the delimiter, so none is empty, and there are
    no more chunks than file sections. *)
Theorem chunks_start_with_delimiter (diff : jsstring) :
  Forall (fun chunk => startsWith delimiter chunk = true)
         (splitDiffIntoChunks diff) /\
  length (splitDiffIntoChunks diff) <= length (fileSections diff).
Proof.
  destruct (splitDiffIntoChunks_groups diff) as (groups & E & C & S0).
  assert (S : Forall (fun g => g <> []) groups).
  { eapply Forall_impl; [|exact S0]. intros g [Hg _]. exact Hg. }
  clear S0. split.
  - rewrite E. apply Forall_forall. intros chunk Hin.
    apply in_map_iff in Hin. destruct Hin as (g & <- & Hg).
    assert (Hsec : forall x, In x g -> In x (fileSections diff)).
    { intros x Hx. rewrite <- C. apply in_concat. now exists g. }
    rewrite Forall_forall in S. specialize (S g Hg).
    destruct g as [|x rest]; [congruence|].
    destruct (join_cons_starts newline x rest) as [post ->].
    specialize (Hsec x (or_introl eq_refl)).
    unfold fileSections in Hsec. apply in_map_iff in Hsec.
    destruct Hsec as (section & <- & _).
    rewrite <- app_assoc. apply startsWith_app.
  - rewrite E, length_map, <- C. now apply length_concat_nonempty.
Qed.

(** *** A diff that fits in one chunk *)

Lemma len_nonneg (s : jsstring) : (0 <= len s)%Z.
Proof. unfold len. lia. Qed.

Lemma len_join_prefix (sep : jsstring) (a b : list jsstring) :
  (len (join sep a) <= len (join sep (a ++ b)))%Z.
Proof.
  induction a as [|x a IH]; [apply len_nonneg|].
  destruct a as [|y a].
  - cbn [app]. destruct (join_cons_starts sep x b) as [post ->].
    cbn [join]. rewrite len_app. pose proof (len_nonneg post). lia.
  - change (join sep ((x :: y :: a) ++ b))
      with (x ++ sep ++ join sep ((y :: a) ++ b)).
    change (join sep (x :: y :: a)) with (x ++ sep ++ join sep (y :: a)).
    rewrite !len_app. lia.
Qed.

Lemma packLoop_fits (sections : list jsstring) :
  forall (g chunks : list jsstring),
    (g = [] <-> join newline g = []) ->
    (len (join newline
            (g ++ map (fun s => delimiter ++ s) sections))
       <= MAX_DIFF_LENGTH)%Z ->
    packLoop sections chunks (join newline g)
    = (chunks,
       join newline (g ++ map (fun s => delimiter ++ s) sections)).
Proof.
  induction sections as [|section rest IH]; intros g chunks Hnil Hfit.
  - cbn [map packLoop]. now rewrite app_nil_r.
  - cbn [map packLoop] in *.
    set (full := delimiter ++ section) in *.
    assert (Hfull : full <> []) by (unfold full; discriminate).
    clearbody full.
    assert (Hsnoc : join newline g
                      ++ (if truthy (join newline g) then newline else [])
                      ++ full
                    = join newline (g ++ [full])).
    { destruct (truthy (join newline g)) eqn:Ht.
      - apply truthy_true in Ht. rewrite join_snoc; [reflexivity|].
        intros E. apply Ht, Hnil, E.
      - apply truthy_false in Ht. rewrite Ht. apply Hnil in Ht.
        now subst g. }
    assert (Hstep : (len (join newline g) + len full
                     <= len (join newline (g ++ [full])))%Z).
    { rewrite <- Hsnoc, !len_app. unfold len. lia. }
    replace (g ++ full :: map (fun s => delimiter ++ s) rest)
      with ((g ++ [full]) ++ map (fun s => delimiter ++ s) rest) in *
      by now rewrite <- app_assoc.
    pose proof (len_join_prefix newline (g ++ [full])
                  (map (fun s => delimiter ++ s) rest)) as Hmono.
    destruct (Z.gtb_spec (len (join newline g) + len full) MAX_DIFF_LENGTH)
      as [Hgt|_]; [lia|].
    rewrite Hsnoc. apply IH; [|exact Hfit].
    split; intros E.
    + destruct g; discriminate.
    + rewrite <- Hsnoc in E. apply app_eq_nil in E. destruct E as [_ E].
      apply app_eq_nil in E. destruct E. congruence.
Qed.

(** X3.  A diff without file sections gives no chunk; a diff whose file
    sections, joined by newlines, stay within the maximum gives exactly
    one chunk, which is that join. *)
Theorem splitDiffIntoChunks_single_chunk (diff : jsstring) :
  (fileSections diff = [] -> splitDiffIntoChunks diff = []) /\
  (fileSections diff <> [] ->
   (len (join newline (fileSections diff)) <= MAX_DIFF_LENGTH)%Z ->
   splitDiffIntoChunks diff = [join newline (fileSections diff)]).
Proof.
  unfold splitDiffIntoChunks, fileSections. split.
  - intros Hnone. apply map_eq_nil in Hnone. now rewrite Hnone.
  - intros Hsome Hfit.
    change (packLoop (rawSections diff) [] [])
      with (packLoop (rawSections diff) [] (join newline [])).
    rewrite (packLoop_fits (rawSections diff) [] []);
      [|cbn [join]; tauto|exact Hfit].
    cbn [app].
    destruct (truthy (join newline
                        (map (fun s => delimiter ++ s) (rawSections diff))))
      eqn:Ht; [reflexivity|].
    apply truthy_false in Ht. exfalso.
    destruct (rawSections diff) as [|x rest]; [now apply Hsome|].
    destruct (join_cons_starts newline (delimiter ++ x)
                (map (fun s => delimiter ++ s) rest)) as [post E].
    cbn [map] in Ht. unfold jsstring in *. rewrite E in Ht. discriminate.
Qed.

Definition smallDiff : jsstring :=
  lit "diff --git a/x b/x" ++ newline ++ lit "+1" ++ newline
    ++ lit "diff --git a/y b/y" ++ newline ++ lit "-2" ++ newline.

Lemma splitDiffIntoChunks_single_chunk_witness :
  splitDiffIntoChunks smallDiff = [join newline (fileSections smallDiff)].
Proof.
  apply (splitDiffIntoChunks_single_chunk smallDiff).
  - vm_compute. discriminate.
  - vm_compute. discriminate.
Defined.

(** *** The sections and the text of the diff *)

Lemma splitFrom_nonempty (sep s : jsstring) :
  forall skip piece, splitFrom sep s skip piece <> [].
Proof.
  induction s as [|c s IH]; intros skip piece; cbn [splitFrom];
    [discriminate|].
  destruct skip; [|apply IH].
  destruct (startsWith sep (c :: s)); [discriminate|apply IH].
Qed.

Lemma join_cons (sep x : jsstring) (rest : list jsstring) :
  rest <> [] -> join sep (x :: rest) = x ++ sep ++ join sep rest.
Proof. destruct rest; [congruence|reflexivity]. Qed.

(** Joining the pieces of a split with the separator gives the text
    back. *)
Lemma join_splitFrom (sep : jsstring) :
  sep <> [] ->
  forall (s : jsstring) (skip : nat) (piece : jsstring),
    skip <= length sep ->
    firstn skip s = skipn (length sep - skip) sep ->
    join sep (splitFrom sep s skip piece) = rev piece ++ skipn skip s.
Proof.
  intros Hsep. induction s as [|c s IH]; intros skip piece Hle Hskip.
  - cbn [splitFrom join]. now rewrite skipn_nil, app_nil_r.
  - cbn [splitFrom]. destruct skip as [|k].
    + cbn [skipn].
      destruct (startsWith sep (c :: s)) eqn:Hs.
      * apply startsWith_split in Hs.
        destruct sep as [|a sep']; [congruence|].
        cbn [length skipn] in Hs. injection Hs as Hc Hrest.
        assert (Hfirst : firstn (length sep') s = sep').
        { rewrite Hrest, firstn_app, Nat.sub_diag, firstn_all.
          cbn [firstn]. apply app_nil_r. }
        rewrite join_cons by apply splitFrom_nonempty.
        replace (length (a :: sep') - 1) with (length sep')
          by (cbn [length]; lia).
        rewrite IH.
        -- cbn [rev app]. subst a. now rewrite <- Hrest.
        -- cbn [length]. lia.
        -- replace (length (a :: sep') - length sep') with 1
             by (cbn [length]; lia).
           exact Hfirst.
      * rewrite IH; [|lia|now rewrite Nat.sub_0_r, skipn_all].
        cbn [rev skipn]. now rewrite <- app_assoc.
    + cbn [skipn]. apply IH; [lia|].
      cbn [firstn] in Hskip.
      replace (length sep - k) with (S (length sep - S k)) by lia.
      destruct (skipn (length sep - S k) sep) as [|a tail] eqn:E;
        [discriminate|].
      injection Hskip as _ Hskip. rewrite Hskip.
      change tail with (skipn 1 (a :: tail)). rewrite <- E.
      now rewrite skipn_skipn.
Qed.

Lemma join_split (s sep : jsstring) :
  sep <> [] -> join sep (split s sep) = s.
Proof.
  intros Hsep. unfold split.
  rewrite (join_splitFrom sep Hsep s 0 []); [reflexivity|lia|].
  now rewrite Nat.sub_0_r, skipn_all.
Qed.

Lemma concat_sections (pieces : list jsstring) :
  pieces <> [] ->
  concat (map (fun s => delimiter ++ s) pieces)
  = delimiter ++ join delimiter pieces.
Proof.
  induction pieces as [|x pieces IH]; [congruence|]. intros _.
  cbn [map concat]. destruct pieces as [|y pieces].
  - cbn. now rewrite app_nil_r.
  - rewrite IH by discriminate.
    change (join delimiter (x :: y :: pieces))
      with (x ++ delimiter ++ join delimiter (y :: pieces)).
    now rewrite <- !app_assoc.
Qed.

(** X4.  When the diff begins with the delimiter and no two delimiters stand
    side by side (the only empty piece of the split is the first), the
    file sections, one after the other, are the text of the diff. *)
Theorem fileSections_partition (diff : jsstring) :
  split diff delimiter = [] :: rawSections diff ->
  concat (fileSections diff) = diff.
Proof.
  intros Hsplit. unfold fileSections.
  assert (Hjoin : join delimiter (split diff delimiter) = diff)
    by (apply join_split; discriminate).
  rewrite Hsplit in Hjoin.
  destruct (rawSections diff) as [|x rest] eqn:Hraw.
  - cbn in Hjoin. now subst diff.
  - rewrite concat_sections by discriminate.
    rewrite join_cons in Hjoin by discriminate. exact Hjoin.
Qed.

Lemma fileSections_partition_witness :
  concat (fileSections smallDiff) = smallDiff.
Proof. apply (fileSections_partition smallDiff). reflexivity. Defined.

End ChunkerMore.

Module RateMore.
Import Rate RateFacts.


Definition aheadConfig : Config := freeConfig (Some 3000000000%Z).


(** A stored time 3000000000 ms ahead of the clock: the call entered at
    2000 returns at 2008, long before the stored time. *)
Example rateLimiter_clamped :
  now (snd (rateLimiter aheadConfig {| now := 2000; lateness := [7%N] |}))
  = 2008%Z.
Proof. reflexivity. Qed.

Section Batch.

Variable T : Type.
Variable processor : T -> outcome.

Lemma filter_truthy_nonempty (l : list jsstring) :
  Forall (fun r => r <> []) (filter truthy l).
Proof.
  apply Forall_forall. intros r Hr. apply filter_In in Hr.
  destruct Hr as [_ Hr]. now destruct r.
Qed.

(** X6.  The strings [batchProcess] returns are the non-empty results of the
    guarded processor in the order of the items, whatever the account and
    the clock: none of them is empty and there are no more of them than
    items. *)
Theorem batchProcess_results_shape (items : list T) (config : Config)
    (clock : Clock) :
  fst (fst (batchProcess processor items config clock))
    = filter truthy (map (guarded processor) items) /\
  Forall (fun r => r <> [])
         (fst (fst (batchProcess processor items config clock))) /\
  length (fst (fst (batchProcess processor items config clock)))
    <= length items.
Proof.
  rewrite batchProcess_results. split; [reflexivity|].
  split; [apply filter_truthy_nonempty|].
  rewrite <- (length_map (guarded processor) items).
  apply filter_length_le.
Qed.

Lemma batchLoop_not_free (K : nat) (HK : 0 < K) (items : list T) (i : nat)
    (results : list jsstring) (config : Config) (clock : Clock) :
  IS_FREE_ACCOUNT config = false ->
  snd (fst (batchLoop processor K HK items i results config clock))
  = config.
Proof.
  funelim (batchLoop processor K HK items i results config clock);
    intros Hfree.
  - rewrite H.
    + unfold rateLimiter. now rewrite Hfree.
    + unfold rateLimiter. now rewrite Hfree.
  - reflexivity.
Qed.

(** X7.  Without items nothing is throttled: the configuration and the clock
    are returned as they were.  On a paid account the configuration is
    never touched. *)
Theorem batchProcess_untouched (items : list T) (config : Config)
    (clock : Clock) :
  (items = [] ->
   batchProcess processor items config clock = ([], config, clock)) /\
  (IS_FREE_ACCOUNT config = false ->
   snd (fst (batchProcess processor items config clock)) = config).
Proof.
  split.
  - intros ->. unfold batchProcess. now simp batchLoop.
  - intros Hfree. unfold batchProcess.
    pose proof (batchLoop_not_free (concurrency config)
                  (concurrency_positive config) items 0 [] config clock
                  Hfree) as H.
    destruct (batchLoop processor (concurrency config)
                (concurrency_positive config) items 0 [] config clock)
      as [[results config'] clock'].
    exact H.
Qed.

End Batch.

Definition paidConfig : Config :=
  {| AI_PROVIDER := gemini; GEMINI_API_KEY := Some (lit "key");
     OPENAI_API_KEY := None; IS_FREE_ACCOUNT := false;
     LAST_REQUEST_TIME := None; MODEL := None |}.

Lemma batchProcess_untouched_witness :
  batchProcess sampleProcessor [] paidConfig
    {| now := 1000000; lateness := [] |}
    = ([], paidConfig, {| now := 1000000; lateness := [] |}) /\
  snd (fst (batchProcess sampleProcessor [1; 2; 3] paidConfig
              {| now := 1000000; lateness := [] |})) = paidConfig.
Proof.
  split.
  - apply (batchProcess_untouched nat sampleProcessor [] paidConfig
             {| now := 1000000; lateness := [] |}). reflexivity.
  - apply (batchProcess_untouched nat sampleProcessor [1; 2; 3] paidConfig
             {| now := 1000000; lateness := [] |}). reflexivity.
Defined.

End RateMore.

Module RegexMore.
Import Regex RegexFacts.

(** A match found by a search has read a part of the input. *)
Lemma search_within (u : bool) (r : regex) (s : jsstring) :
  forall (pos : nat) (m : matchResult),
    search u r pos s = Some m ->
    exists pos' w pre post,
      s = pre ++ w ++ post /\ matches u r pos' w [] (groups m).
Proof.
  assert (Hat : forall pos s0 m, matchAt u r pos s0 = Some m ->
                  exists pos' w pre post,
                    s0 = pre ++ w ++ post
                    /\ matches u r pos' w [] (groups m)).
  { intros pos s0 m H. unfold matchAt in H. apply run_sound in H.
    destruct H as (w & s' & caps' & E & M & H).
    injection H as <-. exists pos, w, [], s'. cbn. auto. }
  induction s as [s IH] using (induction_ltof1 _ (@length N)).
  unfold ltof in IH. intros pos m H.
  destruct (matchAt u r pos s) as [m'|] eqn:Hm.
  { rewrite search_found in H by now exists m'.
    rewrite Hm in H. injection H as <-. now apply (Hat pos s). }
  destruct s as [|h t]; cbn [search] in H; rewrite Hm in H;
    [discriminate|].
  assert (Htail : forall pos1 t1 front,
             h :: t = front ++ t1 -> length t1 < length (h :: t) ->
             search u r pos1 t1 = Some m ->
             exists pos' w pre post,
               h :: t = pre ++ w ++ post
               /\ matches u r pos' w [] (groups m)).
  { intros pos1 t1 front E Hlen Hs.
    destruct (IH t1 Hlen pos1 m Hs) as (pos' & w & pre & post & E1 & M).
    exists pos', w, (front ++ pre), post. split; [|exact M].
    now rewrite E, E1, <- app_assoc. }
  destruct (u && isHigh h).
  - destruct t as [|l rest].
    + apply (Htail (pos + 1) [] [h]); [reflexivity|cbn; lia|exact H].
    + destruct (isLow l).
      * apply (Htail (pos + 2) rest [h; l]);
          [reflexivity|cbn; lia|exact H].
      * apply (Htail (pos + 1) (l :: rest) [h]);
          [reflexivity|cbn; lia|exact H].
  - apply (Htail (pos + 1) t [h]); [reflexivity|cbn; lia|exact H].
Qed.

(** A text read by a pattern that ends with one given ASCII character
    holds that character. *)
Lemma charOf_chr (u : bool) (a : ascii) (w : jsstring) :
  charOf u (chr a) w -> w = [N_of_ascii a].
Proof.
  intros [h Hh|h l _ _ _ Hd].
  - unfold chr in Hh. apply N.eqb_eq in Hh. now subst h.
  - unfold chr in Hd. apply N.eqb_eq in Hd. exfalso.
    unfold decode in Hd. pose proof (N_ascii_bounded a). lia.
Qed.

(** *** Exact results *)

(** The character the matcher reads at the head of the input. *)
Definition firstChar (u : bool) (s : jsstring) : option N :=
  match s with
  | [] => None
  | h :: t =>
      if u && isHigh h then
        match t with
        | l :: _ => if isLow l then Some (decode h l) else Some h
        | [] => Some h
        end
      else Some h
  end.

(** The class [p] does not accept what comes next. *)
Definition stops (u : bool) (p : cls) (rest : jsstring) : Prop :=
  match firstChar u rest with
  | None => True
  | Some c => p c = false
  end.

Section Exact.

Variable R : Type.
Variable u : bool.
Variable p : cls.

Lemma one_stops (pos : nat) (s : jsstring) (k : cont R) :
  stops u p s -> one u p pos s k = None.
Proof.
  unfold stops, firstChar. destruct s as [|h t]; [reflexivity|].
  cbn [one]. destruct (u && isHigh h).
  - destruct t as [|l rest]; [now intros ->|].
    destruct (isLow l); now intros ->.
  - now intros ->.
Qed.

Lemma loop_stops (pos : nat) (s : jsstring) (k : cont R) :
  stops u p s -> loop u p pos s k = k pos s.
Proof.
  unfold stops, firstChar. destruct s as [|h t]; [reflexivity|].
  cbn [loop]. destruct (u && isHigh h).
  - destruct t as [|l rest]; [now intros ->|].
    destruct (isLow l); now intros ->.
  - now intros ->.
Qed.

Hypothesis pairs : forall h l,
    p h = true -> isHigh h = true -> isLow l = true ->
    p (decode h l) = true.

(** A greedy loop over a run [pre] of the class, after which the class
    stops, hands over at the end of [pre] when what follows succeeds
    there. *)
Lemma loop_exact (n : nat) :
  forall (pre rest : jsstring) (pos : nat) (k : cont R) (x : R),
    length pre <= n ->
    (forall c, In c pre -> p c = true) ->
    noSplit pre rest ->
    stops u p rest ->
    k (pos + length pre) rest = Some x ->
    loop u p pos (pre ++ rest) k = Some x.
Proof.
  induction n as [|n IH]; intros pre rest pos k x Hn Hunits Hsplit Hstop Hk.
  - destruct pre; [|cbn in Hn; lia]. cbn [app length] in *.
    rewrite Nat.add_0_r in Hk. now rewrite loop_stops.
  - destruct pre as [|h t].
    { cbn [app length] in *. rewrite Nat.add_0_r in Hk.
      now rewrite loop_stops. }
    assert (Hsingle :
              (if p h
               then orElse (loop u p (pos + 1) (t ++ rest) k)
                      (k pos (h :: t ++ rest))
               else k pos (h :: t ++ rest)) = Some x).
    { rewrite (Hunits h) by now left.
      rewrite (IH t rest (pos + 1) k x); [reflexivity| | | | |].
      - cbn in Hn. lia.
      - intros c Hc. apply Hunits. now right.
      - now apply noSplit_tail in Hsplit.
      - exact Hstop.
      - cbn [length] in Hk.
        now replace (pos + 1 + length t) with (pos + S (length t)) by lia. }
    cbn [app loop].
    destruct (u && isHigh h) eqn:Hu; [|exact Hsingle].
    apply andb_prop in Hu. destruct Hu as [_ Hh].
    destruct t as [|l t].
    + cbn [app]. destruct rest as [|l rest]; [exact Hsingle|].
      destruct (isLow l) eqn:Hl; [|exact Hsingle]. exfalso.
      destruct Hsplit as [Hs|Hs].
      * rewrite (Hs h) in Hh; [discriminate|now left].
      * rewrite (Hs l rest eq_refl) in Hl. discriminate.
    + cbn [app]. destruct (isLow l) eqn:Hl; [|exact Hsingle].
      rewrite (pairs h l (Hunits h (or_introl eq_refl)) Hh Hl).
      rewrite (IH t rest (pos + 2) k x); [reflexivity| | | | |].
      * cbn in Hn. lia.
      * intros c Hc. apply Hunits. now right; right.
      * now do 2 apply noSplit_tail in Hsplit.
      * exact Hstop.
      * cbn [length] in Hk.
        now replace (pos + 2 + length t) with (pos + S (S (length t)))
          by lia.
Qed.

Lemma plus_exact (pre rest : jsstring) (pos : nat) (k : cont R) (x : R) :
  pre <> [] ->
  (forall c, In c pre -> p c = true) ->
  noSplit pre rest ->
  stops u p rest ->
  k (pos + length pre) rest = Some x ->
  one u p pos (pre ++ rest) (fun pos' s' => loop u p pos' s' k) = Some x.
Proof.
  intros Hne Hunits Hsplit Hstop Hk. destruct pre as [|h t]; [congruence|].
  assert (Hsingle :
            (if p h then loop u p (pos + 1) (t ++ rest) k else None)
            = Some x).
  { rewrite (Hunits h) by now left.
    apply (loop_exact (length t)); [lia| | | |].
    - intros c Hc. apply Hunits. now right.
    - now apply noSplit_tail in Hsplit.
    - exact Hstop.
    - cbn [length] in Hk.
      now replace (pos + 1 + length t) with (pos + S (length t)) by lia. }
  cbn [app one].
  destruct (u && isHigh h) eqn:Hu; [|exact Hsingle].
  apply andb_prop in Hu. destruct Hu as [_ Hh].
  destruct t as [|l t].
  - cbn [app]. destruct rest as [|l rest]; [exact Hsingle|].
    destruct (isLow l) eqn:Hl; [|exact Hsingle]. exfalso.
    destruct Hsplit as [Hs|Hs].
    + rewrite (Hs h) in Hh; [discriminate|now left].
    + rewrite (Hs l rest eq_refl) in Hl. discriminate.
  - cbn [app]. destruct (isLow l) eqn:Hl; [|exact Hsingle].
    rewrite (pairs h l (Hunits h (or_introl eq_refl)) Hh Hl).
    apply (loop_exact (length t)); [lia| | | |].
    + intros c Hc. apply Hunits. now right; right.
    + now do 2 apply noSplit_tail in Hsplit.
    + exact Hstop.
    + cbn [length] in Hk.
      now replace (pos + 2 + length t) with (pos + S (S (length t)))
        by lia.
Qed.

End Exact.

(** Without the [u] flag every character is one code unit. *)
Lemma charOf_unit (p : cls) (w : jsstring) :
  charOf false p w -> exists h, w = [h] /\ p h = true.
Proof. intros [h Hh|h l Hu _ _ _]; [now exists h|discriminate]. Qed.

Lemma charsOf_units (p : cls) (w : jsstring) :
  charsOf false p w -> forall c, In c w -> p c = true.
Proof.
  induction 1 as [|c w Hc _ IH]; intros x Hx; [destruct Hx|].
  apply charOf_unit in Hc. destruct Hc as (h & -> & Hh).
  destruct Hx as [<-|Hx]; [exact Hh|now apply IH].
Qed.

Lemma noSplit_plain (pre rest : jsstring) :
  (forall c, In c pre -> isHigh c = false) -> noSplit pre rest.
Proof. intros H. now left. Qed.

(** A pattern that starts with [^] is tried at the start only. *)
Lemma exec_anchored (u : bool) (r : regex) (s : jsstring) :
  exec u (Seq Bos r) s = matchAt u (Seq Bos r) 0 s.
Proof.
  unfold exec. destruct (matchAt u (Seq Bos r) 0 s) as [m|] eqn:Hm.
  - rewrite search_found by now exists m. exact Hm.
  - destruct s as [|h t]; cbn [search]; rewrite Hm; [reflexivity|].
    destruct (u && isHigh h);
      [destruct t as [|l rest]; [|destruct (isLow l)]|];
      apply search_anchored; lia.
Qed.

End RegexMore.

Module RewriteMore.
Import Regex RegexFacts RegexMore Rewrite RewriteFacts.

Lemma in_middle {A} (x : A) (pre w post : list A) :
  In x w -> In x (pre ++ w ++ post).
Proof. intros H. apply in_or_app. right. apply in_or_app. now left. Qed.

(** None of the three patterns of [enforceCommitType] matches a text
    without a colon. *)
Lemma typeAndScope_needs_colon (message : jsstring) :
  ~ In colon message -> exec false typeAndScope message = None.
Proof.
  intros Hno. destruct (exec false typeAndScope message) as [m|] eqn:H;
    [|reflexivity].
  exfalso. apply Hno. apply search_within in H.
  destruct H as (pos & w & pre & post & -> & M).
  apply in_middle. unfold typeAndScope in M. cbn [matches] in M.
  destruct M as (w1 & w2 & ? & -> & _ & M).
  destruct M as (w3 & w4 & ? & -> & _ & M).
  destruct M as (w5 & w6 & ? & -> & _ & M).
  destruct M as [M _]. apply charOf_chr in M. subst w6.
  do 3 (apply in_or_app; right). now left.
Qed.

Lemma colonEmoji_needs_colon (message : jsstring) :
  ~ In colon message -> exec true colonEmoji message = None.
Proof.
  intros Hno. destruct (exec true colonEmoji message) as [m|] eqn:H;
    [|reflexivity].
  exfalso. apply Hno. apply search_within in H.
  destruct H as (pos & w & pre & post & -> & M).
  apply in_middle. unfold colonEmoji in M. cbn [matches] in M.
  destruct M as (w1 & w2 & ? & -> & [M _] & _).
  apply charOf_chr in M. subst w1. now left.
Qed.

Lemma descriptionPattern_needs_colon (message : jsstring) :
  ~ In colon message -> exec true descriptionPattern message = None.
Proof.
  intros Hno. destruct (exec true descriptionPattern message) as [m|] eqn:H;
    [|reflexivity].
  exfalso. apply Hno. apply search_within in H.
  destruct H as (pos & w & pre & post & -> & M).
  apply in_middle. unfold descriptionPattern in M. cbn [matches] in M.
  destruct M as (w1 & w2 & ? & -> & _ & M).
  destruct M as (w3 & w4 & ? & -> & _ & M).
  destruct M as (w5 & w6 & ? & -> & [M _] & _).
  apply charOf_chr in M. subst w5.
  do 2 (apply in_or_app; right). now left.
Qed.

(** X8.  A draft without a colon is kept whole: the result is the enforced
    type, a colon, a space, and the draft, whatever the emoji mode. *)
Theorem enforceCommitType_without_colon (message : jsstring)
    (type : CommitType) (emoji : bool) :
  ~ In colon message ->
  enforceCommitType message type emoji
  = commitTypeText type ++ lit ": " ++ message.
Proof.
  intros Hno. unfold enforceCommitType, scopeOf, emojiOf, descriptionOf.
  rewrite (typeAndScope_needs_colon message Hno),
    (colonEmoji_needs_colon message Hno),
    (descriptionPattern_needs_colon message Hno).
  destruct emoji; cbn [truthy andb app]; now rewrite <- app_assoc.
Qed.

Lemma enforceCommitType_without_colon_witness :
  enforceCommitType (lit "update the parser") ct_fix true
  = commitTypeText ct_fix ++ lit ": " ++ lit "update the parser".
Proof.
  apply (enforceCommitType_without_colon (lit "update the parser")).
  vm_compute. intros H.
  repeat (destruct H as [H|H]; [discriminate|]). exact H.
Defined.

End RewriteMore.

Module FormatMore.
Import Regex RegexFacts RegexMore Format FormatFacts.
Import RewriteFacts(colon).

Definition dollar : N := 36.

(** *** The scope rule *)

(** A template without a dollar sign stands for itself. *)
Lemma getSubstitution_literal (m : matchResult) (before : jsstring)
    (ncaps : nat) (template : jsstring) :
  ~ In dollar template -> getSubstitution m before ncaps template = template.
Proof.
  induction template as [|c t IH]; intros Hno; [reflexivity|].
  cbn [getSubstitution].
  destruct (N.eqb_spec c 36) as [->|_];
    [exfalso; apply Hno; now left|].
  f_equal. apply IH. intros H. apply Hno. now right.
Qed.

Lemma word_not_high (c : N) : word c = true -> isHigh c = false.
Proof.
  unfold word, range, isHigh. intros H.
  apply andb_false_iff. left. apply N.leb_gt.
  repeat (apply orb_true_iff in H; destruct H as [H|H]);
    try (apply andb_prop in H; destruct H as [_ H]; apply N.leb_le in H;
         lia).
  apply N.eqb_eq in H. lia.
Qed.

(** The match of the scope rule's pattern on a message that begins with
    word characters and a colon. *)
Lemma typeColon_match (w rest : jsstring) :
  w <> [] -> (forall c, In c w -> word c = true) ->
  exec false typeColon (w ++ colon :: rest)
  = Some {| index := 0; matched := w ++ [colon];
            groups := [(1, w ++ [colon])]; after := rest |}.
Proof.
  intros Hne Hword. unfold typeColon. rewrite exec_anchored.
  unfold matchAt. cbn [run Nat.eqb].
  erewrite plus_exact; [reflexivity| | | | | |].
  - intros h l Hh Hhigh. apply word_not_high in Hh. congruence.
  - exact Hne.
  - exact Hword.
  - apply noSplit_plain. intros c Hc. apply word_not_high, Hword, Hc.
  - reflexivity.
  - cbn [one andb]. change (chr ":" colon) with true. cbv iota.
    do 2 f_equal.
    + f_equal. rewrite Nat.sub_0_r.
      replace (0 + length w + 1) with (length (w ++ [colon]))
        by (rewrite length_app; cbn; lia).
      change (colon :: rest) with ([colon] ++ rest).
      rewrite app_assoc.
      now rewrite firstn_app, Nat.sub_diag, firstn_all, app_nil_r.
    + rewrite Nat.sub_0_r.
      replace (0 + length w + 1) with (length (w ++ [colon]))
        by (rewrite length_app; cbn; lia).
      change (colon :: rest) with ([colon] ++ rest).
      rewrite app_assoc.
      now rewrite firstn_app, Nat.sub_diag, firstn_all, app_nil_r.
Qed.

(** A message made of word characters, a colon and a rest. *)
Definition typedMessage (message : jsstring) : Prop :=
  exists w rest,
    message = w ++ colon :: rest /\ w <> []
    /\ (forall c, In c w -> word c = true).

(** X11.  On a message that begins with word characters and a colon, a scope
    without a dollar sign is put, in parentheses, right after that colon;
    the rest of the message follows unchanged. *)
Theorem addScope_after_colon (sc w rest : jsstring) :
  sc <> [] -> ~ In dollar sc ->
  w <> [] -> (forall c, In c w -> word c = true) ->
  addScope (Some sc) (w ++ colon :: rest)
  = w ++ [colon] ++ lit "(" ++ sc ++ lit ")" ++ rest.
Proof.
  intros Hsc Hdollar Hne Hword. unfold addScope.
  destruct sc as [|c0 sc0] eqn:Esc; [congruence|]. cbn [truthy].
  rewrite <- Esc in *. clear Esc c0 sc0.
  unfold replaceRegex. rewrite (typeColon_match w rest Hne Hword).
  cbn [index matched groups after firstn app].
  assert (Htemplate :
            getSubstitution
              {| index := 0; matched := w ++ [colon];
                 groups := [(1, w ++ [colon])]; after := rest |}
              [] 1 (lit "$1(" ++ sc ++ lit ")")
            = (w ++ [colon]) ++ lit "(" ++ sc ++ lit ")").
  { change (lit "$1(" ++ sc ++ lit ")")
      with (36%N :: 49%N :: 40%N :: sc ++ lit ")").
    cbn [getSubstitution N.eqb Pos.eqb].
    change (isDigit 49) with true. change (isDigit 40) with false.
    change (digit 49) with 1. cbn [Nat.leb andb capture group groups
                                    Nat.eqb].
    f_equal. rewrite getSubstitution_literal; [reflexivity|].
    intros H.
    apply in_app_or in H. destruct H as [H|H]; [now apply Hdollar|].
    destruct H as [H|[]]. discriminate. }
  rewrite Htemplate. now rewrite <- !app_assoc.
Qed.

Lemma addScope_after_colon_witness :
  addScope (Some (lit "api")) (lit "feat" ++ colon :: lit " add x")
  = lit "feat" ++ [colon] ++ lit "(" ++ lit "api" ++ lit ")" ++ lit " add x".
Proof.
  apply (addScope_after_colon (lit "api") (lit "feat") (lit " add x")).
  - discriminate.
  - vm_compute. intros H.
    repeat (destruct H as [H|H]; [discriminate|]). exact H.
  - discriminate.
  - intros c H. vm_compute in H.
    repeat (destruct H as [<-|H]; [reflexivity|]). destruct H.
Defined.

(** X12.  A message of any other shape passes the scope rule unchanged, and so
    does every message when no scope is requested. *)
Theorem addScope_unchanged (scope : option jsstring) (message : jsstring) :
  ~ typedMessage message \/ scope = None \/ scope = Some [] ->
  addScope scope message = message.
Proof.
  intros [Hshape|[->| ->]]; [|reflexivity|reflexivity].
  unfold addScope. destruct scope as [sc|]; [|reflexivity].
  destruct (truthy sc); [|reflexivity].
  unfold replaceRegex.
  destruct (exec false typeColon message) as [m|] eqn:H; [|reflexivity].
  exfalso. apply Hshape. unfold typeColon in H.
  rewrite exec_anchored in H. unfold matchAt in H.
  apply run_sound in H. destruct H as (w & s' & caps' & E & M & _).
  cbn [matches] in M.
  destruct M as (w0 & w1 & mid & -> & (_ & -> & _) & M).
  destruct M as (caps0 & M & _).
  destruct M as (w2 & w3 & mid' & -> & M & [Mc _]).
  destruct M as (a & b & -> & Ha & Hb & _).
  apply charOf_unit in Mc. destruct Mc as (h & -> & Hh).
  unfold chr in Hh. apply N.eqb_eq in Hh. subst h.
  apply charOf_unit in Ha. destruct Ha as (h & -> & Hh).
  exists ((h :: nil) ++ b), s'. split.
  - rewrite E. cbn [app]. now rewrite <- !app_assoc.
  - split; [discriminate|].
    intros c [<-|Hc]; [exact Hh|]. now apply (charsOf_units word b).
Qed.

Lemma addScope_unchanged_witness :
  addScope (Some (lit "api")) (lit "feat(core): add x")
  = lit "feat(core): add x".
Proof.
  apply (addScope_unchanged (Some (lit "api")) (lit "feat(core): add x")).
  left. intros (w & rest & E & Hne & Hword).
  destruct w as [|c1 w]; [congruence|].
  assert (H1 := Hword c1 (or_introl eq_refl)).
  injection E as <- E.
  repeat (destruct w as [|? w];
          [discriminate
          |injection E as <- E;
           try (specialize (Hword _ (or_intror (or_intror (or_intror
                  (or_intror (or_introl eq_refl))))));
                discriminate Hword)]).
Defined.

(** *** The breaking-change rule *)

Lemma replaceFirst_first (s pat rep : jsstring) :
  includes s pat = true ->
  exists pre post,
    s = pre ++ pat ++ post
    /\ replaceFirst s pat rep = pre ++ rep ++ post
    /\ (forall pre' post',
          s = pre' ++ pat ++ post' -> length pre <= length pre').
Proof.
  induction s as [|c s IH]; intros H; rewrite includes_unfold in H;
    cbn [replaceFirst].
  - rewrite orb_false_r in H. rewrite H.
    exists [], (skipn (length pat) []).
    split; [now apply startsWith_split|].
    split; [reflexivity|]. intros. cbn. lia.
  - destruct (startsWith pat (c :: s)) eqn:Hs.
    + exists [], (skipn (length pat) (c :: s)).
      split; [now apply startsWith_split|].
      split; [reflexivity|]. intros. cbn. lia.
    + cbn [orb] in H. destruct (IH H) as (pre & post & E & Hrep & Hmin).
      exists (c :: pre), post. cbn [app].
      split; [now rewrite <- E|]. split; [now rewrite Hrep|].
      intros pre' post' E'. destruct pre' as [|c' pre'].
      * cbn [app] in E'. rewrite E', startsWith_app in Hs. discriminate.
      * cbn [app] in E'. injection E' as _ E'. cbn [length].
        specialize (Hmin pre' post' E'). lia.
Qed.

(** X13.  With breaking requested, a message that holds a blank-line pair and
    no BREAKING CHANGE marker gets the marker right after its first
    blank-line pair; the text before and after is kept.  Without the
    request the message passes unchanged. *)
Theorem addBreakingChange_inserts (message : jsstring) :
  (includes message BREAKING_CHANGE = false ->
   includes message blankLine = true ->
   exists pre post,
     message = pre ++ blankLine ++ post
     /\ (forall pre' post',
           message = pre' ++ blankLine ++ post' ->
           length pre <= length pre')
     /\ addBreakingChange true message
        = pre ++ blankLine ++ lit "BREAKING CHANGE: " ++ post) /\
  addBreakingChange false message = message.
Proof.
  split; [|reflexivity]. intros Hmark Hblank.
  destruct (replaceFirst_first message blankLine
              (blankLine ++ lit "BREAKING CHANGE: ") Hblank)
    as (pre & post & E & Hrep & Hmin).
  exists pre, post. split; [exact E|]. split; [exact Hmin|].
  unfold addBreakingChange. rewrite Hmark. cbn [andb negb].
  rewrite Hrep. now rewrite <- !app_assoc.
Qed.

Definition bodyDraft : jsstring :=
  lit "feat: drop v1" ++ blankLine ++ lit "The old api is removed."
    ++ blankLine ++ lit "Refs: #7".

Lemma addBreakingChange_inserts_witness :
  exists pre post,
    bodyDraft = pre ++ blankLine ++ post
    /\ (forall pre' post',
          bodyDraft = pre' ++ blankLine ++ post' ->
          length pre <= length pre')
    /\ addBreakingChange true bodyDraft
       = pre ++ blankLine ++ lit "BREAKING CHANGE: " ++ post.
Proof.
  destruct (addBreakingChange_inserts bodyDraft) as [Hinsert _].
  apply Hinsert; reflexivity.
Defined.

Example addBreakingChange_body :
  addBreakingChange true bodyDraft
  = lit "feat: drop v1" ++ blankLine
      ++ lit "BREAKING CHANGE: The old api is removed."
      ++ blankLine ++ lit "Refs: #7".
Proof. reflexivity. Qed.

End FormatMore.

Module ServiceMore.
Import Format Service ServiceFacts.

(** *** The prompt *)

(** X15.  The prompt always ends with a blank line, the line [Git diff:] and
    the whole diff; with a custom prompt, what stands before is the custom
    prompt alone, whatever the other options. *)
Theorem buildPrompt_ends_with_diff (options : GenerateMessageOptions) :
  exists head,
    buildPrompt options
    = head ++ LF ++ LF ++ lit "Git diff:" ++ LF ++ diff options
    /\ (truthyKey (customPrompt options) = true ->
        head = orEmpty (customPrompt options)).
Proof.
  unfold buildPrompt.
  destruct (truthyKey (customPrompt options)).
  - exists (orEmpty (customPrompt options)). split; reflexivity.
  - eexists. split; [reflexivity|discriminate].
Qed.

(** *** The requests a computation sends *)

(** [sends n c]: the computation [c] keeps the requests recorded so far
    and adds at most [n]. *)
Definition sends {A} (n : nat) (c : M A) : Prop :=
  forall st, exists l,
    requests (snd (c st)) = requests st ++ l /\ length l <= n.

Lemma sends_weaken {A} (n m : nat) (c : M A) :
  n <= m -> sends n c -> sends m c.
Proof.
  intros Hle H st. destruct (H st) as (l & E & Hl). exists l.
  split; [exact E|lia].
Qed.

Lemma sends_ret {A} (a : A) : sends 0 (ret a).
Proof. intros st. exists []. cbn. now rewrite app_nil_r. Qed.

Lemma sends_throw {A} (message : jsstring) : sends 0 (@throw A message).
Proof. intros st. exists []. cbn. now rewrite app_nil_r. Qed.

Lemma sends_gets {A} (f : State -> A) : sends 0 (gets f).
Proof. intros st. exists []. cbn. now rewrite app_nil_r. Qed.

Lemma sends_modify (f : State -> State) :
  (forall st, requests (f st) = requests st) -> sends 0 (modify f).
Proof.
  intros Hf st. exists []. cbn. now rewrite Hf, app_nil_r.
Qed.

Lemma sends_bind {A B} (n m : nat) (c : M A) (k : A -> M B) :
  sends n c -> (forall a, sends m (k a)) -> sends (n + m) (bind c k).
Proof.
  intros Hc Hk st. unfold bind.
  destruct (Hc st) as (l1 & E1 & H1).
  destruct (c st) as [[a|message] st1]; cbn [snd] in *.
  - destruct (Hk a st1) as (l2 & E2 & H2).
    exists (l1 ++ l2). rewrite E2, E1, <- app_assoc, length_app.
    split; [reflexivity|lia].
  - exists l1. split; [exact E1|lia].
Qed.

Lemma sends_tryCatch {A} (n m : nat) (c : M A) (h : jsstring -> M A) :
  sends n c -> (forall e, sends m (h e)) -> sends (n + m) (tryCatch c h).
Proof.
  intros Hc Hh st. unfold tryCatch.
  destruct (Hc st) as (l1 & E1 & H1).
  destruct (c st) as [[a|message] st1]; cbn [snd] in *.
  - exists l1. split; [exact E1|lia].
  - destruct (Hh message st1) as (l2 & E2 & H2).
    exists (l1 ++ l2). rewrite E2, E1, <- app_assoc, length_app.
    split; [reflexivity|lia].
Qed.

Lemma sends_when (n : nat) (b : bool) (c : M unit) :
  sends n c -> sends n (when b c).
Proof.
  intros Hc. unfold when. destruct b; [exact Hc|].
  apply (sends_weaken 0 n); [lia|apply sends_ret].
Qed.

Lemma sends_prompt : sends 0 prompt.
Proof. apply sends_modify. reflexivity. Qed.

Lemma sends_setupInitialConfig : sends 0 setupInitialConfig.
Proof.
  unfold setupInitialConfig.
  repeat (apply (sends_bind 0 0); [apply sends_prompt|intros _]).
  apply (sends_bind 0 0); [apply sends_gets|intros answers].
  apply (sends_bind 0 0); [apply sends_gets|intros failure].
  destruct failure; [apply sends_throw|].
  apply (sends_bind 0 0); [now apply sends_modify|intros _].
  apply sends_ret.
Qed.

Lemma sends_ensureConfig : sends 0 ensureConfig.
Proof.
  unfold ensureConfig.
  apply (sends_bind 0 0); [apply sends_gets|intros file].
  destruct file as [config|]; [|apply sends_setupInitialConfig].
  destruct (negb (truthyKey (GEMINI_API_KEY config))
            && negb (truthyKey (OPENAI_API_KEY config)));
    [apply sends_setupInitialConfig|apply sends_ret].
Qed.

Lemma sends_saveConfig (config : Config) : sends 0 (saveConfig config).
Proof.
  unfold saveConfig.
  apply (sends_bind 0 0); [apply sends_gets|intros failure].
  destruct failure; [apply sends_throw|now apply sends_modify].
Qed.

Lemma sends_initializeService : sends 0 initializeService.
Proof.
  unfold initializeService.
  apply (sends_bind 0 0); [apply sends_ensureConfig|intros config].
  apply (sends_bind 0 0); [now apply sends_modify|intros _].
  apply (sends_bind 0 0); [apply sends_gets|intros e].
  destruct (orKey (configKey config) (envKey config e)) as [key|];
    [|apply sends_throw].
  destruct (truthy key); [now apply sends_modify|apply sends_throw].
Qed.

Lemma sends_send (r : request) : sends 1 (send r).
Proof.
  unfold send.
  apply (sends_bind 1 0).
  - intros st. exists [r]. cbn. split; [reflexivity|lia].
  - intros _. apply (sends_bind 0 0); [now apply sends_modify|intros _].
    apply sends_gets.
Qed.

Lemma sends_generateContent (svc : BaseAIService) (prompt : jsstring) :
  sends 1 (generateContent svc prompt).
Proof.
  unfold generateContent.
  destruct (provider svc), (client svc) as [config|];
    try (apply (sends_weaken 0 1); [lia|apply sends_throw]).
  - apply (sends_bind 1 0); [apply sends_send|intros answer].
    destruct answer; [apply sends_ret|apply sends_throw].
  - apply (sends_bind 1 0); [apply sends_send|intros answer].
    destruct answer as [text|message]; [|apply sends_throw].
    destruct (truthy text); [apply sends_ret|apply sends_throw].
Qed.

(** X16.  Whatever the state and the options, a call of
    [generateCommitMessage] keeps the requests recorded before it and
    sends one request at most. *)
Theorem generateCommitMessage_one_request
    (toLowerCase : jsstring -> jsstring) (options : GenerateMessageOptions)
    (st : State) :
  exists l,
    requests (snd (generateCommitMessage toLowerCase options st))
    = requests st ++ l /\ length l <= 1.
Proof.
  revert st. change (sends 1 (generateCommitMessage toLowerCase options)).
  unfold generateCommitMessage.
  apply (sends_tryCatch 1 0); [|intros e; apply sends_throw].
  unfold generateCommitMessage_try.
  apply (sends_bind 0 1); [apply sends_gets|intros current].
  apply (sends_bind 0 1).
  { destruct current; [apply sends_ret|apply sends_initializeService]. }
  intros _.
  apply (sends_bind 0 1); [apply sends_ensureConfig|intros config].
  apply (sends_bind 0 1).
  { apply sends_when. apply (sends_bind 0 0); [apply sends_gets|].
    intros now_.
    destruct (now_ - orZero (LAST_REQUEST_TIME config) <? 60000)%Z;
      [apply sends_throw|apply sends_ret]. }
  intros _.
  apply (sends_bind 0 1); [apply sends_gets|intros current'].
  destruct current' as [svc|];
    [|apply (sends_weaken 0 1); [lia|apply sends_throw]].
  apply (sends_bind 1 0); [apply sends_generateContent|intros message].
  apply (sends_bind 0 0); [|intros _; apply sends_ret].
  apply sends_when.
  apply (sends_bind 0 0); [apply sends_gets|intros now_].
  apply sends_saveConfig.
Qed.

(** *** A call that goes through *)

(** The model [initializeService] picks, the service it creates with a key,
    and the request [generateCommitMessage] then sends. *)
Definition initialModel (config : Config) : jsstring :=
  orDefault (MODEL config)
    (match AI_PROVIDER config with
     | gemini => lit "gemini-2.0-flash"
     | openai => lit "gpt-4.1-nano"
     end).

Definition serviceFor (config : Config) (key : jsstring) : BaseAIService :=
  {| provider := AI_PROVIDER config;
     client := Some {| apiKey := key;
                       isFreeAccount := IS_FREE_ACCOUNT config;
                       model := initialModel config |} |}.

Definition requestOf (svc : BaseAIService) (prompt : jsstring) : request :=
  {| req_provider := provider svc;
     req_model :=
       orDefault (match client svc with
                  | Some mc => Some (model mc)
                  | None => None
                  end)
         (match provider svc with
          | gemini => lit "gemini-2.0-flash"
          | openai => lit "gpt-4o-min"
          end);
     req_prompt := prompt |}.

Lemma initializeService_exact (st : State) (config : Config)
    (key : jsstring) :
  configFile st = Some config -> complete_file config = true ->
  orKey (configKey config) (envKey config (env st)) = Some key ->
  truthy key = true ->
  initializeService st
  = (Return tt, with_service (Some (serviceFor config key)) st).
Proof.
  intros Hfile Hkeys Hkey Htruthy. unfold initializeService.
  unfold bind at 1. rewrite (ensureConfig_file st config Hfile Hkeys).
  unfold bind, modify, gets. cbn [env with_service].
  rewrite Hkey, Htruthy. reflexivity.
Qed.

(** The state after a request has been sent. *)
Definition afterRequest (r : request) (st : State) : State :=
  with_clock (suspend 0 (clock st)) (with_requests (requests st ++ [r]) st).

Lemma send_exact (r : request) (st : State) :
  send r st = (Return (complete st r), afterRequest r st).
Proof. reflexivity. Qed.

(** What the provider service makes of a reply. *)
Definition accepted (svc : BaseAIService) (answer : reply) : option jsstring :=
  match answer, provider svc with
  | Answered text, gemini => Some text
  | Answered text, openai => if truthy text then Some text else None
  | Failed _, _ => None
  end.

Lemma generateContent_accepted (svc : BaseAIService) (prompt text : jsstring)
    (st : State) :
  client svc <> None ->
  accepted svc (complete st (requestOf svc prompt)) = Some text ->
  generateContent svc prompt st
  = (Return text, afterRequest (requestOf svc prompt) st).
Proof.
  intros Hclient Hreply. unfold generateContent, requestOf, accepted in *.
  destruct (provider svc), (client svc) as [mc|]; try congruence;
    unfold bind; rewrite send_exact;
    match goal with
    | H : context [complete st ?r] |- context [complete st ?r'] =>
        change r' with r; destruct (complete st r) as [t|e]
    end; try discriminate.
  - now injection Hreply as ->.
  - destruct (truthy t); [now injection Hreply as ->|discriminate].
Qed.

(** The state a successful call leaves. *)
Definition afterSuccess (config : Config) (r : request) (st : State)
  : State :=
  if IS_FREE_ACCOUNT config
  then with_configFile
         (Some (set_LAST_REQUEST_TIME (now (clock (afterRequest r st)))
                  config))
         (afterRequest r st)
  else afterRequest r st.

Definition notLimited (config : Config) (st : State) : Prop :=
  IS_FREE_ACCOUNT config = false
  \/ (60000 <= now (clock st) - orZero (LAST_REQUEST_TIME config))%Z.

Lemma try_ready (toLowerCase : jsstring -> jsstring)
    (options : GenerateMessageOptions) (st : State) (config : Config)
    (svc : BaseAIService) (text : jsstring) :
  service st = Some svc -> client svc <> None ->
  configFile st = Some config -> complete_file config = true ->
  notLimited config st ->
  accepted svc (complete st (requestOf svc (buildPrompt options)))
    = Some text ->
  writeError st = None ->
  generateCommitMessage_try toLowerCase options st
  = (Return (formatMessage toLowerCase (scope options) (breaking options)
               (ref options) text),
     afterSuccess config (requestOf svc (buildPrompt options)) st).
Proof.
  intros Hsvc Hclient Hfile Hkeys Hlimit Hreply Hwrite.
  unfold generateCommitMessage_try.
  unfold bind at 1. unfold gets at 1. rewrite Hsvc.
  unfold bind at 1. unfold ret at 1.
  unfold bind at 1. rewrite (ensureConfig_file st config Hfile Hkeys).
  unfold bind at 1.
  assert (Hcheck :
            when (IS_FREE_ACCOUNT config)
              (now_ <- dateNow ;;
               (if (now_ - orZero (LAST_REQUEST_TIME config) <? 60000)%Z
                then throw rateLimitMessage
                else ret tt)) st = (Return tt, st)).
  { unfold when. destruct Hlimit as [Hpaid|Hold].
    - now rewrite Hpaid.
    - destruct (IS_FREE_ACCOUNT config); [|reflexivity].
      unfold bind, dateNow, gets.
      destruct (Z.ltb_spec (now (clock st)
                            - orZero (LAST_REQUEST_TIME config)) 60000);
        [lia|reflexivity]. }
  rewrite Hcheck.
  unfold bind at 1. unfold gets at 1. rewrite Hsvc.
  unfold bind at 1.
  rewrite (generateContent_accepted svc (buildPrompt options) text st
             Hclient Hreply).
  unfold afterSuccess, bind, when.
  destruct (IS_FREE_ACCOUNT config); [|reflexivity].
  unfold dateNow, gets, saveConfig, bind, gets, modify, ret.
  cbn [writeError afterRequest with_clock with_requests].
  rewrite Hwrite. reflexivity.
Qed.

Section Calls.

Variable toLowerCase : jsstring -> jsstring.
Variable options : GenerateMessageOptions.
Variable st : State.
Variable config : Config.
Variable key : jsstring.

(** A fresh AIService, a configuration file that holds a key, and a key
    for the selected provider. *)
Hypothesis fresh : service st = None.
Hypothesis file : configFile st = Some config.
Hypothesis keys : complete_file config = true.
Hypothesis found :
  orKey (configKey config) (envKey config (env st)) = Some key.
Hypothesis nonempty : truthy key = true.

Let svc : BaseAIService := serviceFor config key.
Let r : request := requestOf svc (buildPrompt options).
Let ready : State := with_service (Some svc) st.

Lemma try_fresh :
  generateCommitMessage_try toLowerCase options st
  = generateCommitMessage_try toLowerCase options ready.
Proof.
  unfold generateCommitMessage_try at 2.
  unfold bind at 1. unfold gets at 1. cbn [service ready with_service].
  unfold bind at 1. unfold ret at 1.
  unfold generateCommitMessage_try.
  unfold bind at 1. unfold gets at 1. rewrite fresh.
  unfold bind at 1.
  now rewrite (initializeService_exact st config key file keys found
                 nonempty).
Qed.

Lemma call_succeeds (text : jsstring) :
  notLimited config st ->
  accepted svc (complete st r) = Some text ->
  writeError st = None ->
  generateCommitMessage toLowerCase options st
  = (Return (formatMessage toLowerCase (scope options) (breaking options)
               (ref options) text),
     afterSuccess config r ready).
Proof.
  intros Hlimit Hreply Hwrite.
  unfold generateCommitMessage, tryCatch. rewrite try_fresh.
  now rewrite (try_ready toLowerCase options ready config svc text).
Qed.

End Calls.

(** X17.  On a fresh service with a key, outside the rate limit, when the
    provider answers and the configuration file can be written: the call
    returns the formatted answer, it has sent exactly one request, which
    carries the prompt, and on a free account the configuration file now
    holds the time after the request as the last-request time (on a paid
    account it is as before). *)
Theorem generateCommitMessage_succeeds
    (toLowerCase : jsstring -> jsstring) (options : GenerateMessageOptions)
    (st : State) (config : Config) (key text : jsstring) :
  service st = None ->
  configFile st = Some config -> complete_file config = true ->
  orKey (configKey config) (envKey config (env st)) = Some key ->
  truthy key = true ->
  notLimited config st ->
  accepted (serviceFor config key)
    (complete st (requestOf (serviceFor config key) (buildPrompt options)))
    = Some text ->
  writeError st = None ->
  fst (generateCommitMessage toLowerCase options st)
    = Return (formatMessage toLowerCase (scope options) (breaking options)
                (ref options) text) /\
  requests (snd (generateCommitMessage toLowerCase options st))
    = requests st
        ++ [requestOf (serviceFor config key) (buildPrompt options)] /\
  req_prompt (requestOf (serviceFor config key) (buildPrompt options))
    = buildPrompt options /\
  configFile (snd (generateCommitMessage toLowerCase options st))
    = (if IS_FREE_ACCOUNT config
       then Some (set_LAST_REQUEST_TIME
                    (now (clock (snd (generateCommitMessage toLowerCase
                                        options st))))
                    config)
       else Some config).
Proof.
  intros Hfresh Hfile Hkeys Hfound Hkey Hlimit Hreply Hwrite.
  rewrite (call_succeeds toLowerCase options st config key Hfresh Hfile
             Hkeys Hfound Hkey text Hlimit Hreply Hwrite).
  cbn [fst snd]. unfold afterSuccess.
  destruct (IS_FREE_ACCOUNT config); repeat split; try reflexivity.
  cbn. exact Hfile.
Qed.

(** X18.  After such a call on a free account, a second call made less than
    60000 ms later is rejected with the rate-limit message and sends
    nothing, whatever its options. *)
Theorem second_call_rate_limited
    (toLowerCase : jsstring -> jsstring)
    (options options' : GenerateMessageOptions)
    (st : State) (config : Config) (key text : jsstring)
    (d : Z) (late : list N) :
  service st = None ->
  configFile st = Some config -> complete_file config = true ->
  orKey (configKey config) (envKey config (env st)) = Some key ->
  truthy key = true ->
  IS_FREE_ACCOUNT config = true ->
  notLimited config st ->
  accepted (serviceFor config key)
    (complete st (requestOf (serviceFor config key) (buildPrompt options)))
    = Some text ->
  writeError st = None ->
  (d < 60000)%Z ->
  fst (generateCommitMessage toLowerCase options'
         (with_clock
            {| now := now (clock (snd (generateCommitMessage toLowerCase
                                         options st))) + d;
               lateness := late |}
            (snd (generateCommitMessage toLowerCase options st))))
    = Throw (failurePrefix ++ rateLimitMessage) /\
  requests
    (snd (generateCommitMessage toLowerCase options'
            (with_clock
               {| now := now (clock (snd (generateCommitMessage toLowerCase
                                            options st))) + d;
                  lateness := late |}
               (snd (generateCommitMessage toLowerCase options st)))))
    = requests (snd (generateCommitMessage toLowerCase options st)).
Proof.
  intros Hfresh Hfile Hkeys Hfound Hkey Hfree Hlimit Hreply Hwrite Hd.
  rewrite (call_succeeds toLowerCase options st config key Hfresh Hfile
             Hkeys Hfound Hkey text Hlimit Hreply Hwrite).
  cbn [snd].
  unfold afterSuccess. rewrite Hfree.
  set (svc := serviceFor config key).
  set (r := requestOf svc (buildPrompt options)).
  set (ready := with_service (Some svc) st).
  set (t := now (clock (afterRequest r ready))).
  set (st1 := with_configFile (Some (set_LAST_REQUEST_TIME t config))
                (afterRequest r ready)).
  set (st2 := with_clock {| now := now (clock st1) + d; lateness := late |}
                st1).
  assert (Htry : generateCommitMessage_try toLowerCase options' st2
                 = (Throw rateLimitMessage, st2)).
  { apply (rate_limit_check toLowerCase options' st2
             (set_LAST_REQUEST_TIME t config) svc).
    - reflexivity.
    - reflexivity.
    - exact Hkeys.
    - exact Hfree.
    - cbn. subst t. cbn. lia. }
  unfold generateCommitMessage, tryCatch. rewrite Htry.
  split; reflexivity.
Qed.

Lemma generateCommitMessage_succeeds_witness :
  fst (generateCommitMessage noCaseMapping sampleOptions
         (freshState (geminiFree 0) 5000000))
    = Return (formatMessage noCaseMapping (scope sampleOptions)
                (breaking sampleOptions) (ref sampleOptions)
                (lit "feat: add x")) /\
  requests (snd (generateCommitMessage noCaseMapping sampleOptions
                   (freshState (geminiFree 0) 5000000)))
    = requests (freshState (geminiFree 0) 5000000)
        ++ [requestOf (serviceFor (geminiFree 0) (lit "g-key"))
              (buildPrompt sampleOptions)] /\
  req_prompt (requestOf (serviceFor (geminiFree 0) (lit "g-key"))
                (buildPrompt sampleOptions))
    = buildPrompt sampleOptions /\
  configFile (snd (generateCommitMessage noCaseMapping sampleOptions
                     (freshState (geminiFree 0) 5000000)))
    = (if IS_FREE_ACCOUNT (geminiFree 0)
       then Some (set_LAST_REQUEST_TIME
                    (now (clock (snd (generateCommitMessage noCaseMapping
                                        sampleOptions
                                        (freshState (geminiFree 0)
                                           5000000)))))
                    (geminiFree 0))
       else Some (geminiFree 0)).
Proof.
  apply (generateCommitMessage_succeeds noCaseMapping sampleOptions
           (freshState (geminiFree 0) 5000000) (geminiFree 0)
           (lit "g-key") (lit "feat: add x")).
  - reflexivity.
  - reflexivity.
  - reflexivity.
  - reflexivity.
  - reflexivity.
  - right. vm_compute. discriminate.
  - reflexivity.
  - reflexivity.
Defined.

Lemma second_call_rate_limited_witness :
  fst (generateCommitMessage noCaseMapping sampleOptions
         (with_clock
            {| now := now (clock (snd (generateCommitMessage noCaseMapping
                                         sampleOptions
                                         (freshState (geminiFree 0)
                                            5000000)))) + 30000;
               lateness := [] |}
            (snd (generateCommitMessage noCaseMapping sampleOptions
                    (freshState (geminiFree 0) 5000000)))))
    = Throw (failurePrefix ++ rateLimitMessage) /\
  requests
    (snd (generateCommitMessage noCaseMapping sampleOptions
            (with_clock
               {| now := now (clock (snd (generateCommitMessage
                                            noCaseMapping sampleOptions
                                            (freshState (geminiFree 0)
                                               5000000)))) + 30000;
                  lateness := [] |}
               (snd (generateCommitMessage noCaseMapping sampleOptions
                       (freshState (geminiFree 0) 5000000))))))
    = requests (snd (generateCommitMessage noCaseMapping sampleOptions
                       (freshState (geminiFree 0) 5000000))).
Proof.
  apply (second_call_rate_limited noCaseMapping sampleOptions sampleOptions
           (freshState (geminiFree 0) 5000000) (geminiFree 0)
           (lit "g-key") (lit "feat: add x") 30000 []).
  - reflexivity.
  - reflexivity.
  - reflexivity.
  - reflexivity.
  - reflexivity.
  - reflexivity.
  - right. vm_compute. discriminate.
  - reflexivity.
  - reflexivity.
  - reflexivity.
Defined.

(** *** A provider that fails *)

(** The message with which the provider service rejects an answer. *)
Definition rejection (svc : BaseAIService) (answer : reply)
  : option jsstring :=
  match answer, provider svc with
  | Failed e, gemini => Some (lit "Gemini API error: " ++ e)
  | Failed e, openai => Some (lit "OpenAI API error: " ++ e)
  | Answered text, openai =>
      if truthy text then None
      else Some (lit "OpenAI API error: No response from OpenAI")
  | Answered _, gemini => None
  end.

Lemma generateContent_rejected (svc : BaseAIService)
    (prompt message : jsstring) (st : State) :
  client svc <> None ->
  rejection svc (complete st (requestOf svc prompt)) = Some message ->
  generateContent svc prompt st
  = (Throw message, afterRequest (requestOf svc prompt) st).
Proof.
  intros Hclient Hreply. unfold generateContent, requestOf, rejection in *.
  destruct (provider svc), (client svc) as [mc|]; try congruence;
    unfold bind; rewrite send_exact;
    match goal with
    | H : context [complete st ?r] |- context [complete st ?r'] =>
        change r' with r; destruct (complete st r) as [t|e]
    end; try discriminate.
  - now injection Hreply as <-.
  - destruct (truthy t); [discriminate|now injection Hreply as <-].
  - now injection Hreply as <-.
Qed.

(** X19.  On a fresh service with a key, outside the rate limit, when the
    provider fails or, for OpenAI, answers nothing: the call rejects with
    the provider's message behind the prefix of every failure; the
    request has been sent, and the configuration file is not written, so
    that on a free account the last-request time stays as it was. *)
Theorem generateCommitMessage_provider_failure
    (toLowerCase : jsstring -> jsstring) (options : GenerateMessageOptions)
    (st : State) (config : Config) (key message : jsstring) :
  service st = None ->
  configFile st = Some config -> complete_file config = true ->
  orKey (configKey config) (envKey config (env st)) = Some key ->
  truthy key = true ->
  notLimited config st ->
  rejection (serviceFor config key)
    (complete st (requestOf (serviceFor config key) (buildPrompt options)))
    = Some message ->
  fst (generateCommitMessage toLowerCase options st)
    = Throw (failurePrefix ++ message) /\
  requests (snd (generateCommitMessage toLowerCase options st))
    = requests st
        ++ [requestOf (serviceFor config key) (buildPrompt options)] /\
  configFile (snd (generateCommitMessage toLowerCase options st))
    = configFile st.
Proof.
  intros Hfresh Hfile Hkeys Hkey Htruthy Hlimit Hreply.
  set (svc := serviceFor config key) in *.
  set (ready := with_service (Some svc) st).
  assert (Htry : generateCommitMessage_try toLowerCase options st
                 = (Throw message,
                    afterRequest (requestOf svc (buildPrompt options))
                      ready)).
  { rewrite (try_fresh toLowerCase options st config key Hfresh Hfile
               Hkeys Hkey Htruthy).
    fold svc. fold ready. unfold generateCommitMessage_try.
    unfold bind at 1. unfold gets at 1. cbn [service ready with_service].
    unfold bind at 1. unfold ret at 1.
    unfold bind at 1.
    rewrite (ensureConfig_file ready config Hfile Hkeys).
    unfold bind at 1.
    assert (Hcheck :
              when (IS_FREE_ACCOUNT config)
                (now_ <- dateNow ;;
                 (if (now_ - orZero (LAST_REQUEST_TIME config) <? 60000)%Z
                  then throw rateLimitMessage
                  else ret tt)) ready = (Return tt, ready)).
    { unfold when. destruct Hlimit as [Hpaid|Hold].
      - now rewrite Hpaid.
      - destruct (IS_FREE_ACCOUNT config); [|reflexivity].
        unfold bind, dateNow, gets. cbn [clock ready with_service].
        destruct (Z.ltb_spec (now (clock st)
                              - orZero (LAST_REQUEST_TIME config)) 60000);
          [lia|reflexivity]. }
    rewrite Hcheck.
    unfold bind at 1. unfold gets at 1. cbn [service ready with_service].
    unfold bind at 1.
    now rewrite (generateContent_rejected svc (buildPrompt options) message
                   ready) by (try discriminate; exact Hreply). }
  unfold generateCommitMessage, tryCatch. rewrite Htry.
  repeat split.
Qed.

Definition failingState : State :=
  {| service := None;
     clock := {| now := 5000000; lateness := [] |};
     env := {| env_GEMINI_API_KEY := None; env_OPENAI_API_KEY := None |};
     configFile := Some (geminiFree 0);
     setupAnswers := {| answer_provider := gemini;
                        answer_model := lit "gemini-2.0-flash";
                        answer_API_KEY := lit "g-key";
                        answer_IS_FREE_ACCOUNT := true |};
     complete := fun _ => Failed (lit "quota exceeded");
     requests := [];
     writeError := None |}.

Lemma generateCommitMessage_provider_failure_witness :
  fst (generateCommitMessage noCaseMapping sampleOptions failingState)
    = Throw (failurePrefix
               ++ lit "Gemini API error: " ++ lit "quota exceeded") /\
  requests (snd (generateCommitMessage noCaseMapping sampleOptions
                   failingState))
    = requests failingState
        ++ [requestOf (serviceFor (geminiFree 0) (lit "g-key"))
              (buildPrompt sampleOptions)] /\
  configFile (snd (generateCommitMessage noCaseMapping sampleOptions
                     failingState))
    = configFile failingState.
Proof.
  apply (generateCommitMessage_provider_failure noCaseMapping sampleOptions
           failingState (geminiFree 0) (lit "g-key")).
  - reflexivity.
  - reflexivity.
  - reflexivity.
  - reflexivity.
  - reflexivity.
  - right. vm_compute. discriminate.
  - reflexivity.
Defined.

(** *** After a failed initialisation *)

Definition with_env (v : Env) (st : State) : State :=
  {| service := service st; clock := clock st; env := v;
     configFile := configFile st; setupAnswers := setupAnswers st;
     complete := complete st; requests := requests st;
     writeError := writeError st |}.

Definition notInitialized (p : AIProvider) : jsstring :=
  match p with
  | gemini => lit "Gemini model not initialized"
  | openai => lit "OpenAI client not initialized"
  end.

Lemma try_stale (toLowerCase : jsstring -> jsstring)
    (options : GenerateMessageOptions) (st : State) (config : Config)
    (svc : BaseAIService) :
  service st = Some svc -> client svc = None ->
  configFile st = Some config -> complete_file config = true ->
  notLimited config st ->
  generateCommitMessage_try toLowerCase options st
  = (Throw (notInitialized (provider svc)), st).
Proof.
  intros Hsvc Hclient Hfile Hkeys Hlimit.
  unfold generateCommitMessage_try.
  unfold bind at 1. unfold gets at 1. rewrite Hsvc.
  unfold bind at 1. unfold ret at 1.
  unfold bind at 1. rewrite (ensureConfig_file st config Hfile Hkeys).
  unfold bind at 1.
  assert (Hcheck :
            when (IS_FREE_ACCOUNT config)
              (now_ <- dateNow ;;
               (if (now_ - orZero (LAST_REQUEST_TIME config) <? 60000)%Z
                then throw rateLimitMessage
                else ret tt)) st = (Return tt, st)).
  { unfold when. destruct Hlimit as [Hpaid|Hold].
    - now rewrite Hpaid.
    - destruct (IS_FREE_ACCOUNT config); [|reflexivity].
      unfold bind, dateNow, gets.
      destruct (Z.ltb_spec (now (clock st)
                            - orZero (LAST_REQUEST_TIME config)) 60000);
        [lia|reflexivity]. }
  rewrite Hcheck.
  unfold bind at 1. unfold gets at 1. rewrite Hsvc.
  unfold bind at 1. unfold generateContent. rewrite Hclient.
  now destruct (provider svc).
Qed.

(** X21.  The provider service is created before the key is looked for.  So
    when a first call has failed for want of a key, a later call on the
    same AIService does not initialise again: outside the rate limit it
    rejects with the provider's not-initialized message and sends nothing,
    even when the key has been put into the environment since. *)
Theorem generateCommitMessage_after_missing_key
    (toLowerCase : jsstring -> jsstring)
    (options options' : GenerateMessageOptions) (st : State)
    (config : Config) (e' : Env) :
  service st = None ->
  configFile st = Some config -> complete_file config = true ->
  truthyKey (orKey (configKey config) (envKey config (env st))) = false ->
  notLimited config st ->
  fst (generateCommitMessage toLowerCase options'
         (with_env e' (snd (generateCommitMessage toLowerCase options st))))
    = Throw (failurePrefix ++ notInitialized (AI_PROVIDER config)) /\
  requests
    (snd (generateCommitMessage toLowerCase options'
            (with_env e'
               (snd (generateCommitMessage toLowerCase options st)))))
    = requests st.
Proof.
  intros Hfresh Hfile Hkeys Hkey Hlimit.
  assert (Hfirst : generateCommitMessage_try toLowerCase options st
                   = (Throw (noKeyMessage (AI_PROVIDER config)),
                      with_service
                        (Some {| provider := AI_PROVIDER config;
                                 client := None |}) st)).
  { unfold generateCommitMessage_try.
    unfold bind at 1. unfold gets at 1. rewrite Hfresh.
    unfold bind at 1.
    now rewrite (initializeService_no_key st config Hfile Hkeys Hkey). }
  assert (Hstate : snd (generateCommitMessage toLowerCase options st)
                   = with_service
                       (Some {| provider := AI_PROVIDER config;
                                client := None |}) st).
  { unfold generateCommitMessage, tryCatch. now rewrite Hfirst. }
  rewrite Hstate.
  set (st1 := with_env e'
                (with_service
                   (Some {| provider := AI_PROVIDER config;
                            client := None |}) st)).
  unfold generateCommitMessage, tryCatch.
  rewrite (try_stale toLowerCase options' st1 config
             {| provider := AI_PROVIDER config; client := None |}
             eq_refl eq_refl Hfile Hkeys Hlimit).
  split; reflexivity.
Qed.

Lemma generateCommitMessage_after_missing_key_witness :
  fst (generateCommitMessage noCaseMapping sampleOptions
         (with_env
            {| env_GEMINI_API_KEY := Some (lit "g-key");
               env_OPENAI_API_KEY := None |}
            (snd (generateCommitMessage noCaseMapping sampleOptions
                    (freshState (geminiWithoutKey false None) 5000000)))))
    = Throw (failurePrefix ++ notInitialized gemini) /\
  requests
    (snd (generateCommitMessage noCaseMapping sampleOptions
            (with_env
               {| env_GEMINI_API_KEY := Some (lit "g-key");
                  env_OPENAI_API_KEY := None |}
               (snd (generateCommitMessage noCaseMapping sampleOptions
                       (freshState (geminiWithoutKey false None)
                          5000000))))))
    = requests (freshState (geminiWithoutKey false None) 5000000).
Proof.
  apply (generateCommitMessage_after_missing_key noCaseMapping sampleOptions
           sampleOptions (freshState (geminiWithoutKey false None) 5000000)
           (geminiWithoutKey false None)).
  - reflexivity.
  - reflexivity.
  - reflexivity.
  - reflexivity.
  - left. reflexivity.
Defined.

End ServiceMore.

(** ** setApiKey and setModel *)

Module ConfigMore.
Import JS Service ConfigCmd ServiceFacts.

Definition current (st : State) : Config :=
  match configFile st with
  | Some config => config
  | None => getDefaultConfig
  end.

Definition defaultModel (p : AIProvider) : jsstring :=
  match p with
  | gemini => lit "gemini-2.0-flash"
  | openai => lit "gpt-4.1-nano"
  end.

Lemma sameString_true (a b : jsstring) : sameString a b = true <-> a = b.
Proof.
  unfold sameString. destruct (list_eq_dec N.eq_dec a b); split; congruence.
Qed.

Lemma isValidModel_In (model : jsstring) (models : list jsstring) :
  existsb (fun validModel => sameString validModel model) models = true
  <-> In model models.
Proof.
  rewrite existsb_exists. split.
  - intros [v [Hin Heq]]. apply sameString_true in Heq. now subst v.
  - intros Hin. exists model. split; [assumption|]. now apply sameString_true.
Qed.

(** Lines 172 to 192, a provider given: the file then names that provider
    and holds the key for it alone, the rest of it is kept. *)
Lemma setApiKey_file (key : jsstring) (p : AIProvider) (st : State) :
  writeError st = None ->
  setApiKey key (Some p) st
  = (Return tt,
     with_configFile
       (Some
          {| AI_PROVIDER := p;
             GEMINI_API_KEY :=
               match p with gemini => Some key | openai => None end;
             OPENAI_API_KEY :=
               match p with gemini => None | openai => Some key end;
             IS_FREE_ACCOUNT := IS_FREE_ACCOUNT (current st);
             LAST_REQUEST_TIME := LAST_REQUEST_TIME (current st);
             MODEL := MODEL (current st) |}) st).
Proof.
  intros Hwrite.
  unfold setApiKey, currentConfig, readConfig, saveConfig, bind, gets, ret,
    modify, current.
  rewrite Hwrite. destruct p; reflexivity.
Qed.

Lemma initializeService_stored_key
    (key : jsstring) (p : AIProvider) (st : State) :
  truthy key = true ->
  writeError st = None ->
  initializeService (snd (setApiKey key (Some p) st))
  = (Return tt,
     with_service
       (Some {| provider := p;
                client :=
                  Some {| apiKey := key;
                          isFreeAccount := IS_FREE_ACCOUNT (current st);
                          model := orDefault (MODEL (current st))
                                     (defaultModel p) |} |})
       (snd (setApiKey key (Some p) st))).
Proof.
  intros Hkey Hwrite.
  rewrite (setApiKey_file key p st Hwrite). cbn [snd].
  match goal with
  | |- initializeService (with_configFile (Some ?c) st) = _ =>
      rewrite (ServiceMore.initializeService_exact
                 (with_configFile (Some c) st) c key eq_refl)
  end.
  - destruct p; reflexivity.
  - destruct p; unfold complete_file; cbn; now rewrite Hkey.
  - destruct p; unfold orKey, configKey; cbn; now rewrite Hkey.
  - exact Hkey.
Qed.

(** X22.  A key stored by [setApiKey] with a provider is the key the service
    is then set up with: on a file that can be written,
    [initializeService] after [setApiKey key provider] asks no question and
    builds the client of that provider with that key, the account kind and
    the model of the file as it was (of the default configuration when
    there was none). *)
Theorem setApiKey_then_initializeService
    (key : jsstring) (p : AIProvider) (st : State) :
  truthy key = true ->
  writeError st = None ->
  fst (setApiKey key (Some p) st) = Return tt /\
  initializeService (snd (setApiKey key (Some p) st))
  = (Return tt,
     with_service
       (Some {| provider := p;
                client :=
                  Some {| apiKey := key;
                          isFreeAccount := IS_FREE_ACCOUNT (current st);
                          model := orDefault (MODEL (current st))
                                     (defaultModel p) |} |})
       (snd (setApiKey key (Some p) st))).
Proof.
  intros Hkey Hwrite. split.
  - now rewrite (setApiKey_file key p st Hwrite).
  - now apply initializeService_stored_key.
Qed.

Lemma setApiKey_then_initializeService_witness :
  fst (setApiKey (lit "o-key") (Some openai) (freshState (geminiFree 0) 0))
  = Return tt /\
  initializeService
    (snd (setApiKey (lit "o-key") (Some openai)
            (freshState (geminiFree 0) 0)))
  = (Return tt,
     with_service
       (Some {| provider := openai;
                client :=
                  Some {| apiKey := lit "o-key";
                          isFreeAccount :=
                            IS_FREE_ACCOUNT
                              (current (freshState (geminiFree 0) 0));
                          model :=
                            orDefault
                              (MODEL (current (freshState (geminiFree 0) 0)))
                              (defaultModel openai) |} |})
       (snd (setApiKey (lit "o-key") (Some openai)
               (freshState (geminiFree 0) 0)))).
Proof.
  apply (setApiKey_then_initializeService (lit "o-key") openai
           (freshState (geminiFree 0) 0)).
  - reflexivity.
  - reflexivity.
Defined.

(** X23.  [setApiKey] with a provider replaces the provider and the keys and
    leaves the model alone: with no configuration file, the default one is
    taken, whose model is gemini-2.0-flash, so after
    [setApiKey key openai] the OpenAI service is set up with the model
    gemini-2.0-flash. *)
Theorem setApiKey_openai_keeps_gemini_model (key : jsstring) (st : State) :
  truthy key = true ->
  writeError st = None ->
  configFile st = None ->
  service (snd (initializeService (snd (setApiKey key (Some openai) st))))
  = Some {| provider := openai;
            client := Some {| apiKey := key;
                              isFreeAccount := true;
                              model := lit "gemini-2.0-flash" |} |}.
Proof.
  intros Hkey Hwrite Hfile.
  rewrite (initializeService_stored_key key openai st Hkey Hwrite).
  cbn [snd]. unfold with_service, service.
  unfold current. rewrite Hfile. reflexivity.
Qed.

Definition withoutFile : State :=
  with_configFile None (freshState (geminiFree 0) 0).

Lemma setApiKey_openai_keeps_gemini_model_witness :
  service
    (snd (initializeService
            (snd (setApiKey (lit "o-key") (Some openai) withoutFile))))
  = Some {| provider := openai;
            client := Some {| apiKey := lit "o-key";
                              isFreeAccount := true;
                              model := lit "gemini-2.0-flash" |} |}.
Proof.
  apply (setApiKey_openai_keeps_gemini_model (lit "o-key") withoutFile).
  - reflexivity.
  - reflexivity.
  - reflexivity.
Defined.

(** X24.  [setModel] refuses a model that is not in the list of the
    configured provider: it throws the message that names the provider and
    the list, and nothing is written. *)
Theorem setModel_rejects_unlisted (model : jsstring) (st : State) :
  ~ In model (validModels (current st)) ->
  setModel model st = (Throw (invalidModelMessage (current st)), st).
Proof.
  intros Hnot.
  unfold setModel, currentConfig, readConfig, bind, gets, ret.
  fold (current st).
  destruct (existsb (fun validModel => sameString validModel model)
              (validModels (current st))) eqn:E.
  - apply isValidModel_In in E. contradiction.
  - reflexivity.
Qed.

Definition openaiConfig : Config :=
  {| AI_PROVIDER := openai; GEMINI_API_KEY := None;
     OPENAI_API_KEY := Some (lit "o-key"); IS_FREE_ACCOUNT := false;
     LAST_REQUEST_TIME := None; MODEL := None |}.

(** The model [initializeService] falls back to for openai is refused. *)
Lemma setModel_rejects_unlisted_witness :
  setModel (defaultModel openai) (freshState openaiConfig 0)
  = (Throw (invalidModelMessage (current (freshState openaiConfig 0))),
     freshState openaiConfig 0).
Proof.
  apply (setModel_rejects_unlisted (defaultModel openai)
           (freshState openaiConfig 0)).
  cbn. intros [H|[H|[H|[H|[]]]]]; discriminate H.
Defined.

(** X25.  [setModel] with a listed model, on a file that can be written,
    stores that model and keeps every other field of the
    configuration. *)
Theorem setModel_stores_listed (model : jsstring) (st : State) :
  In model (validModels (current st)) ->
  writeError st = None ->
  setModel model st
  = (Return tt,
     with_configFile
       (Some {| AI_PROVIDER := AI_PROVIDER (current st);
                GEMINI_API_KEY := GEMINI_API_KEY (current st);
                OPENAI_API_KEY := OPENAI_API_KEY (current st);
                IS_FREE_ACCOUNT := IS_FREE_ACCOUNT (current st);
                LAST_REQUEST_TIME := LAST_REQUEST_TIME (current st);
                MODEL := Some model |}) st).
Proof.
  intros Hin Hwrite.
  unfold setModel, currentConfig, readConfig, bind, gets, ret.
  fold (current st).
  apply isValidModel_In in Hin. rewrite Hin. cbn [negb].
  unfold saveConfig, bind, gets, modify. now rewrite Hwrite.
Qed.

Lemma setModel_stores_listed_witness :
  setModel (lit "gpt-4") (freshState openaiConfig 0)
  = (Return tt,
     with_configFile
       (Some {| AI_PROVIDER :=
                  AI_PROVIDER (current (freshState openaiConfig 0));
                GEMINI_API_KEY :=
                  GEMINI_API_KEY (current (freshState openaiConfig 0));
                OPENAI_API_KEY :=
                  OPENAI_API_KEY (current (freshState openaiConfig 0));
                IS_FREE_ACCOUNT :=
                  IS_FREE_ACCOUNT (current (freshState openaiConfig 0));
                LAST_REQUEST_TIME :=
                  LAST_REQUEST_TIME (current (freshState openaiConfig 0));
                MODEL := Some (lit "gpt-4") |})
       (freshState openaiConfig 0)).
Proof.
  apply (setModel_stores_listed (lit "gpt-4") (freshState openaiConfig 0)).
  - cbn. left. reflexivity.
  - reflexivity.
Defined.

End ConfigMore.

(** ** enforceCommitType on a well-formed header *)

Module RewriteHeader.
Import JS Regex RegexFacts RegexMore Rewrite RewriteFacts RewriteMore.

Definition openParen : N := 40.
Definition closeParen : N := 41.

(** The scope of a header as it is written: nothing, or the scope in
    parentheses. *)
Definition scopeText (sc : option jsstring) : jsstring :=
  match sc with
  | Some x => lit "(" ++ x ++ lit ")"
  | None => []
  end.

(** A scope is not empty and holds neither a closing parenthesis nor a
    colon. *)
Definition wellScoped (sc : option jsstring) : Prop :=
  match sc with
  | Some x =>
      x <> [] /\ forall c, In c x -> c <> closeParen /\ c <> colon
  | None => True
  end.

Lemma firstn_length_app {A} (a b : list A) : firstn (length a) (a ++ b) = a.
Proof. induction a as [|x a IH]; [reflexivity|]. cbn. now rewrite IH. Qed.

Lemma firstn_prefix {A} (a b : list A) (n : nat) (l : list A) :
  n = length a -> l = a ++ b -> firstn n l = a.
Proof. intros -> ->. apply firstn_length_app. Qed.

Lemma orElse_first {A} (a b : option A) (x : A) :
  a = Some x -> orElse a b = Some x.
Proof. now intros ->. Qed.

Lemma lower_not_high (c : N) : lower c = true -> isHigh c = false.
Proof.
  unfold lower, range, isHigh. intros H.
  apply andb_prop in H. destruct H as [_ H]. apply N.leb_le in H.
  destruct (N.leb_spec 55296 c); [lia|reflexivity].
Qed.

Lemma high_not_lower (h : N) : isHigh h = true -> lower h = false.
Proof.
  intros H. destruct (lower h) eqn:E; [|reflexivity].
  apply lower_not_high in E. congruence.
Qed.

Lemma typeAndScope_header (t rest : jsstring) (sc : option jsstring) :
  t <> [] -> (forall c, In c t -> lower c = true) ->
  wellScoped sc ->
  exec false typeAndScope (t ++ scopeText sc ++ colon :: rest)
  = Some {| index := 0; matched := t ++ scopeText sc ++ [colon];
            groups := []; after := rest |}.
Proof.
  intros Hne Hlower Hscope. unfold typeAndScope. rewrite exec_anchored.
  unfold matchAt. cbn [run Nat.eqb].
  apply plus_exact.
  - intros h l Hh Hhigh. apply high_not_lower in Hhigh. congruence.
  - exact Hne.
  - exact Hlower.
  - left. intros h Hh. apply lower_not_high. now apply Hlower.
  - destruct sc; reflexivity.
  - destruct sc as [x|].
    + destruct Hscope as [Hx Hunits].
      apply orElse_first. cbn [scopeText lit app].
      unfold one at 1. cbn [andb]. cbn.
      rewrite <- !app_assoc. cbn [app].
      apply plus_exact.
      * intros h l _ _ _. apply notChr_pairs.
      * exact Hx.
      * intros c Hc. unfold notChr. apply negb_true_iff, N.eqb_neq.
        now apply Hunits.
      * right. intros l rest' E. injection E as <- _. reflexivity.
      * reflexivity.
      * cbn.
        rewrite (firstn_prefix (t ++ 40%N :: x ++ [41%N; colon]) rest);
          [reflexivity| |].
        -- rewrite !length_app. cbn [length]. rewrite !length_app.
           cbn [length]. lia.
        -- rewrite <- !app_assoc. cbn [app]. rewrite <- !app_assoc.
           reflexivity.
    + cbn [scopeText app]. cbn.
      rewrite (firstn_prefix (t ++ [colon]) rest); [reflexivity| |].
      * rewrite !length_app. cbn [length]. lia.
      * now rewrite <- !app_assoc.
Qed.

(** A search for a pattern that begins with one character of a class
    passes over the units outside the class. *)
Lemma search_skip (p : cls) (r : regex) (t s : jsstring) :
  (forall c, In c t -> p c = false) ->
  forall pos,
    search false (Seq (Cls p) r) pos (t ++ s)
    = search false (Seq (Cls p) r) (pos + length t) s.
Proof.
  intros Hout. induction t as [|h t IH]; intros pos.
  - cbn [app length]. now rewrite Nat.add_0_r.
  - cbn [app search]. unfold matchAt at 1. cbn [run one andb].
    rewrite (Hout h) by now left.
    rewrite IH by (intros c Hc; apply Hout; now right).
    cbn [length]. now replace (pos + 1 + length t) with (pos + S (length t))
      by lia.
Qed.

Lemma parenthetical_scope (t : jsstring) (sc : option jsstring) :
  (forall c, In c t -> lower c = true) ->
  wellScoped sc ->
  match exec false parenthetical (t ++ scopeText sc ++ [colon]) with
  | Some m => matched m
  | None => []
  end = scopeText sc.
Proof.
  intros Hlower Hscope. unfold exec, parenthetical.
  rewrite search_skip.
  2:{ intros c Hc. apply Hlower in Hc. unfold lower, range in Hc.
      apply andb_prop in Hc. destruct Hc as [Hc _]. apply N.leb_le in Hc.
      unfold chr. apply N.eqb_neq. cbn. lia. }
  destruct sc as [x|].
  - destruct Hscope as [Hx Hunits].
    assert (Hm : matchAt false
                   (Seq (Cls (chr "("))
                      (Seq (Plus (notChr ")")) (Cls (chr ")"))))
                   (0 + length t) (scopeText (Some x) ++ [colon])
                 = Some {| index := 0 + length t;
                           matched := scopeText (Some x);
                           groups := []; after := [colon] |}).
    { unfold matchAt. cbn [run]. cbn [scopeText].
      change (lit "(") with [40%N]. change (lit ")") with [41%N].
      cbn [app]. unfold one at 1. cbn [andb].
      change (chr "(" 40%N) with true. cbn iota.
      rewrite <- !app_assoc. cbn [app].
      apply plus_exact.
      - intros h l _ _ _. apply notChr_pairs.
      - exact Hx.
      - intros c Hc. unfold notChr. apply negb_true_iff, N.eqb_neq.
        now apply Hunits.
      - right. intros l rest' E. injection E as <- _. reflexivity.
      - reflexivity.
      - cbn.
        rewrite (firstn_prefix (40%N :: x ++ [41%N]) [colon]);
          [reflexivity| |].
        + cbn [length]. rewrite !length_app. cbn [length]. lia.
        + cbn [app]. now rewrite <- !app_assoc. }
    rewrite search_found by (rewrite Hm; now eexists).
    now rewrite Hm.
  - cbn [scopeText app]. reflexivity.
Qed.

Lemma plus_whole (R : Type) (u : bool) (p : cls) (pre : jsstring)
    (pos : nat) (k : cont R) (x : R) :
  (forall h l,
      p h = true -> isHigh h = true -> isLow l = true ->
      p (decode h l) = true) ->
  pre <> [] ->
  (forall c, In c pre -> p c = true) ->
  k (pos + length pre) [] = Some x ->
  one u p pos pre (fun pos' s' => loop u p pos' s' k) = Some x.
Proof.
  intros pairs Hne Hunits Hk.
  pose proof (plus_exact R u p pairs pre [] pos k x Hne Hunits) as H.
  rewrite app_nil_r in H. apply H; [|exact I|exact Hk].
  right. intros l rest' E. discriminate E.
Qed.

Lemma scopeText_no_colon (sc : option jsstring) :
  wellScoped sc -> forall c, In c (scopeText sc) -> c <> colon.
Proof.
  destruct sc as [x|]; [|intros _ c []].
  intros [_ Hunits] c Hc. cbn [scopeText] in Hc.
  change (lit "(") with [40%N] in Hc. change (lit ")") with [41%N] in Hc.
  cbn [app] in Hc. destruct Hc as [<-|Hc]; [discriminate|].
  apply in_app_or in Hc. destruct Hc as [Hc|[<-|[]]]; [|discriminate].
  now apply Hunits.
Qed.

Lemma lower_no_colon (c : N) : lower c = true -> c <> colon.
Proof. intros H ->. discriminate. Qed.

Lemma descriptionOf_header (t ws d : jsstring) (c : N)
    (sc : option jsstring) :
  t <> [] -> (forall x, In x t -> lower x = true) ->
  wellScoped sc ->
  (forall x, In x ws -> isWhiteSpace x = true) ->
  isWhiteSpace c = false -> isHigh c = false -> pictograph c = false ->
  (forall x, In x d -> isLineTerminator x = false) ->
  descriptionOf (t ++ scopeText sc ++ colon :: ws ++ c :: d) = c :: d.
Proof.
  intros Hne Hlower Hscope Hws Hc Hhigh Hpict Hd.
  unfold descriptionOf, descriptionPattern. rewrite exec_anchored.
  unfold matchAt. cbn [run Nat.eqb]. rewrite app_assoc.
  match goal with
  | |- match ?o with Some _ => _ | None => _ end = _ =>
      assert (Hm : exists m, o = Some m /\ group 1 (groups m) = Some (c :: d))
  end.
  { eexists. split.
    - apply plus_exact.
      + intros h l _ _ _. apply notChr_pairs.
      + destruct t; [congruence|discriminate].
      + intros x Hx. unfold notChr. apply negb_true_iff, N.eqb_neq.
        apply in_app_or in Hx. destruct Hx as [Hx|Hx].
        * apply lower_no_colon. now apply Hlower.
        * now apply (scopeText_no_colon sc Hscope).
      + right. intros l rest' E. injection E as <- _. reflexivity.
      + reflexivity.
      + unfold one at 1. cbn [andb]. change (isHigh colon) with false.
        cbn iota. change (chr ":" colon) with true. cbn iota.
        apply loop_exact with (n := length ws).
        * intros h l Hh Hhi. apply whiteSpace_not_high in Hh. congruence.
        * lia.
        * exact Hws.
        * left. intros h Hh. apply whiteSpace_not_high. now apply Hws.
        * unfold stops, firstChar. rewrite Hhigh. cbn [andb]. exact Hc.
        * unfold one at 1. rewrite Hhigh. cbn [andb]. rewrite Hpict.
          cbn [orElse].
          apply plus_whole.
          -- intros h l _ _ _. apply dot_pairs.
          -- discriminate.
          -- intros x [<-|Hx]; unfold dot; apply negb_true_iff.
             ++ unfold isWhiteSpace in Hc.
                repeat (apply orb_false_elim in Hc; destruct Hc as [Hc ?]).
                assumption.
             ++ now apply Hd.
          -- reflexivity.
    - cbn [groups group Nat.eqb]. f_equal.
      match goal with
      | |- firstn ?n _ = _ => replace n with (length (c :: d)) by lia
      end.
      apply firstn_all. }
  destruct Hm as (m & -> & ->). reflexivity.
Qed.

(** The emoji pattern finds nothing in a text without a high surrogate
    and without a unit in the pictograph range. *)
Definition noPictograph (s : jsstring) : Prop :=
  forall x, In x s -> isHigh x = false /\ pictograph x = false.

Lemma colonEmoji_needs_pictograph (message : jsstring) :
  noPictograph message -> exec true colonEmoji message = None.
Proof.
  intros Hno. destruct (exec true colonEmoji message) as [m|] eqn:H;
    [|reflexivity].
  exfalso. apply search_within in H.
  destruct H as (pos & w & pre & post & -> & M).
  unfold colonEmoji in M. cbn [matches] in M.
  destruct M as (w1 & w2 & ? & -> & _ & M).
  destruct M as (w3 & w4 & ? & -> & _ & M).
  destruct M as (caps0 & [M _] & _).
  assert (Hin : forall y, In y w4 -> In y (pre ++ (w1 ++ w3 ++ w4) ++ post)).
  { intros y Hy. apply in_middle.
    do 2 (apply in_or_app; right). exact Hy. }
  destruct M as [h Hh|h l _ Hh _ _].
  - destruct (Hno h (Hin h (or_introl eq_refl))) as [_ E]. congruence.
  - destruct (Hno h (Hin h (or_introl eq_refl))) as [E _]. congruence.
Qed.

(** X9.  A draft that is one well-formed header line, a type in
    lower-case letters, an optional scope in parentheses, a colon, white
    space and a description on one line that begins with a plain
    character, and that holds no pictograph when emoji mode is on, comes
    back with the enforced type in place of its own; the scope and the
    description are kept and exactly one space follows the colon. *)
Theorem enforceCommitType_header (t ws d : jsstring) (c : N)
    (sc : option jsstring) (type : CommitType) (emoji : bool) :
  t <> [] -> (forall x, In x t -> lower x = true) ->
  wellScoped sc ->
  (forall x, In x ws -> isWhiteSpace x = true) ->
  isWhiteSpace c = false -> isHigh c = false -> pictograph c = false ->
  (forall x, In x d -> isLineTerminator x = false) ->
  (emoji = true ->
   noPictograph (t ++ scopeText sc ++ colon :: ws ++ c :: d)) ->
  enforceCommitType (t ++ scopeText sc ++ colon :: ws ++ c :: d) type emoji
  = commitTypeText type ++ scopeText sc ++ lit ": " ++ c :: d.
Proof.
  intros Hne Hlower Hscope Hws Hc Hhigh Hpict Hd Hemoji.
  unfold enforceCommitType, scopeOf, emojiOf.
  rewrite (typeAndScope_header t (ws ++ c :: d) sc Hne Hlower Hscope).
  cbn [matched].
  rewrite (descriptionOf_header t ws d c sc Hne Hlower Hscope Hws Hc Hhigh
             Hpict Hd).
  pose proof (parenthetical_scope t sc Hlower Hscope) as Hp.
  assert (Hscope' :
            commitTypeText type
              ++ match exec false parenthetical
                         (t ++ scopeText sc ++ [colon]) with
                 | Some m => matched m
                 | None => []
                 end ++ lit ": "
            = commitTypeText type ++ scopeText sc ++ lit ": ").
  { destruct (exec false parenthetical (t ++ scopeText sc ++ [colon]));
      now rewrite <- Hp. }
  rewrite Hscope'.
  destruct emoji.
  - rewrite (colonEmoji_needs_pictograph _ (Hemoji eq_refl)).
    cbn [truthy andb]. now rewrite <- !app_assoc.
  - cbn [andb]. now rewrite <- !app_assoc.
Qed.

Lemma enforceCommitType_header_witness :
  enforceCommitType
    (lit "fix" ++ scopeText (Some (lit "api")) ++ colon :: lit " "
       ++ 111%N :: lit "ld desc")
    ct_feat true
  = commitTypeText ct_feat ++ scopeText (Some (lit "api")) ++ lit ": "
      ++ 111%N :: lit "ld desc".
Proof.
  apply (enforceCommitType_header (lit "fix") (lit " ") (lit "ld desc")
           111%N (Some (lit "api")) ct_feat true).
  - discriminate.
  - intros x Hx. cbn in Hx.
    repeat (destruct Hx as [<-|Hx]; [reflexivity|]). destruct Hx.
  - split; [discriminate|]. intros x Hx. cbn in Hx.
    repeat (destruct Hx as [<-|Hx]; [split; discriminate|]). destruct Hx.
  - intros x Hx. cbn in Hx.
    repeat (destruct Hx as [<-|Hx]; [reflexivity|]). destruct Hx.
  - reflexivity.
  - reflexivity.
  - reflexivity.
  - intros x Hx. cbn in Hx.
    repeat (destruct Hx as [<-|Hx]; [reflexivity|]). destruct Hx.
  - intros _ x Hx. cbn in Hx.
    repeat (destruct Hx as [<-|Hx]; [split; reflexivity|]). destruct Hx.
Defined.

(** *** A header with an emoji *)

(** With the [u] flag a search passes over the units outside the class
    that are no high surrogates. *)
Lemma search_skip_plain (u : bool) (p : cls) (r : regex) (t s : jsstring) :
  (forall c, In c t -> p c = false /\ isHigh c = false) ->
  forall pos,
    search u (Seq (Cls p) r) pos (t ++ s)
    = search u (Seq (Cls p) r) (pos + length t) s.
Proof.
  intros Hout. induction t as [|h t IH]; intros pos.
  - cbn [app length]. now rewrite Nat.add_0_r.
  - destruct (Hout h (or_introl eq_refl)) as [Hp Hh].
    cbn [app search]. unfold matchAt at 1. cbn [run one].
    rewrite Hh, Hp, andb_false_r.
    rewrite IH by (intros c Hc; apply Hout; now right).
    cbn [length]. now replace (pos + 1 + length t) with (pos + S (length t))
      by lia.
Qed.

Lemma pair_not_whiteSpace (h l : N) : isWhiteSpace (decode h l) = false.
Proof.
  pose proof (decode_large h l) as H.
  destruct (isWhiteSpace (decode h l)) eqn:E; [|reflexivity].
  unfold isWhiteSpace, isLineTerminator, range in E.
  repeat (apply orb_prop in E; destruct E as [E|E]);
    try (apply N.eqb_eq in E; lia).
  apply andb_prop in E. destruct E as [_ E]. apply N.leb_le in E. lia.
Qed.

Section Emoji.

Variables t ws1 ws2 d : jsstring.
Variables h l c : N.
Variable sc : option jsstring.

Hypothesis type_given : t <> [].
Hypothesis type_lower : forall x, In x t -> lower x = true.
Hypothesis scope_formed : wellScoped sc.
Hypothesis scope_plain : forall x, In x (scopeText sc) -> isHigh x = false.
Hypothesis space1 : forall x, In x ws1 -> isWhiteSpace x = true.
Hypothesis space2 : forall x, In x ws2 -> isWhiteSpace x = true.
Hypothesis high : isHigh h = true.
Hypothesis low : isLow l = true.
Hypothesis emoji_char : pictograph (decode h l) = true.
Hypothesis start : isWhiteSpace c = false.
Hypothesis start_plain : isHigh c = false.
Hypothesis one_line : forall x, In x d -> isLineTerminator x = false.

Let message : jsstring :=
  t ++ scopeText sc ++ colon :: ws1 ++ h :: l :: ws2 ++ c :: d.

Lemma descriptionOf_after_emoji : descriptionOf message = c :: d.
Proof.
  unfold descriptionOf, descriptionPattern, message. rewrite exec_anchored.
  unfold matchAt. cbn [run Nat.eqb]. rewrite app_assoc.
  match goal with
  | |- match ?o with Some _ => _ | None => _ end = _ =>
      assert (Hm : exists m, o = Some m /\ group 1 (groups m) = Some (c :: d))
  end.
  { eexists. split.
    - apply plus_exact.
      + intros h0 l0 _ _ _. apply notChr_pairs.
      + destruct t; [congruence|discriminate].
      + intros x Hx. unfold notChr. apply negb_true_iff, N.eqb_neq.
        apply in_app_or in Hx. destruct Hx as [Hx|Hx].
        * apply lower_no_colon. now apply type_lower.
        * now apply (scopeText_no_colon sc scope_formed).
      + right. intros l0 rest' E. injection E as <- _. reflexivity.
      + reflexivity.
      + unfold one at 1. cbn [andb]. change (isHigh colon) with false.
        cbn iota. change (chr ":" colon) with true. cbn iota.
        apply loop_exact with (n := length ws1).
        * intros h0 l0 Hh Hhi. apply whiteSpace_not_high in Hh. congruence.
        * lia.
        * exact space1.
        * left. intros h0 Hh. apply whiteSpace_not_high. now apply space1.
        * unfold stops, firstChar. rewrite high, low. cbn [andb].
          apply pair_not_whiteSpace.
        * apply orElse_first.
          unfold one at 1. rewrite high, low. cbn [andb].
          rewrite emoji_char.
          apply loop_exact with (n := length ws2).
          -- intros h0 l0 Hh Hhi. apply whiteSpace_not_high in Hh.
             congruence.
          -- lia.
          -- exact space2.
          -- left. intros h0 Hh. apply whiteSpace_not_high.
             now apply space2.
          -- unfold stops, firstChar. rewrite start_plain. cbn [andb].
             exact start.
          -- apply plus_whole.
             ++ intros h0 l0 _ _ _. apply dot_pairs.
             ++ discriminate.
             ++ intros x [<-|Hx]; unfold dot; apply negb_true_iff.
                ** pose proof start as Hc. unfold isWhiteSpace in Hc.
                   repeat (apply orb_false_elim in Hc;
                           destruct Hc as [Hc ?]).
                   assumption.
                ** now apply one_line.
             ++ reflexivity.
    - cbn [groups group Nat.eqb]. f_equal.
      match goal with
      | |- firstn ?n _ = _ => replace n with (length (c :: d)) by lia
      end.
      apply firstn_all. }
  destruct Hm as (m & -> & ->). reflexivity.
Qed.

Lemma emojiOf_header : emojiOf message true = [h; l].
Proof.
  unfold emojiOf, exec, colonEmoji, message. rewrite app_assoc.
  rewrite search_skip_plain.
  2:{ intros x Hx. apply in_app_or in Hx. destruct Hx as [Hx|Hx].
      - split.
        + unfold chr. apply N.eqb_neq. apply lower_no_colon.
          now apply type_lower.
        + apply lower_not_high. now apply type_lower.
      - split.
        + unfold chr. apply N.eqb_neq.
          now apply (scopeText_no_colon sc scope_formed).
        + now apply scope_plain. }
  match goal with
  | |- match search _ ?r ?pos ?s with Some _ => _ | None => _ end = _ =>
      assert (Hm : exists m, matchAt true r pos s = Some m
                             /\ group 1 (groups m) = Some [h; l])
  end.
  { eexists. split.
    - unfold matchAt. cbn [run]. unfold one at 1. cbn [andb].
      change (isHigh colon) with false. cbn iota.
      change (chr ":" colon) with true. cbn iota.
      apply loop_exact with (n := length ws1).
      + intros h0 l0 Hh Hhi. apply whiteSpace_not_high in Hh. congruence.
      + lia.
      + exact space1.
      + left. intros h0 Hh. apply whiteSpace_not_high. now apply space1.
      + unfold stops, firstChar. rewrite high, low. cbn [andb].
        apply pair_not_whiteSpace.
      + unfold one at 1. rewrite high, low. cbn [andb].
        rewrite emoji_char. reflexivity.
    - cbn [groups group Nat.eqb]. f_equal.
      match goal with
      | |- firstn ?n _ = _ => replace n with 2 by lia
      end.
      reflexivity. }
  destruct Hm as (m & Hm & Hg).
  rewrite search_found by (rewrite Hm; now eexists).
  now rewrite Hm, Hg.
Qed.

End Emoji.

(** X10.  When a pictograph stands between the colon and
    the description of such a header, emoji mode keeps it, followed by one
    space, and the other mode drops it; in both the enforced type replaces
    the draft's type and the scope and the description are kept. *)
Theorem enforceCommitType_header_emoji (t ws1 ws2 d : jsstring) (h l c : N)
    (sc : option jsstring) (type : CommitType) (emoji : bool) :
  t <> [] -> (forall x, In x t -> lower x = true) ->
  wellScoped sc ->
  (forall x, In x (scopeText sc) -> isHigh x = false) ->
  (forall x, In x ws1 -> isWhiteSpace x = true) ->
  (forall x, In x ws2 -> isWhiteSpace x = true) ->
  isHigh h = true -> isLow l = true -> pictograph (decode h l) = true ->
  isWhiteSpace c = false -> isHigh c = false ->
  (forall x, In x d -> isLineTerminator x = false) ->
  enforceCommitType
    (t ++ scopeText sc ++ colon :: ws1 ++ h :: l :: ws2 ++ c :: d)
    type emoji
  = commitTypeText type ++ scopeText sc ++ lit ": "
      ++ (if emoji then [h; l] ++ lit " " else []) ++ c :: d.
Proof.
  intros Hne Hlower Hscope Hplain Hws1 Hws2 Hh Hl Hpict Hc Hhigh Hd.
  unfold enforceCommitType, scopeOf.
  rewrite (typeAndScope_header t (ws1 ++ h :: l :: ws2 ++ c :: d) sc Hne
             Hlower Hscope).
  cbn [matched].
  rewrite (descriptionOf_after_emoji t ws1 ws2 d h l c sc) by assumption.
  pose proof (parenthetical_scope t sc Hlower Hscope) as Hp.
  assert (Hscope' :
            commitTypeText type
              ++ match exec false parenthetical
                         (t ++ scopeText sc ++ [colon]) with
                 | Some m => matched m
                 | None => []
                 end ++ lit ": "
            = commitTypeText type ++ scopeText sc ++ lit ": ").
  { destruct (exec false parenthetical (t ++ scopeText sc ++ [colon]));
      now rewrite <- Hp. }
  rewrite Hscope'.
  destruct emoji.
  - rewrite (emojiOf_header t ws1 ws2 d h l c sc) by assumption.
    cbn [truthy andb]. now rewrite <- !app_assoc.
  - cbn [andb emojiOf app]. now rewrite <- !app_assoc.
Qed.

Lemma enforceCommitType_header_emoji_witness :
  enforceCommitType
    (lit "fix" ++ scopeText (Some (lit "api")) ++ colon :: lit " "
       ++ 55357%N :: 56347%N :: lit " " ++ 111%N :: lit "ld desc")
    ct_feat true
  = commitTypeText ct_feat ++ scopeText (Some (lit "api")) ++ lit ": "
      ++ ([55357%N; 56347%N] ++ lit " ") ++ 111%N :: lit "ld desc".
Proof.
  apply (enforceCommitType_header_emoji (lit "fix") (lit " ") (lit " ")
           (lit "ld desc") 55357%N 56347%N 111%N (Some (lit "api"))
           ct_feat true).
  - discriminate.
  - intros x Hx. cbn in Hx.
    repeat (destruct Hx as [<-|Hx]; [reflexivity|]). destruct Hx.
  - split; [discriminate|]. intros x Hx. cbn in Hx.
    repeat (destruct Hx as [<-|Hx]; [split; discriminate|]). destruct Hx.
  - intros x Hx. cbn in Hx.
    repeat (destruct Hx as [<-|Hx]; [reflexivity|]). destruct Hx.
  - intros x Hx. cbn in Hx.
    repeat (destruct Hx as [<-|Hx]; [reflexivity|]). destruct Hx.
  - intros x Hx. cbn in Hx.
    repeat (destruct Hx as [<-|Hx]; [reflexivity|]). destruct Hx.
  - reflexivity.
  - reflexivity.
  - reflexivity.
  - reflexivity.
  - reflexivity.
  - intros x Hx. cbn in Hx.
    repeat (destruct Hx as [<-|Hx]; [reflexivity|]). destruct Hx.
Defined.

End RewriteHeader.

(** ** processDiff *)

Module CompressFacts.
Import JS Regex Chunker Format Compress.

Definition LFs : string := String (ascii_of_nat 10) EmptyString.

Definition twoFiles : jsstring :=
  lit ("diff --git a/x b/x" ++ LFs ++ "+1" ++ LFs ++ "-2" ++ LFs
       ++ "diff --git a/y b/y" ++ LFs ++ "+3" ++ LFs)%string.

(** Kept whole at a maximum of 30, the second file is summarised. *)
Example processDiff_sample :
  processDiff twoFiles 30
  = lit (LFs ++ "diff --git a/x b/x" ++ LFs ++ "+1" ++ LFs ++ "-2" ++ LFs
         ++ LFs ++ "diff --git  a/y b/y" ++ LFs
         ++ "--- Summary of changes in y ---" ++ LFs
         ++ "+++ 1 additions, 0 deletions" ++ LFs
         ++ "+3" ++ LFs ++ "...(truncated)" ++ LFs
         ++ LFs ++ "...(remaining diffs summarized)")%string.
Proof. reflexivity. Qed.

(** A section the loop does not pass over. *)
Definition nonBlank (section : jsstring) : bool := truthy (trim section).

(** The two blocks the loop can append for a section. *)
Definition kept (section : jsstring) : jsstring :=
  newline ++ delimiter ++ section.

Definition summarized (section : jsstring) : jsstring :=
  summaryOf section ++ representativeChangesOf section ++ truncatedMark.

Definition blockOf (maxLength : Z) (section block : jsstring) : Prop :=
  (block = kept section /\ (len section <= maxLength)%Z)
  \/ block = summarized section.

Lemma len_not_negative (s : jsstring) : (0 <= len s)%Z.
Proof. unfold len. lia. Qed.

Lemma processLoop_blocks (maxLength : Z) (fileSections : list jsstring) :
  forall (processedDiff : jsstring) (currentLength : Z),
    (0 <= currentLength)%Z ->
    exists handled dropped blocks,
      filter nonBlank fileSections = handled ++ dropped
      /\ Forall2 (blockOf maxLength) handled blocks
      /\ ((processLoop maxLength fileSections processedDiff currentLength
           = processedDiff ++ concat blocks /\ dropped = [])
          \/ processLoop maxLength fileSections processedDiff currentLength
             = processedDiff ++ concat blocks ++ remainingMark).
Proof.
  induction fileSections as [|section rest IH];
    intros processedDiff currentLength Hcur.
  - exists [], [], []. cbn. rewrite app_nil_r. auto.
  - cbn [processLoop filter]. fold (nonBlank section).
    destruct (nonBlank section) eqn:Hblank; cbn [negb].
    2:{ apply IH. exact Hcur. }
    pose proof (len_not_negative section) as Hs.
    pose proof (len_not_negative (summaryOf section)) as Hsum.
    pose proof (len_not_negative (representativeChangesOf section)) as Hrep.
    destruct (Z.gtb_spec (currentLength + len section) maxLength)
      as [Hbig|Hfit].
    + set (cur := (currentLength + len (summaryOf section)
                   + len (representativeChangesOf section) + 15)%Z).
      destruct (Z.geb_spec cur maxLength) as [Hfull|Hroom].
      * exists [section], (filter nonBlank rest), [summarized section].
        split; [reflexivity|]. split.
        -- constructor; [now right|constructor].
        -- right. cbn [concat]. unfold summarized.
           now rewrite app_nil_r, <- !app_assoc.
      * destruct (IH (processedDiff ++ summaryOf section
                        ++ representativeChangesOf section ++ truncatedMark)
                    cur ltac:(subst cur; lia))
          as (handled & dropped & blocks & Hsplit & Hblocks & Hout).
        exists (section :: handled), dropped, (summarized section :: blocks).
        split; [cbn [app]; now rewrite Hsplit|]. split.
        -- constructor; [now right|exact Hblocks].
        -- cbn [concat]. unfold summarized.
           destruct Hout as [[-> ->] | ->]; [left; split; [|reflexivity]|right];
             now rewrite <- !app_assoc.
    + set (cur := (currentLength + len section + 10)%Z).
      destruct (Z.geb_spec cur maxLength) as [Hfull|Hroom].
      * exists [section], (filter nonBlank rest), [kept section].
        split; [reflexivity|]. split.
        -- constructor; [left; split; [reflexivity|lia]|constructor].
        -- right. cbn [concat]. unfold kept.
           now rewrite app_nil_r, <- !app_assoc.
      * destruct (IH (processedDiff ++ newline ++ delimiter ++ section)
                    cur ltac:(subst cur; lia))
          as (handled & dropped & blocks & Hsplit & Hblocks & Hout).
        exists (section :: handled), dropped, (kept section :: blocks).
        split; [cbn [app]; now rewrite Hsplit|]. split.
        -- constructor; [left; split; [reflexivity|lia]|exact Hblocks].
        -- cbn [concat]. unfold kept.
           destruct Hout as [[-> ->] | ->]; [left; split; [|reflexivity]|right];
             now rewrite <- !app_assoc.
Qed.

(** Within the maximum the diff comes back as it is, whatever it
    holds. *)
Theorem processDiff_within (diff : jsstring) (maxLength : Z) :
  (len diff <= maxLength)%Z -> processDiff diff maxLength = diff.
Proof.
  intros H. unfold processDiff.
  destruct (Z.leb_spec (len diff) maxLength); [reflexivity|lia].
Qed.

Lemma processDiff_within_witness :
  processDiff twoFiles 47 = twoFiles.
Proof.
  apply (processDiff_within twoFiles 47). vm_compute. discriminate.
Defined.

(** X26.  Over the maximum the result is made of one block for each non-blank
    section that is handled, in the order of the diff: the section behind
    a line feed and the delimiter, which happens only to a section within
    the maximum, or its summary block.  Sections are dropped only behind
    the closing mark: without it every non-blank section has its block. *)
Theorem processDiff_blocks (diff : jsstring) (maxLength : Z) :
  (maxLength < len diff)%Z ->
  exists handled dropped blocks,
    filter nonBlank (split diff delimiter) = handled ++ dropped
    /\ Forall2 (blockOf maxLength) handled blocks
    /\ ((processDiff diff maxLength = concat blocks /\ dropped = [])
        \/ processDiff diff maxLength = concat blocks ++ remainingMark).
Proof.
  intros H. unfold processDiff.
  destruct (Z.leb_spec (len diff) maxLength); [lia|].
  apply (processLoop_blocks maxLength (split diff delimiter) [] 0). lia.
Qed.

Lemma processDiff_blocks_witness :
  exists handled dropped blocks,
    filter nonBlank (split twoFiles delimiter) = handled ++ dropped
    /\ Forall2 (blockOf 30) handled blocks
    /\ ((processDiff twoFiles 30 = concat blocks /\ dropped = [])
        \/ processDiff twoFiles 30 = concat blocks ++ remainingMark).
Proof. apply (processDiff_blocks twoFiles 30). reflexivity. Defined.

End CompressFacts.

(** ** The reference rule *)

Module FormatRef.
Import JS Format FormatFacts.

Lemma includes_self (s : jsstring) : includes s s = true.
Proof.
  rewrite includes_unfold.
  rewrite <- (app_nil_r s) at 2. now rewrite startsWith_app.
Qed.

(** [toLowerCase] on a string of ASCII characters. *)
Definition asciiLower (s : jsstring) : jsstring :=
  map (fun c => if Regex.range 65 90 c then (c + 32)%N else c) s.

(** X14.  The Unicode lower-casing works on the two sides of a space
    separately: its one rule that looks at the neighbours of a character,
    for the final sigma, does not look across a space, and a space is no
    half of a surrogate pair.  For every [toLowerCase] of that kind the
    reference rule adds its footer once: applied to its own result it
    changes nothing. *)
Theorem addRef_once (toLowerCase : jsstring -> jsstring)
    (ref : option jsstring) (message : jsstring) :
  (forall a b,
      toLowerCase (a ++ 32%N :: b)
      = toLowerCase (a ++ [32%N]) ++ toLowerCase b) ->
  addRef toLowerCase ref (addRef toLowerCase ref message)
  = addRef toLowerCase ref message.
Proof.
  intros Hspace. destruct ref as [r|]; [|reflexivity].
  unfold addRef. destruct (truthy r); [|reflexivity]. cbn [andb].
  destruct (includes (toLowerCase message) (toLowerCase r)) eqn:E;
    cbn [negb].
  - now rewrite E.
  - change (message ++ blankLine ++ lit "Refs: " ++ r)
      with (message ++ blankLine ++ lit "Refs:" ++ 32%N :: r).
    rewrite !app_assoc, Hspace.
    rewrite includes_app_r; [reflexivity|]. apply includes_self.
Qed.

Lemma addRef_once_witness :
  addRef asciiLower (Some (lit "Closes #12"))
    (addRef asciiLower (Some (lit "Closes #12")) (lit "feat: add x"))
  = addRef asciiLower (Some (lit "Closes #12")) (lit "feat: add x").
Proof.
  apply (addRef_once asciiLower (Some (lit "Closes #12"))
           (lit "feat: add x")).
  intros a b. unfold asciiLower. rewrite <- map_app, <- app_assoc.
  reflexivity.
Defined.

(** The footer is there after the first application. *)
Example addRef_sample :
  addRef asciiLower (Some (lit "Closes #12")) (lit "feat: add x")
  = lit "feat: add x" ++ blankLine ++ lit "Refs: Closes #12".
Proof. reflexivity. Qed.

End FormatRef.

(** ** A configuration file that cannot be written *)

Module ServiceLoss.
Import JS Service ServiceFacts ServiceMore.

Definition writeFailure (e : jsstring) : jsstring :=
  formatError (lit "Failed to write config file") e.

Lemma try_ready_unwritable (toLowerCase : jsstring -> jsstring)
    (options : GenerateMessageOptions) (st : State) (config : Config)
    (svc : BaseAIService) (text e : jsstring) :
  service st = Some svc -> client svc <> None ->
  configFile st = Some config -> complete_file config = true ->
  IS_FREE_ACCOUNT config = true ->
  (60000 <= now (clock st) - orZero (LAST_REQUEST_TIME config))%Z ->
  accepted svc (complete st (requestOf svc (buildPrompt options)))
    = Some text ->
  writeError st = Some e ->
  generateCommitMessage_try toLowerCase options st
  = (Throw (writeFailure e),
     afterRequest (requestOf svc (buildPrompt options)) st).
Proof.
  intros Hsvc Hclient Hfile Hkeys Hfree Hold Hreply Hwrite.
  unfold generateCommitMessage_try.
  unfold bind at 1. unfold gets at 1. rewrite Hsvc.
  unfold bind at 1. unfold ret at 1.
  unfold bind at 1. rewrite (ensureConfig_file st config Hfile Hkeys).
  unfold bind at 1.
  assert (Hcheck :
            when (IS_FREE_ACCOUNT config)
              (now_ <- dateNow ;;
               (if (now_ - orZero (LAST_REQUEST_TIME config) <? 60000)%Z
                then throw rateLimitMessage
                else ret tt)) st = (Return tt, st)).
  { unfold when. rewrite Hfree. unfold bind, dateNow, gets.
    destruct (Z.ltb_spec (now (clock st)
                          - orZero (LAST_REQUEST_TIME config)) 60000);
      [lia|reflexivity]. }
  rewrite Hcheck.
  unfold bind at 1. unfold gets at 1. rewrite Hsvc.
  unfold bind at 1.
  rewrite (generateContent_accepted svc (buildPrompt options) text st
             Hclient Hreply).
  unfold bind, when. rewrite Hfree.
  unfold dateNow, gets, saveConfig, bind, gets, modify, ret.
  cbn [writeError afterRequest with_clock with_requests].
  rewrite Hwrite. reflexivity.
Qed.

(** X20.  On a free account, when the provider has answered and the
    configuration file cannot be written, the answer is lost: the call
    rejects with the write error behind the prefix of every failure, the
    request has been sent, and the file keeps its last-request time. *)
Theorem generateCommitMessage_write_failure
    (toLowerCase : jsstring -> jsstring) (options : GenerateMessageOptions)
    (st : State) (config : Config) (key text e : jsstring) :
  service st = None ->
  configFile st = Some config -> complete_file config = true ->
  orKey (configKey config) (envKey config (env st)) = Some key ->
  truthy key = true ->
  IS_FREE_ACCOUNT config = true ->
  (60000 <= now (clock st) - orZero (LAST_REQUEST_TIME config))%Z ->
  accepted (serviceFor config key)
    (complete st (requestOf (serviceFor config key) (buildPrompt options)))
    = Some text ->
  writeError st = Some e ->
  fst (generateCommitMessage toLowerCase options st)
    = Throw (failurePrefix ++ writeFailure e) /\
  requests (snd (generateCommitMessage toLowerCase options st))
    = requests st
        ++ [requestOf (serviceFor config key) (buildPrompt options)] /\
  configFile (snd (generateCommitMessage toLowerCase options st))
    = Some config.
Proof.
  intros Hfresh Hfile Hkeys Hfound Hkey Hfree Hold Hreply Hwrite.
  unfold generateCommitMessage, tryCatch.
  rewrite (try_fresh toLowerCase options st config key Hfresh Hfile Hkeys
             Hfound Hkey).
  rewrite (try_ready_unwritable toLowerCase options
             (with_service (Some (serviceFor config key)) st) config
             (serviceFor config key) text e eq_refl);
    [|discriminate|exact Hfile|exact Hkeys|exact Hfree|exact Hold
     |exact Hreply|exact Hwrite].
  cbn [fst snd throw]. repeat split. cbn. exact Hfile.
Qed.

Definition unwritable : State :=
  {| service := None;
     clock := {| now := 5000000; lateness := [] |};
     env := {| env_GEMINI_API_KEY := None; env_OPENAI_API_KEY := None |};
     configFile := Some (geminiFree 0);
     setupAnswers := {| answer_provider := gemini;
                        answer_model := lit "gemini-2.0-flash";
                        answer_API_KEY := lit "g-key";
                        answer_IS_FREE_ACCOUNT := true |};
     complete := fun _ => Answered (lit "feat: add x");
     requests := [];
     writeError := Some (lit "EACCES") |}.

Lemma generateCommitMessage_write_failure_witness :
  fst (generateCommitMessage noCaseMapping sampleOptions unwritable)
    = Throw (failurePrefix ++ writeFailure (lit "EACCES")) /\
  requests (snd (generateCommitMessage noCaseMapping sampleOptions
                   unwritable))
    = requests unwritable
        ++ [requestOf (serviceFor (geminiFree 0) (lit "g-key"))
              (buildPrompt sampleOptions)] /\
  configFile (snd (generateCommitMessage noCaseMapping sampleOptions
                     unwritable))
    = Some (geminiFree 0).
Proof.
  apply (generateCommitMessage_write_failure noCaseMapping sampleOptions
           unwritable (geminiFree 0) (lit "g-key") (lit "feat: add x")
           (lit "EACCES")).
  - reflexivity.
  - reflexivity.
  - reflexivity.
  - reflexivity.
  - reflexivity.
  - reflexivity.
  - vm_compute. discriminate.
  - reflexivity.
  - reflexivity.
Defined.

End ServiceLoss.

(** ** The chunks against the text of the diff *)

Module ChunkerText.
Import JS Chunker ChunkerFacts FormatFacts.
Import CompressFacts(LFs).

(** A diff as a sequence of file sections: each is the delimiter followed
    by a body. *)
Definition sectionsOf (bodies : list jsstring) : list jsstring :=
  map (fun body => delimiter ++ body) bodies.

(** A body is not empty and the delimiter does not occur in it. *)
Definition body (b : jsstring) : Prop :=
  b <> [] /\ includes b delimiter = false.

Lemma startsWith_short (p s : jsstring) :
  length s < length p -> startsWith p s = false.
Proof.
  revert s. induction p as [|a p IH]; intros s H; [cbn in H; lia|].
  destruct s as [|c s]; [reflexivity|].
  cbn [startsWith]. rewrite IH by (cbn in H; lia). apply andb_false_r.
Qed.

Lemma startsWith_within (p s post : jsstring) :
  length p <= length s -> startsWith p (s ++ post) = startsWith p s.
Proof.
  revert s. induction p as [|a p IH]; intros s H; [reflexivity|].
  destruct s as [|c s]; [cbn in H; lia|].
  cbn [app startsWith]. rewrite IH by (cbn in H; lia). reflexivity.
Qed.

Lemma includes_suffix (pre t needle : jsstring) :
  startsWith needle t = true -> includes (pre ++ t) needle = true.
Proof.
  intros H. apply includes_app_r. rewrite includes_unfold, H. reflexivity.
Qed.

(** No occurrence of the delimiter begins in a body and ends in the
    delimiter that follows it: the delimiter begins with a [d] and holds
    no other. *)
Lemma no_straddle (t rest : jsstring) :
  t <> [] -> length t < length delimiter ->
  startsWith delimiter (t ++ delimiter ++ rest) = false.
Proof.
  intros Hne Hlen.
  destruct t as [|a1 t]; [congruence|].
  do 9 (destruct t as [|? t];
        [cbn; rewrite ?andb_false_r; reflexivity|]).
  cbn in Hlen. lia.
Qed.

(** What follows a body: the end of the diff or the next section. *)
Definition follows (rest : jsstring) : Prop :=
  rest = [] \/ exists more, rest = delimiter ++ more.

Lemma body_scanned (b : jsstring) :
  forall (pre rest piece : jsstring),
    includes (pre ++ b) delimiter = false ->
    follows rest ->
    splitFrom delimiter (b ++ rest) 0 piece
    = splitFrom delimiter rest 0 (rev b ++ piece).
Proof.
  induction b as [|c b IH]; intros pre rest piece Hno Hrest;
    [reflexivity|].
  assert (Hhere : startsWith delimiter ((c :: b) ++ rest) = false).
  { destruct (Nat.le_gt_cases (length delimiter) (length (c :: b)))
      as [Hlong|Hshort].
    - rewrite startsWith_within by exact Hlong.
      destruct (startsWith delimiter (c :: b)) eqn:E; [|reflexivity].
      now rewrite (includes_suffix pre (c :: b) delimiter E) in Hno.
    - destruct Hrest as [->|[more ->]].
      + rewrite app_nil_r. now apply startsWith_short.
      + apply no_straddle; [discriminate|exact Hshort]. }
  cbn [app] in Hhere |- *. cbn [splitFrom]. rewrite Hhere.
  rewrite (IH (pre ++ [c]) rest (c :: piece)).
  - cbn [rev]. now rewrite <- app_assoc.
  - now rewrite <- app_assoc.
  - exact Hrest.
Qed.

Lemma delimiter_passed (s piece : jsstring) :
  splitFrom delimiter (delimiter ++ s) 0 piece
  = rev piece :: splitFrom delimiter s 0 [].
Proof.
  pose proof (startsWith_app delimiter s) as H.
  change (delimiter ++ s) with (100%N :: tl delimiter ++ s) in H |- *.
  cbn [splitFrom]. rewrite H. reflexivity.
Qed.

(** The split finds the bodies of a diff made of file sections. *)
Lemma split_sections (bodies : list jsstring) :
  Forall body bodies ->
  forall piece,
    splitFrom delimiter (concat (sectionsOf bodies)) 0 piece
    = rev piece :: bodies.
Proof.
  induction 1 as [|b bodies [_ Hb] _ IH]; intros piece; [reflexivity|].
  cbn [sectionsOf map concat]. fold (sectionsOf bodies).
  rewrite <- app_assoc, delimiter_passed. f_equal.
  rewrite (body_scanned b [] (concat (sectionsOf bodies)) []).
  - rewrite IH, app_nil_r, rev_involutive. reflexivity.
  - exact Hb.
  - destruct bodies as [|b' bodies]; [now left|right].
    cbn [sectionsOf map concat]. rewrite <- app_assoc. now eexists.
Qed.

Lemma fileSections_sections (bodies : list jsstring) :
  Forall body bodies ->
  fileSections (concat (sectionsOf bodies)) = sectionsOf bodies.
Proof.
  intros H. unfold fileSections, rawSections, split.
  rewrite (split_sections bodies H []). cbn [rev filter truthy].
  unfold sectionsOf. f_equal.
  induction H as [|b bodies [Hne _] _ IH]; [reflexivity|].
  cbn [filter]. destruct b; [congruence|]. cbn [truthy]. now rewrite IH.
Qed.

(** C1, amended.  For a diff that is a sequence of file sections, each the
    delimiter followed by a non-empty body in which the delimiter does not
    occur, the chunks of [splitDiffIntoChunks] are the newline-joined
    serialisations of consecutive, non-empty groups of these sections,
    and the groups, concatenated in order, are the sections of the diff
    exactly: same sections, same order, none dropped and none repeated.
    No bound on the sections' lengths is needed. *)
Theorem splitDiffIntoChunks_roundtrip (bodies : list jsstring) :
  Forall body bodies ->
  exists groups : list (list jsstring),
    splitDiffIntoChunks (concat (sectionsOf bodies))
    = map (join newline) groups /\
    concat groups = sectionsOf bodies /\
    Forall (fun g => g <> []) groups.
Proof.
  intros H.
  destruct (splitDiffIntoChunks_groups (concat (sectionsOf bodies)))
    as (groups & E & C & S).
  exists groups. split; [exact E|]. split.
  - now rewrite C, fileSections_sections.
  - eapply Forall_impl; [|exact S]. intros g [Hg _]. exact Hg.
Qed.

Definition twoBodies : list jsstring :=
  [lit (" a/x b/x" ++ LFs ++ "+1" ++ LFs)%string;
   lit (" a/y b/y" ++ LFs ++ "-2" ++ LFs)%string].

Lemma splitDiffIntoChunks_roundtrip_witness :
  exists groups : list (list jsstring),
    splitDiffIntoChunks (concat (sectionsOf twoBodies))
    = map (join newline) groups /\
    concat groups = sectionsOf twoBodies /\
    Forall (fun g => g <> []) groups.
Proof.
  apply (splitDiffIntoChunks_roundtrip twoBodies).
  repeat constructor; discriminate.
Defined.

(** C1 as stated, for every diff, fails: a text before the first
    delimiter comes back as a section behind a delimiter that the diff
    does not hold, and a delimiter with nothing behind it is dropped. *)
Lemma splitDiffIntoChunks_invents_and_drops :
  splitDiffIntoChunks (lit "abc") = [lit "diff --gitabc"] /\
  includes (lit "abc") delimiter = false /\
  splitDiffIntoChunks (lit "diff --gitdiff --git a/x")
  = [lit "diff --git a/x"].
Proof. repeat split. Qed.

End ChunkerText.

(** ** The marker in the final message *)

Module FormatFinal.
Import JS Regex Format FormatFacts.
Import CompressFacts(LFs).
Import FormatRef(asciiLower).













End FormatFinal.
